(** * octodns-lexicon: the provider bridge of [octodns_lexicon.py]

    A shallow embedding of the marshalling functions ([_data_for_*],
    [_rrset_for_*]), of the identifier memory ([RememberedIds]), of the
    harmonisation step of [populate] and of the reconciliation loop of
    [_apply], followed by the properties stated about them.

    Conventions of the embedding:
    - a Python [str] is a [string]; characters are the 8-bit characters of
      [ascii], which covers every character the code inspects (blank, tab,
      CR, LF, the two quotes, backslash, dot and semicolon);
    - a Python [int] is a [Z];
    - a function that can raise returns [exn + A];
    - [shlex.split] belongs to the Python standard library; it is embedded
      from [shlex.py] (posix mode, [whitespace_split], no commenters), the
      configuration [shlex.split(s)] sets up. *)

From Stdlib Require Import ZArith Ascii String List Lia DecimalString.
From stdpp Require Import base option list gmap strings sorting.

Local Open Scope Z_scope.
Local Open Scope string_scope.
Local Open Scope list_scope.

(** ** Flat records *)

(** [class LexiconRecord(namedtuple('LexiconRecord', 'content ttl rtype name'))] *)
Record LexiconRecord := mkLexiconRecord {
  content : string;
  ttl : Z;
  rtype : string;
  name : string
}.

(** A record in list format: a dict with the keys [content], [type],
    [name] and [ttl], and the key [id] when the provider listed it. *)
Record record_dict := mk_record_dict {
  lr_content : string;
  lr_type : string;
  lr_name : string;
  lr_ttl : Z;
  lr_id : option string
}.

(** [LexiconRecord.to_list_format]: the field [rtype] is listed as [type];
    the dict has no key [id]. *)
Definition to_list_format (r : LexiconRecord) : record_dict :=
  {| lr_content := content r; lr_type := rtype r; lr_name := name r;
     lr_ttl := ttl r; lr_id := None |}.

(** [LexiconRecord.func_args]: the keyword arguments of a provider call,
    without the ttl. *)
Record func_args_t := mk_func_args {
  fa_content : string;
  fa_rtype : string;
  fa_name : string
}.

Definition func_args (r : LexiconRecord) : func_args_t :=
  {| fa_content := content r; fa_rtype := rtype r; fa_name := name r |}.

(** ** Exceptions *)

(** The exceptions the embedded code raises.  [RecordDeleteError] and
    [RecordCreateError] subclass [RecordUpdateError] and inherit its
    constructor [__init__(self, record, identifier=None)], whose arguments
    are formatted into the message.  [ProviderError] stands for whatever a
    provider call raises by itself. *)
Inductive exn :=
| ValueError
| IndexError
| AttributeError
| StopIteration
| RecordUpdateError (record : LexiconRecord) (identifier : option string)
| RecordDeleteError (record : LexiconRecord) (identifier : option string)
| RecordCreateError (record : LexiconRecord) (identifier : option string)
| ProviderError (what : string).

(** ** [shlex.split] *)

Definition dquote : ascii := "034"%char.
Definition squote : ascii := "039"%char.
Definition backslash : ascii := "092"%char.

(** [self.whitespace]: blank, tab, carriage return, line feed *)
Definition in_whitespace (c : ascii) : bool :=
  (c =? " ")%char || (c =? "009")%char || (c =? "013")%char || (c =? "010")%char.

(** [self.quotes]: the single and the double quote *)
Definition in_quotes (c : ascii) : bool :=
  (c =? squote)%char || (c =? dquote)%char.

(** [self.escape]: the backslash *)
Definition in_escape (c : ascii) : bool := (c =? backslash)%char.

(** [self.escapedquotes]: the double quote *)
Definition in_escapedquotes (c : ascii) : bool := (c =? dquote)%char.

(** The values of [self.state] (and of the local [escapedstate]) while
    characters remain: [' '], ['a'], a quote character, the escape
    character.  The state ['c'] needs [punctuation_chars], which is empty. *)
Inductive lex_state :=
| StWhite
| StWord
| StQuote (q : ascii)
| StEscape.

Definition snoc (token : string) (c : ascii) : string :=
  token +:+ String c EmptyString.

Definition is_empty (s : string) : bool :=
  match s with EmptyString => true | String _ _ => false end.

(** [break] with a token to hand out: the token goes to the result list and
    [read_token] is entered again with fresh locals. *)
Definition emit (token : string) (k : exn + list string) : exn + list string :=
  match k with
  | inl e => inl e
  | inr toks => inr (token :: toks)
  end.

(** [list(lex)]: the loop of [shlex.read_token], iterated by [__next__]
    until it returns [None].  The arguments are [self.state], and the
    locals [escapedstate], [quoted] and [self.token] of the running
    [read_token]; the string is what [self.instream] still holds.
    With [whitespace_split] the branches for [wordchars] and for any other
    character coincide; [commenters] and [punctuation_chars] are empty. *)
Fixpoint read_tokens (state escapedstate : lex_state) (quoted : bool)
    (token : string) (instream : string) : exn + list string :=
  match instream with
  | EmptyString =>
      match state with
      | StWhite | StWord =>
          (* end of file: [result = None] unless quoted or non-empty; the
             next call sees [self.state is None] and returns [None] *)
          inr (if negb quoted && is_empty token then [] else [token])
      | StQuote _ => inl ValueError    (* No closing quotation *)
      | StEscape => inl ValueError     (* No escaped character *)
      end
  | String nextchar rest =>
      match state with
      | StWhite =>
          if in_whitespace nextchar then
            if negb (is_empty token) || quoted
            then emit token (read_tokens StWhite StWhite false EmptyString rest)
            else read_tokens StWhite escapedstate quoted token rest
          else if in_escape nextchar then
            read_tokens StEscape StWord quoted token rest
          else if in_quotes nextchar then
            read_tokens (StQuote nextchar) escapedstate quoted token rest
          else
            read_tokens StWord escapedstate quoted (String nextchar EmptyString) rest
      | StWord =>
          if in_whitespace nextchar then
            if negb (is_empty token) || quoted
            then emit token (read_tokens StWhite StWhite false EmptyString rest)
            else read_tokens StWhite escapedstate quoted token rest
          else if in_quotes nextchar then
            read_tokens (StQuote nextchar) escapedstate quoted token rest
          else if in_escape nextchar then
            read_tokens StEscape StWord quoted token rest
          else
            read_tokens StWord escapedstate quoted (snoc token nextchar) rest
      | StQuote q =>
          if (nextchar =? q)%char then
            read_tokens StWord escapedstate true token rest
          else if in_escape nextchar && in_escapedquotes q then
            read_tokens StEscape (StQuote q) true token rest
          else
            read_tokens (StQuote q) escapedstate true (snoc token nextchar) rest
      | StEscape =>
          let token' :=
            match escapedstate with
            | StQuote q =>
                if negb (nextchar =? backslash)%char && negb (nextchar =? q)%char
                then snoc token backslash else token
            | _ => token
            end in
          read_tokens escapedstate escapedstate quoted (snoc token' nextchar) rest
      end
  end.

(** [shlex.split(s)] *)
Definition shlex_split (s : string) : exn + list string :=
  read_tokens StWhite StWhite false EmptyString s.

(** ** The error monad *)

Definition raise {A} (e : exn) : exn + A := inl e.

Definition bind {A B} (m : exn + A) (k : A -> exn + B) : exn + B :=
  match m with
  | inl e => inl e
  | inr a => k a
  end.

Notation "'let!' x ':=' m 'in' k" := (bind m (fun x => k))
  (at level 10, x pattern, m at level 100, k at level 200).

(** [for x in l: out.append(f(x))], stopping at the first exception. *)
Fixpoint for_append {A B} (f : A -> exn + B) (l : list A) : exn + list B :=
  match l with
  | [] => inr []
  | x :: l' =>
      let! y := f x in
      let! ys := for_append f l' in
      inr (y :: ys)
  end.

(** ** Strings *)

(** [s[-1]] on a string: [IndexError] on the empty string. *)
Fixpoint last_char (s : string) : exn + ascii :=
  match s with
  | EmptyString => raise IndexError
  | String c EmptyString => inr c
  | String _ rest => last_char rest
  end.

(** [l[-1]] on a list *)
Definition last_item {A} (l : list A) : exn + A :=
  match last l with
  | Some x => inr x
  | None => raise IndexError
  end.

(** [c in s] for a one-character [c] *)
Fixpoint char_in (c : ascii) (s : string) : bool :=
  match s with
  | EmptyString => false
  | String d rest => (c =? d)%char || char_in c rest
  end.

(** [re.sub(';', '\;', s)]: every semicolon gets a backslash in front *)
Fixpoint re_sub_semicolon (s : string) : string :=
  match s with
  | EmptyString => EmptyString
  | String c rest =>
      if (c =? ";")%char
      then String backslash (String ";" (re_sub_semicolon rest))
      else String c (re_sub_semicolon rest)
  end.

(** [str(n)], as [format] renders an [int] *)
Definition str_of_int (n : Z) : string := NilZero.string_of_int (Z.to_int n).

(** ** Decoding: [_data_for_*] *)

(** One entry of the list under ['values']: a plain string, or the dict
    built for a CAA, MX or SRV value, every field a token of the content. *)
Inductive data_value :=
| Str (s : string)
| CaaDict (flags tag value : string)
| MxDict (priority exchange : string)
| SrvDict (priority weight port target : string).

(** The dict handed to [Record.new]: with the key ['values'], or with the
    key ['value'] for the single-valued types. *)
Inductive data :=
| DataValues (d_ttl : Z) (d_type : string) (d_values : list data_value)
| DataValue (d_ttl : Z) (d_type : string) (d_value : string).

(** [lexicon_records[0]] *)
Definition first_record (lexicon_records : list record_dict)
  : exn + record_dict :=
  match lexicon_records with
  | [] => raise IndexError
  | record :: _ => inr record
  end.

Definition _data_for_multiple (_type : string)
    (lexicon_records : list record_dict) : exn + data :=
  let! record := first_record lexicon_records in
  inr (DataValues (lr_ttl record) _type
         (map (fun r => Str (re_sub_semicolon (lr_content r))) lexicon_records)).

(** [flags, tag, value = shlex.split(record['content'])]: unpacking a list
    of another length raises [ValueError]. *)
Definition caa_of_content (record : record_dict) : exn + data_value :=
  let! tokens := shlex_split (lr_content record) in
  match tokens with
  | [flags; tag; value] => inr (CaaDict flags tag value)
  | _ => raise ValueError
  end.

Definition _data_for_CAA (_type : string)
    (lexicon_records : list record_dict) : exn + data :=
  let! values := for_append caa_of_content lexicon_records in
  let! record := first_record lexicon_records in
  inr (DataValues (lr_ttl record) _type values).

Definition _data_for_CNAME (_type : string)
    (lexicon_records : list record_dict) : exn + data :=
  let! record := first_record lexicon_records in
  inr (DataValue (lr_ttl record) _type (lr_content record)).

Definition mx_of_content (record : record_dict) : exn + data_value :=
  let! tokens := shlex_split (lr_content record) in
  match tokens with
  | [priority; exchange] => inr (MxDict priority exchange)
  | _ => raise ValueError
  end.

Definition _data_for_MX (_type : string)
    (lexicon_records : list record_dict) : exn + data :=
  let! values := for_append mx_of_content lexicon_records in
  let! record := first_record lexicon_records in
  inr (DataValues (lr_ttl record) _type values).

Definition srv_of_content (record : record_dict) : exn + data_value :=
  let! tokens := shlex_split (lr_content record) in
  match tokens with
  | [priority; weight; port; target] =>
      inr (SrvDict priority weight port target)
  | _ => raise ValueError
  end.

Definition _data_for_SRV (_type : string)
    (lexicon_records : list record_dict) : exn + data :=
  let! values := for_append srv_of_content lexicon_records in
  let! record := first_record lexicon_records in
  inr (DataValues (lr_ttl record) _type values).

Definition _data_for_A := _data_for_multiple.
Definition _data_for_AAAA := _data_for_multiple.
Definition _data_for_ALIAS := _data_for_CNAME.
Definition _data_for_NS := _data_for_multiple.
Definition _data_for_TXT := _data_for_multiple.

(** [IMPLEMENTED] *)
Definition IMPLEMENTED : list string :=
  ["A"; "AAAA"; "ALIAS"; "CAA"; "CNAME"; "MX"; "NS"; "SRV"; "TXT"].

(** [getattr(self, '_data_for_{}'.format(record_type))]: [AttributeError]
    when there is no such method.  The methods are those of the nine
    implemented types and [_data_for_multiple] itself, which the lookup
    finds under the type string [multiple]. *)
Definition _data_func (record_type : string)
  : exn + (string -> list record_dict -> exn + data) :=
  if decide (record_type = "A") then inr _data_for_A
  else if decide (record_type = "AAAA") then inr _data_for_AAAA
  else if decide (record_type = "ALIAS") then inr _data_for_ALIAS
  else if decide (record_type = "CAA") then inr _data_for_CAA
  else if decide (record_type = "CNAME") then inr _data_for_CNAME
  else if decide (record_type = "MX") then inr _data_for_MX
  else if decide (record_type = "NS") then inr _data_for_NS
  else if decide (record_type = "SRV") then inr _data_for_SRV
  else if decide (record_type = "TXT") then inr _data_for_TXT
  else if decide (record_type = "multiple") then inr _data_for_multiple
  else raise AttributeError.

(** ** Harmonisation in [populate] *)

(** The body of [if lexicon_record['type'] in ['CNAME', 'MX', 'NS']] in the
    listing loop; [zone_name] is [zone.name].  The dict is updated in
    place, so the harmonised content is the one decoded and remembered. *)
Definition harmonize (zone_name : string) (lexicon_record : record_dict)
  : exn + record_dict :=
  if bool_decide (lr_type lexicon_record ∈ ["CNAME"; "MX"; "NS"]) then
    let! final := last_char (lr_content lexicon_record) in
    if negb (final =? ".")%char then
      let! tokens := shlex_split (lr_content lexicon_record) in
      let! domain_part := last_item tokens in
      let content' :=
        if char_in "." domain_part
        then lr_content lexicon_record +:+ "."
        else lr_content lexicon_record +:+ "." +:+ zone_name in
      inr {| lr_content := content';
             lr_type := lr_type lexicon_record;
             lr_name := lr_name lexicon_record;
             lr_ttl := lr_ttl lexicon_record;
             lr_id := lr_id lexicon_record |}
    else inr lexicon_record
  else inr lexicon_record.

(** ** The records of octodns *)

(** What the code reads of an octodns record: [_type], [fqdn], [ttl] and
    [values] (a list of strings, or of CAA, MX or SRV value objects) or
    [value] (ALIAS, CNAME).  The classes themselves live in octodns. *)
Module octodns.

Record CaaValue := mkCaaValue { flags : Z; tag : string; value : string }.
Record MxValue := mkMxValue { preference : Z; exchange : string }.
Record SrvValue := mkSrvValue {
  priority : Z; weight : Z; port : Z; target : string
}.

Inductive payload :=
| Values (values : list string)
| Value (value : string)
| CaaValues (values : list CaaValue)
| MxValues (values : list MxValue)
| SrvValues (values : list SrvValue).

Record record := mkRecord {
  _type : string;
  fqdn : string;
  ttl : Z;
  data : payload
}.

(** [octodns.record.Change]: [Create] has no [existing], [Delete] has no
    [new]. *)
Inductive Change :=
| Create (new : record)
| Update (existing new : record)
| Delete (existing : record).

Definition existing_of (change : Change) : option record :=
  match change with
  | Create _ => None
  | Update existing _ => Some existing
  | Delete existing => Some existing
  end.

Definition new_of (change : Change) : option record :=
  match change with
  | Create new => Some new
  | Update _ new => Some new
  | Delete _ => None
  end.

(** [Change.record]: [self.new or self.existing] *)
Definition record_of (change : Change) : record :=
  match change with
  | Create new => new
  | Update _ new => new
  | Delete existing => existing
  end.

End octodns.

(** ** Encoding: [_rrset_for_*] *)

Global Instance LexiconRecord_eq_dec : EqDecision LexiconRecord.
Proof. solve_decision. Defined.

Global Instance LexiconRecord_countable : Countable LexiconRecord.
Proof.
  refine (inj_countable'
            (fun r => (content r, ttl r, rtype r, name r))
            (fun t => match t with (c, t, r, n) => mkLexiconRecord c t r n end)
            _).
  intros r. destruct r. reflexivity.
Defined.

(** The set comprehension [{LexiconRecord(...) for c in values}].  A record
    of another class than the function expects lacks the attribute read
    ([values], [value], or a field of the value object). *)
Definition rrset_of {A} (octodns_record : octodns.record)
    (content_of : A -> string) (values : list A) : gset LexiconRecord :=
  list_to_set
    (map (fun c => {| content := content_of c;
                      ttl := octodns.ttl octodns_record;
                      rtype := octodns._type octodns_record;
                      name := octodns.fqdn octodns_record |}) values).

Definition _rrset_for_multiple (octodns_record : octodns.record)
  : exn + gset LexiconRecord :=
  match octodns.data octodns_record with
  | octodns.Values values => inr (rrset_of octodns_record (fun c => c) values)
  | _ => raise AttributeError
  end.

(** The content of a CAA value: [c.flags], [c.tag] and [c.value] formatted
    with single blanks between them, [c.value] between double quotes. *)
Definition caa_content (c : octodns.CaaValue) : string :=
  str_of_int (octodns.flags c) +:+ " " +:+ octodns.tag c +:+ " "
  +:+ String dquote (octodns.value c +:+ String dquote EmptyString).

Definition _rrset_for_CAA (octodns_record : octodns.record)
  : exn + gset LexiconRecord :=
  match octodns.data octodns_record with
  | octodns.CaaValues values => inr (rrset_of octodns_record caa_content values)
  | _ => raise AttributeError
  end.

Definition _rrset_for_CNAME (octodns_record : octodns.record)
  : exn + gset LexiconRecord :=
  match octodns.data octodns_record with
  | octodns.Value value => inr (rrset_of octodns_record (fun c => c) [value])
  | _ => raise AttributeError
  end.

(** ['{} {}'.format(c.preference, c.exchange)] *)
Definition mx_content (c : octodns.MxValue) : string :=
  str_of_int (octodns.preference c) +:+ " " +:+ octodns.exchange c.

Definition _rrset_for_MX (octodns_record : octodns.record)
  : exn + gset LexiconRecord :=
  match octodns.data octodns_record with
  | octodns.MxValues values => inr (rrset_of octodns_record mx_content values)
  | _ => raise AttributeError
  end.

(** ['{} {} {} {}'.format(c.priority, c.weight, c.port, c.target)] *)
Definition srv_content (c : octodns.SrvValue) : string :=
  str_of_int (octodns.priority c) +:+ " " +:+ str_of_int (octodns.weight c)
  +:+ " " +:+ str_of_int (octodns.port c) +:+ " " +:+ octodns.target c.

Definition _rrset_for_SRV (octodns_record : octodns.record)
  : exn + gset LexiconRecord :=
  match octodns.data octodns_record with
  | octodns.SrvValues values => inr (rrset_of octodns_record srv_content values)
  | _ => raise AttributeError
  end.

Definition _rrset_for_A := _rrset_for_multiple.
Definition _rrset_for_AAAA := _rrset_for_multiple.
Definition _rrset_for_ALIAS := _rrset_for_CNAME.
Definition _rrset_for_NS := _rrset_for_multiple.
Definition _rrset_for_TXT := _rrset_for_multiple.

(** [getattr(self, '_rrset_for_{}'.format(change.record._type))]: the
    methods of the nine implemented types and [_rrset_for_multiple] itself,
    [AttributeError] for any other type string. *)
Definition _rrset_func (record_type : string)
  : exn + (octodns.record -> exn + gset LexiconRecord) :=
  if decide (record_type = "A") then inr _rrset_for_A
  else if decide (record_type = "AAAA") then inr _rrset_for_AAAA
  else if decide (record_type = "ALIAS") then inr _rrset_for_ALIAS
  else if decide (record_type = "CAA") then inr _rrset_for_CAA
  else if decide (record_type = "CNAME") then inr _rrset_for_CNAME
  else if decide (record_type = "MX") then inr _rrset_for_MX
  else if decide (record_type = "NS") then inr _rrset_for_NS
  else if decide (record_type = "SRV") then inr _rrset_for_SRV
  else if decide (record_type = "TXT") then inr _rrset_for_TXT
  else if decide (record_type = "multiple") then inr _rrset_for_multiple
  else raise AttributeError.

(** ** Sorting flat records *)

(** The order of the named tuples: lexicographic on (content, ttl, rtype,
    name), strings by character code. *)
Definition compare_LexiconRecord (a b : LexiconRecord) : comparison :=
  match String.compare (content a) (content b) with
  | Eq =>
      match Z.compare (ttl a) (ttl b) with
      | Eq =>
          match String.compare (rtype a) (rtype b) with
          | Eq => String.compare (name a) (name b)
          | c => c
          end
      | c => c
      end
  | c => c
  end.

Definition le_LexiconRecord (a b : LexiconRecord) : Prop :=
  compare_LexiconRecord a b <> Gt.

Global Instance le_LexiconRecord_dec a b : Decision (le_LexiconRecord a b).
Proof. unfold le_LexiconRecord. apply _. Defined.

(** [sorted(s)] for a set [s] of flat records *)
Definition sorted (s : gset LexiconRecord) : list LexiconRecord :=
  merge_sort le_LexiconRecord (elements s).

(** ** Identifier memory: [class RememberedIds] *)

Module RememberedIds.

(** [d[k]] on a [defaultdict]: a missing key is bound to the default
    before it is returned. *)
Definition getitem {V} (default : V) (d : gmap string V) (k : string)
  : V * gmap string V :=
  match d !! k with
  | Some v => (v, d)
  | None => (default, <[k := default]> d)
  end.

(** The two dictionaries of an instance; the lock orders the calls of
    concurrent threads and has no part in a sequential run. *)
Record t := mk {
  _id_by_record_and_value : gmap string (gmap string string);
  _all_ids_for_record : gmap string (list string)
}.

(** [__init__] *)
Definition init : t :=
  {| _id_by_record_and_value := ∅; _all_ids_for_record := ∅ |}.

Section methods.
(** The records are used through [repr] only. *)
Context {R : Type} (repr : R -> string).

Definition remember (self : t) (record : R) (content _id : string) : t :=
  let '(by_value, d1) :=
    getitem ∅ (_id_by_record_and_value self) (repr record) in
  let d1' := <[repr record := <[content := _id]> by_value]> d1 in
  let '(all_ids, d2) :=
    getitem [] (_all_ids_for_record self) (repr record) in
  let d2' := <[repr record := (all_ids ++ [_id])%list]> d2 in
  {| _id_by_record_and_value := d1'; _all_ids_for_record := d2' |}.

Definition has_unique_ids (self : t) (record : R) : bool * t :=
  let '(ids1, d) := getitem [] (_all_ids_for_record self) (repr record) in
  let '(ids2, d') := getitem [] d (repr record) in
  (Nat.eqb (length ids1) (length (remove_dups ids2)),
   {| _id_by_record_and_value := _id_by_record_and_value self;
      _all_ids_for_record := d' |}).

(** [None] is the answer to the [KeyError] of the inner dict. *)
Definition get (self : t) (record : R) (content : string)
  : option string * t :=
  let '(by_value, d) :=
    getitem ∅ (_id_by_record_and_value self) (repr record) in
  (by_value !! content,
   {| _id_by_record_and_value := d;
      _all_ids_for_record := _all_ids_for_record self |}).

Definition get_all_ids (self : t) (record : R) : list string * t :=
  let '(ids, d) := getitem [] (_all_ids_for_record self) (repr record) in
  (ids,
   {| _id_by_record_and_value := _id_by_record_and_value self;
      _all_ids_for_record := d |}).

End methods.

End RememberedIds.

(** ** The provider and the apply loop *)

(** The [identifier] keyword of [delete_record]: left out, or passed with
    what [RememberedIds.get] returned. *)
Inductive identifier_kw :=
| Omitted
| Passed (identifier : option string).

(** The calls [_apply] makes on [lexicon_client.provider]. *)
Inductive provider_call :=
| authenticate
| create_record (args : func_args_t)
| update_record (identifier : option string) (args : func_args_t)
| delete_record (identifier : identifier_kw) (args : func_args_t).

(** Truth value of an identifier: the empty string is false. *)
Definition truthy (identifier : option string) : bool :=
  match identifier with
  | Some (String _ _) => true
  | _ => false
  end.

Section apply.

(** [repr] of an octodns record comes from octodns. *)
Variable record_repr : octodns.record -> string.

(** [repr(change.existing)], where [change.existing] may be [None] *)
Definition repr (existing : option octodns.record) : string :=
  match existing with
  | Some record => record_repr record
  | None => "None"
  end.

(** The provider is any state machine: a call, made while the config
    resolves [lexicon:ttl] to the given value, returns a success flag or
    raises, and moves the provider to a new state. *)
Variable Provider : Type.
Variable provider_do :
  provider_call -> Z -> Provider -> (exn + bool) * Provider.

(** What a run of [_apply] reads and writes: [self.remembered_ids], the
    [ttl] of the [OnTheFlyLexiconConfigSource], the provider, and the
    journal of the provider calls made so far with their outcomes. *)
Record world := mkWorld {
  remembered_ids : RememberedIds.t;
  config_ttl : Z;
  provider : Provider;
  journal : list (provider_call * (exn + bool))
}.

Definition M (A : Type) : Type := world -> (exn + A) * world.

Definition ret {A} (a : A) : M A := fun w => (inr a, w).

Definition throw {A} (e : exn) : M A := fun w => (inl e, w).

Definition and_then {A B} (m : M A) (k : A -> M B) : M B :=
  fun w =>
    match m w with
    | (inl e, w') => (inl e, w')
    | (inr a, w') => k a w'
    end.

Definition lift {A} (r : exn + A) : M A := fun w => (r, w).

Notation "'do' x '<-' m ';' k" := (and_then m (fun x => k))
  (at level 10, x pattern, m at level 100, k at level 200).

(** [lexicon_client.provider.<call>(...)] *)
Definition call (c : provider_call) : M bool :=
  fun w =>
    let '(r, p') := provider_do c (config_ttl w) (provider w) in
    (r, {| remembered_ids := remembered_ids w;
           config_ttl := config_ttl w;
           provider := p';
           journal := (journal w ++ [(c, r)])%list |}).

(** [dynamic_config.set_ttl(ttl)] *)
Definition set_ttl (ttl : Z) : M unit :=
  fun w =>
    (inr tt, {| remembered_ids := remembered_ids w;
                config_ttl := ttl;
                provider := provider w;
                journal := journal w |}).

Definition with_ids {A} (f : RememberedIds.t -> A * RememberedIds.t) : M A :=
  fun w =>
    let '(a, ids') := f (remembered_ids w) in
    (inr a, {| remembered_ids := ids';
               config_ttl := config_ttl w;
               provider := provider w;
               journal := journal w |}).

(** [next(it)] on a list iterator *)
Definition next {A} (it : list A) : M (A * list A) :=
  match it with
  | [] => throw StopIteration
  | x :: it' => ret (x, it')
  end.

(** [for i in range(0, n)]: the paired additions and deletions; returns
    what the two iterators still hold. *)
Fixpoint paired_loop (n : nat) (existing : option octodns.record)
    (additions_iter deletions_iter : list LexiconRecord)
  : M (list LexiconRecord * list LexiconRecord) :=
  match n with
  | O => ret (additions_iter, deletions_iter)
  | S n' =>
      do (new_record, additions_iter') <- next additions_iter;
      do (old_record, deletions_iter') <- next deletions_iter;
      do identifier <-
        with_ids (fun ids =>
          RememberedIds.get repr ids existing (content old_record));
      do unique <-
        (if truthy identifier
         then with_ids (fun ids => RememberedIds.has_unique_ids repr ids existing)
         else ret false);
      do _ <-
        (if truthy identifier && unique then
           do ok <- call (update_record identifier (func_args new_record));
           if negb ok then throw (RecordUpdateError new_record identifier)
           else ret tt
         else
           do ok <- call (create_record (func_args new_record));
           if negb ok then throw (RecordCreateError new_record None)
           else
             do ok' <- call (delete_record Omitted (func_args old_record));
             if negb ok' then throw (RecordDeleteError old_record None)
             else ret tt);
      paired_loop n' existing additions_iter' deletions_iter'
  end.

(** [for new_record in additions_iter] *)
Fixpoint create_loop (additions_iter : list LexiconRecord) : M unit :=
  match additions_iter with
  | [] => ret tt
  | new_record :: rest =>
      do ok <- call (create_record (func_args new_record));
      if negb ok then throw (RecordCreateError new_record None)
      else create_loop rest
  end.

(** [for old_record in deletions_iter] *)
Fixpoint delete_loop (existing : option octodns.record)
    (deletions_iter : list LexiconRecord) : M unit :=
  match deletions_iter with
  | [] => ret tt
  | old_record :: rest =>
      do identifier <-
        with_ids (fun ids =>
          RememberedIds.get repr ids existing (content old_record));
      do ok <- call (delete_record (Passed identifier) (func_args old_record));
      if negb ok then throw (RecordDeleteError old_record None)
      else delete_loop existing rest
  end.

(** [_rrset_func(r) if r else set()] *)
Definition vars_of (f : octodns.record -> exn + gset LexiconRecord)
    (r : option octodns.record) : exn + gset LexiconRecord :=
  match r with
  | Some r => f r
  | None => inr ∅
  end.

(** The body of [for change in changes] *)
Definition apply_change (change : octodns.Change) : M unit :=
  do rrset <- lift (_rrset_func (octodns._type (octodns.record_of change)));
  do _ <- set_ttl (octodns.ttl (octodns.record_of change));
  do old_vars <- lift (vars_of rrset (octodns.existing_of change));
  do new_vars <- lift (vars_of rrset (octodns.new_of change));
  let additions := new_vars ∖ old_vars in
  let deletions := old_vars ∖ new_vars in
  let additions_iter := sorted additions in
  let deletions_iter := sorted deletions in
  do (additions_iter', deletions_iter') <-
    paired_loop (Nat.min (size additions) (size deletions))
                (octodns.existing_of change) additions_iter deletions_iter;
  do _ <- create_loop additions_iter';
  delete_loop (octodns.existing_of change) deletions_iter'.

Fixpoint apply_changes (changes : list octodns.Change) : M unit :=
  match changes with
  | [] => ret tt
  | change :: rest =>
      do _ <- apply_change change;
      apply_changes rest
  end.

(** [_apply(plan)], from the creation of the client on: a fresh config
    source (ttl 3600), [authenticate()], then the changes in turn. *)
Definition _apply (changes : list octodns.Change) : M unit :=
  do _ <- set_ttl 3600;
  do _ <- call authenticate;
  apply_changes changes.

End apply.

Arguments mkWorld {Provider}.
Arguments remembered_ids {Provider}.
Arguments config_ttl {Provider}.
Arguments provider {Provider}.
Arguments journal {Provider}.
Arguments ret {Provider A}.
Arguments throw {Provider A}.
Arguments and_then {Provider A B}.
Arguments lift {Provider A}.
Arguments call {Provider}.
Arguments set_ttl {Provider}.
Arguments with_ids {Provider A}.
Arguments next {Provider A}.

(** ** Notions used in the statements *)

(** [s] splits into exactly [n] tokens *)
Definition tokenizes_into (n : nat) (s : string) : bool :=
  match shlex_split s with
  | inr tokens => Nat.eqb (length tokens) n
  | inl _ => false
  end.

(** A character that is neither white space, nor a quote, nor the escape *)
Definition plain_char (c : ascii) : bool :=
  negb (in_whitespace c) && negb (in_quotes c) && negb (in_escape c).

Fixpoint all_chars (p : ascii -> bool) (s : string) : bool :=
  match s with
  | EmptyString => true
  | String c rest => p c && all_chars p rest
  end.

(** A non-empty run of plain characters *)
Definition plain_word (s : string) : bool :=
  negb (is_empty s) && all_chars plain_char s.

(** A character that a double-quoted section holds as it is *)
Definition quotable_char (c : ascii) : bool :=
  negb (c =? dquote)%char && negb (c =? backslash)%char.

(** What a decoder does on a non-empty group of records, given the field
    count its type expects. *)
Definition decodes_by_field_count
    (decoder : string -> list record_dict -> exn + data) (n : nat)
    (_type : string) (record : record_dict) (rest : list record_dict) : Prop :=
  if forallb (fun r => tokenizes_into n (lr_content r)) (record :: rest)
  then exists values,
         decoder _type (record :: rest)
         = inr (DataValues (lr_ttl record) _type values)
         /\ length values = length (record :: rest)
  else decoder _type (record :: rest) = inl ValueError.

Definition with_content (r : record_dict) (c : string) : record_dict :=
  {| lr_content := c; lr_type := lr_type r; lr_name := lr_name r;
     lr_ttl := lr_ttl r; lr_id := lr_id r |}.

(** What the dictionaries of the identifier memory answer for a key, the
    default included *)
Definition ids_of (s : RememberedIds.t) (key : string) : list string :=
  default [] (RememberedIds._all_ids_for_record s !! key).

Definition id_of (s : RememberedIds.t) (key content : string) : option string :=
  default ∅ (RememberedIds._id_by_record_and_value s !! key) !! content.

(** Two states of the memory that the three reading methods cannot tell
    apart *)
Definition same_observations {R} (repr : R -> string)
    (s1 s2 : RememberedIds.t) : Prop :=
  forall record content,
    fst (RememberedIds.get repr s1 record content)
    = fst (RememberedIds.get repr s2 record content)
    /\ fst (RememberedIds.get_all_ids repr s1 record)
       = fst (RememberedIds.get_all_ids repr s2 record)
    /\ fst (RememberedIds.has_unique_ids repr s1 record)
       = fst (RememberedIds.has_unique_ids repr s2 record).

(** A call of one of the four methods, and the state a sequence of calls
    leaves behind *)
Inductive memory_call (R : Type) :=
| Remember (record : R) (content _id : string)
| Get (record : R) (content : string)
| HasUniqueIds (record : R)
| GetAllIds (record : R).

Arguments Remember {R}.
Arguments Get {R}.
Arguments HasUniqueIds {R}.
Arguments GetAllIds {R}.

Definition run_call {R} (repr : R -> string) (s : RememberedIds.t)
    (c : memory_call R) : RememberedIds.t :=
  match c with
  | Remember record content _id =>
      RememberedIds.remember repr s record content _id
  | Get record content => snd (RememberedIds.get repr s record content)
  | HasUniqueIds record => snd (RememberedIds.has_unique_ids repr s record)
  | GetAllIds record => snd (RememberedIds.get_all_ids repr s record)
  end.

Definition run_calls {R} (repr : R -> string) (calls : list (memory_call R))
  : RememberedIds.t :=
  foldl (run_call repr) RememberedIds.init calls.

(** The call remembers an identifier under the given key *)
Definition remembers_under {R} (repr : R -> string) (key : string)
    (c : memory_call R) : Prop :=
  match c with
  | Remember record _ _ => repr record = key
  | _ => False
  end.
(** The provider calls a computation makes from a world on, with their
    outcomes: what it adds to the journal. *)
Definition issued {Provider A} (m : M Provider A) (w : world Provider)
  : list (provider_call * (exn + bool)) :=
  drop (length (journal w)) (journal (snd (m w))).

(** A call that returned a true flag *)
Definition succeeded (entry : provider_call * (exn + bool)) : Prop :=
  snd entry = inr true.

(** The error [_apply] raises when the call [c] returns a false flag: the
    class of the call, built from the flat record whose [func_args] were
    passed and, for an update, from the identifier passed. *)
Definition raised_for (c : provider_call) (e : exn) : Prop :=
  match c with
  | authenticate => False
  | create_record args =>
      exists record, args = func_args record /\ e = RecordCreateError record None
  | update_record identifier args =>
      exists record,
        args = func_args record /\ e = RecordUpdateError record identifier
  | delete_record _ args =>
      exists record, args = func_args record /\ e = RecordDeleteError record None
  end.

(** The shapes of a run: every call succeeded; or the last call returned a
    false flag and its error is the result; or the last call raised and
    what it raised is the result.  In each case the calls before the last
    succeeded. *)
Inductive run_shape {A : Type}
  : list (provider_call * (exn + bool)) -> exn + A -> Prop :=
| run_clean calls r :
    Forall succeeded calls -> run_shape calls r
| run_refused calls c e :
    Forall succeeded calls -> raised_for c e ->
    run_shape (calls ++ [(c, inr false)]) (inl e)
| run_raised calls c e :
    Forall succeeded calls ->
    run_shape (calls ++ [(c, inl e)]) (inl e).

Definition fail_stop {Provider A} (m : M Provider A) : Prop :=
  forall w, exists calls,
    journal (snd (m w)) = journal w ++ calls /\ run_shape calls (fst (m w)).

(** A call that is no [delete_record] with an [identifier] argument *)
Definition deletes_without_identifier (c : provider_call) : Prop :=
  match c with
  | delete_record identifier _ => identifier = Omitted
  | _ => True
  end.
(** ** Sample data for the closed statements *)

Definition sample_repr (record : octodns.record) : string :=
  octodns._type record +:+ " " +:+ octodns.fqdn record.

(** A provider without state whose calls all succeed *)
Definition obliging_provider (c : provider_call) (lexicon_ttl : Z) (p : unit)
  : (exn + bool) * unit :=
  (inr true, tt).

(** A provider without state that turns down every [delete_record] *)
Definition keeping_provider (c : provider_call) (lexicon_ttl : Z) (p : unit)
  : (exn + bool) * unit :=
  match c with
  | delete_record _ _ => (inr false, tt)
  | _ => (inr true, tt)
  end.

(** A provider without state whose [authenticate] returns a false flag
    and whose other calls succeed *)
Definition unauthenticated_provider (c : provider_call) (lexicon_ttl : Z)
    (p : unit) : (exn + bool) * unit :=
  match c with
  | authenticate => (inr false, tt)
  | _ => (inr true, tt)
  end.

Definition a_record (values : list string) : octodns.record :=
  {| octodns._type := "A"; octodns.fqdn := "www.example.com.";
     octodns.ttl := 300; octodns.data := octodns.Values values |}.

Definition a_flat (address : string) : LexiconRecord :=
  {| content := address; ttl := 300; rtype := "A";
     name := "www.example.com." |}.

(** The world of a session in which the given triples were remembered *)
Definition sample_world
    (remembered : list (octodns.record * string * string)) : world unit :=
  {| remembered_ids :=
       foldl (fun ids '(record, content, _id) =>
                RememberedIds.remember (repr sample_repr) ids (Some record)
                  content _id)
             RememberedIds.init remembered;
     config_ttl := 3600;
     provider := tt;
     journal := [] |}.

(** ** Notions about runs of the apply loop *)

Section run_notions.

Variable record_repr : octodns.record -> string.
Variable Provider : Type.
Variable provider_do :
  provider_call -> Z -> Provider -> (exn + bool) * Provider.

(** The rest of the body of the loop over the changes, once the sets are
    known *)
Definition reconcile (existing : option octodns.record)
    (additions deletions : gset LexiconRecord) : M Provider unit :=
  and_then
    (paired_loop record_repr Provider provider_do
       (Nat.min (size additions) (size deletions)) existing
       (sorted additions) (sorted deletions))
    (fun rest =>
       and_then (create_loop Provider provider_do (fst rest))
         (fun _ => delete_loop record_repr Provider provider_do existing
                     (snd rest))).

(** What the provider answers to a call in a world, and where it is then *)
Definition answer (c : provider_call) (w : world Provider) : exn + bool :=
  fst (provider_do c (config_ttl w) (provider w)).

Definition answered (c : provider_call) (w : world Provider) : world Provider :=
  {| remembered_ids := remembered_ids w;
     config_ttl := config_ttl w;
     provider := snd (provider_do c (config_ttl w) (provider w));
     journal := journal w ++ [(c, answer c w)] |}.

(** What follows the paired loop when both iterators are exhausted *)
Definition unpaired_rest (existing : option octodns.record)
  : M Provider unit :=
  and_then (ret ([], []))
    (fun rest =>
       and_then (create_loop Provider provider_do (fst rest))
         (fun _ => delete_loop record_repr Provider provider_do existing
                     (snd rest))).

(** Every provider call of the computation satisfies [P]. *)
Definition calls_only (P : provider_call -> Prop) {A} (m : M Provider A)
  : Prop :=
  forall w, exists calls,
    journal (snd (m w)) = journal w ++ calls
    /\ Forall (fun entry => P (fst entry)) calls.

(** The call the loop over the unpaired deletions makes for a flat record,
    in a memory that answers like [ids] *)
Definition bare_delete (ids : RememberedIds.t)
    (existing : option octodns.record) (old_record : LexiconRecord)
  : provider_call :=
  delete_record
    (Passed (fst (RememberedIds.get (repr record_repr) ids existing
                    (content old_record))))
    (func_args old_record).

End run_notions.

Arguments answer {Provider}.
Arguments answered {Provider}.
Arguments calls_only {Provider} P {A} m.
(** ** The round trip *)

(** [decode(type, [encode(type, v)])]: a record of the given type and
    payload is encoded by its [_rrset_for_] function, the flat records are
    put in list format and decoded by the [_data_for_] function of the
    type. *)
Definition decode_encoded (_type fqdn : string) (ttl : Z)
    (payload : octodns.payload) : exn + data :=
  let octodns_record :=
    {| octodns._type := _type; octodns.fqdn := fqdn; octodns.ttl := ttl;
       octodns.data := payload |} in
  let! rrset := _rrset_func _type in
  let! flat := rrset octodns_record in
  let! decoder := _data_func _type in
  decoder _type (map to_list_format (sorted flat)).

(** A semicolon that no backslash precedes *)
Fixpoint has_unescaped_semicolon (s : string) : bool :=
  match s with
  | EmptyString => false
  | String c rest =>
      if (c =? backslash)%char then
        match rest with
        | EmptyString => false
        | String _ rest' => has_unescaped_semicolon rest'
        end
      else if (c =? ";")%char then true
      else has_unescaped_semicolon rest
  end.
(** ** Notions used in further statements *)

(** The pairs (content, identifier) that a sequence of calls on the memory
    remembers under a key, in the order of the calls *)
Fixpoint remembered_under {R} (repr : R -> string) (key : string)
    (calls : list (memory_call R)) : list (string * string) :=
  match calls with
  | [] => []
  | Remember record content _id :: rest =>
      if decide (repr record = key)
      then (content, _id) :: remembered_under repr key rest
      else remembered_under repr key rest
  | _ :: rest => remembered_under repr key rest
  end.

(** How often a character occurs in a string *)
Fixpoint count_char (c : ascii) (s : string) : nat :=
  match s with
  | EmptyString => O
  | String d rest =>
      if (c =? d)%char then S (count_char c rest) else count_char c rest
  end.

(** The result of the decoder [g] of the type [t], called as
    [g(_type, lexicon_records)]: [IndexError] on an empty group; on a
    group that starts with [r], the single value of [r] for ALIAS and
    CNAME, and for the other types one value per record, or [ValueError],
    which only CAA, MX and SRV can raise.  The ttl is that of [r]. *)
Definition decoder_outcome (t : string)
    (g : string -> list record_dict -> exn + data)
    (_type : string) (lexicon_records : list record_dict) : Prop :=
  match lexicon_records with
  | [] => g _type [] = inl IndexError
  | r :: rest =>
      if bool_decide (t ∈ ["ALIAS"; "CNAME"])
      then g _type (r :: rest) = inr (DataValue (lr_ttl r) _type (lr_content r))
      else (exists values,
               g _type (r :: rest) = inr (DataValues (lr_ttl r) _type values)
               /\ length values = length (r :: rest))
           \/ (t ∈ ["CAA"; "MX"; "SRV"]
               /\ g _type (r :: rest) = inl ValueError)
  end.

(** The contents that the values of a record are encoded to *)
Definition contents_of (payload : octodns.payload) : list string :=
  match payload with
  | octodns.Values values => values
  | octodns.Value value => [value]
  | octodns.CaaValues values => map caa_content values
  | octodns.MxValues values => map mx_content values
  | octodns.SrvValues values => map srv_content values
  end.
(** ** The calls a change amounts to *)

(** Two memories that answer alike *)
Definition answers_like (ids0 ids : RememberedIds.t) : Prop :=
  forall key content,
    id_of ids key content = id_of ids0 key content
    /\ ids_of ids key = ids_of ids0 key.

Section plan_notions.

Variable record_repr : octodns.record -> string.
Variable Provider : Type.
Variable provider_do :
  provider_call -> Z -> Provider -> (exn + bool) * Provider.

(** The calls the paired loop makes for one addition and one deletion when
    no call fails, read off the memory [ids] *)
Definition pair_calls (ids : RememberedIds.t)
    (existing : option octodns.record)
    (pair : LexiconRecord * LexiconRecord) : list provider_call :=
  let identifier :=
    fst (RememberedIds.get (repr record_repr) ids existing
           (content (snd pair))) in
  if truthy identifier
     && fst (RememberedIds.has_unique_ids (repr record_repr) ids existing)
  then [update_record identifier (func_args (fst pair))]
  else [create_record (func_args (fst pair));
        delete_record Omitted (func_args (snd pair))].

(** The calls of the three loops in turn when no call fails: the pairs of
    the first additions and deletions, then the additions left over, then
    the deletions left over. *)
Definition planned_calls (ids : RememberedIds.t)
    (existing : option octodns.record)
    (additions_iter deletions_iter : list LexiconRecord)
  : list provider_call :=
  let n := Nat.min (length additions_iter) (length deletions_iter) in
  flat_map (pair_calls ids existing)
    (zip (take n additions_iter) (take n deletions_iter))
  ++ map (fun new_record => create_record (func_args new_record))
       (drop n additions_iter)
  ++ map (bare_delete record_repr ids existing) (drop n deletions_iter).

(** A computation that, from a world whose memory answers like [ids0],
    makes the calls of [plan] in order as long as they return a true flag:
    it returns normally after the whole plan, with a result that satisfies
    [Q], or raises right after a call that did not return a true flag; the
    memory answers like [ids0] afterwards. *)
Definition runs_plan {A} (m : M Provider A) (ids0 : RememberedIds.t)
    (plan : list provider_call) (Q : A -> Prop) : Prop :=
  forall w,
    answers_like ids0 (remembered_ids w) ->
    exists calls,
      journal (snd (m w)) = journal w ++ calls
      /\ answers_like ids0 (remembered_ids (snd (m w)))
      /\ map fst calls `prefix_of` plan
      /\ match fst (m w) with
         | inr a => map fst calls = plan /\ Forall succeeded calls /\ Q a
         | inl e =>
             exists pre failed,
               calls = pre ++ [failed]
               /\ Forall succeeded pre /\ ~ succeeded failed
         end.

(** A computation after which the memory answers as before *)
Definition keeps_answers {A} (m : M Provider A) : Prop :=
  forall w, answers_like (remembered_ids w) (remembered_ids (snd (m w))).

End plan_notions.

Arguments runs_plan {Provider A} m ids0 plan Q.
Arguments keeps_answers {Provider A} m.

(** A call that writes a new value: [create_record] or [update_record] *)
Definition writes_value (c : provider_call) : bool :=
  match c with
  | create_record _ | update_record _ _ => true
  | _ => false
  end.

(** A call that takes an old value away: [delete_record], or
    [update_record], which replaces it *)
Definition removes_value (c : provider_call) : bool :=
  match c with
  | delete_record _ _ | update_record _ _ => true
  | _ => false
  end.
(** ** The record name in [populate] *)

(** [s[n:]] and [s[:n]] for a natural [n] *)
Fixpoint drop_chars (n : nat) (s : string) : string :=
  match n, s with
  | O, _ => s
  | S n', String _ rest => drop_chars n' rest
  | S _, EmptyString => EmptyString
  end.

Fixpoint take_chars (n : nat) (s : string) : string :=
  match n, s with
  | O, _ => EmptyString
  | S n', String c rest => String c (take_chars n' rest)
  | S _, EmptyString => EmptyString
  end.

(** [s.endswith(suffix)] *)
Definition endswith (s suffix : string) : bool :=
  (String.length suffix <=? String.length s)%nat
  && String.eqb (drop_chars (String.length s - String.length suffix) s) suffix.

(** [s.rstrip(c)] for a one-character [c]: all trailing [c] are removed. *)
Fixpoint rstrip (c : ascii) (s : string) : string :=
  match s with
  | EmptyString => EmptyString
  | String d rest =>
      match rstrip c rest with
      | EmptyString => if (d =? c)%char then EmptyString else String d EmptyString
      | kept => String d kept
      end
  end.

(** [s[:-n]] for a natural [n]: the string without its last [n]
    characters, the empty string when it has no more than [n]; and [s[:-0]]
    is [s[:0]], the empty string. *)
Definition slice_to_neg (s : string) (n : nat) : string :=
  match n with
  | O => EmptyString
  | S _ => take_chars (String.length s - n) s
  end.

(** The first step on the name of a group of listed records; the result is
    assigned to the variable of the loop over the names. *)
Definition strip_final_dot (zone_name record_by_name : string) : string :=
  if endswith record_by_name zone_name
  then rstrip "." record_by_name
  else record_by_name.

(** The name passed to [Record.new], from the name left by the first
    step. *)
Definition record_name_of (zone_name record_by_name : string) : string :=
  if endswith record_by_name (slice_to_neg zone_name 1)
  then slice_to_neg record_by_name (String.length zone_name)
  else record_by_name.

(** Both steps on a listed name *)
Definition stripped_name (zone_name record_by_name : string) : string :=
  record_name_of zone_name (strip_final_dot zone_name record_by_name).
(** ** [__init__]: the supported types *)

(** [self.SUPPORTS]: [supports] is [None] or a collection of strings and
    [upper] is [str.upper]; an empty collection is false like [None].
    Only membership in the set is used. *)
Definition SUPPORTS (upper : string -> string)
    (supports : option (list string)) : list string :=
  match supports with
  | None | Some [] => IMPLEMENTED
  | Some given =>
      List.filter (fun t => bool_decide (t ∈ map upper given)) IMPLEMENTED
  end.

(** ** [populate] *)

(** [d[k] = f(d[k])] on a [defaultdict]: a missing key is added after the
    keys there are, as the dict keeps the order of insertion. *)
Fixpoint update_item {V} (default : V) (f : V -> V) (k : string)
    (d : list (string * V)) : list (string * V) :=
  match d with
  | [] => [(k, f default)]
  | (k', v) :: rest =>
      if decide (k' = k) then (k', f v) :: rest
      else (k', v) :: update_item default f k rest
  end.

(** [loaded_types[lexicon_record["name"]][lexicon_record["type"]]
      .append(lexicon_record)] *)
Definition load (lexicon_record : record_dict)
    (loaded_types : list (string * list (string * list record_dict)))
  : list (string * list (string * list record_dict)) :=
  update_item []
    (update_item [] (fun l => l ++ [lexicon_record]) (lr_type lexicon_record))
    (lr_name lexicon_record) loaded_types.

(** The loop over the listed records *)
Fixpoint listing_loop (zone_name : string) (listed : list record_dict)
    (loaded_types : list (string * list (string * list record_dict)))
  : exn + list (string * list (string * list record_dict)) :=
  match listed with
  | [] => inr loaded_types
  | lexicon_record :: rest =>
      let! lexicon_record := harmonize zone_name lexicon_record in
      listing_loop zone_name rest (load lexicon_record loaded_types)
  end.

(** What [populate] can raise: an exception of the embedded code, the
    [KeyError] of [lexicon_record['id']], or whatever [Record.new] or
    [zone.add_record] raise. *)
Inductive populate_exn (E : Type) :=
| Raised (e : exn)
| KeyError (key : string)
| External (e : E).

Arguments Raised {E} e.
Arguments KeyError {E} key.
Arguments External {E} e.

(** The memory of the provider and the zone being populated *)
Record populate_state (Zone : Type) := mk_populate_state {
  p_ids : RememberedIds.t;
  p_zone : Zone
}.

Arguments mk_populate_state {Zone}.
Arguments p_ids {Zone}.
Arguments p_zone {Zone}.

Section populate.

(** The records and zones of octodns, with [repr(record)],
    [Record.new(zone, name, data, source=self)] and
    [zone.add_record(record, lenient=lenient)]. *)
Context {Rec Zone E : Type}.
Variable rec_repr : Rec -> string.
Variable Record_new : Zone -> string -> data -> E + Rec.
Variable add_record : Rec -> bool -> Zone -> E + Zone.

(** [for lexicon_record in lexicon_records: self.remembered_ids.remember(
      record, lexicon_record['content'], lexicon_record['id'])] *)
Fixpoint remember_loop (record : Rec) (lexicon_records : list record_dict)
    (ids : RememberedIds.t) : (populate_exn E + unit) * RememberedIds.t :=
  match lexicon_records with
  | [] => (inr tt, ids)
  | lexicon_record :: rest =>
      match lr_id lexicon_record with
      | None => (inl (KeyError "id"), ids)
      | Some _id =>
          remember_loop record rest
            (RememberedIds.remember rec_repr ids record
               (lr_content lexicon_record) _id)
      end
  end.

(** The body of the loop over the types of a name.  It returns the value
    of the variable [record_by_name], which it reassigns. *)
Definition add_group (zone_name : string) (lenient : bool)
    (supported : list string) (record_by_name record_type : string)
    (lexicon_records : list record_dict) (st : populate_state Zone)
  : (populate_exn E + string) * populate_state Zone :=
  if bool_decide (record_type ∈ supported) then
    match _data_func record_type with
    | inl e => (inl (Raised e), st)
    | inr _data_func =>
        match _data_func record_type lexicon_records with
        | inl e => (inl (Raised e), st)
        | inr data =>
            let record_by_name := strip_final_dot zone_name record_by_name in
            let record_name := record_name_of zone_name record_by_name in
            match Record_new (p_zone st) record_name data with
            | inl e => (inl (External e), st)
            | inr record =>
                match remember_loop record lexicon_records (p_ids st) with
                | (inl e, ids) =>
                    (inl e, {| p_ids := ids; p_zone := p_zone st |})
                | (inr _, ids) =>
                    match add_record record lenient (p_zone st) with
                    | inl e =>
                        (inl (External e),
                         {| p_ids := ids; p_zone := p_zone st |})
                    | inr zone =>
                        (inr record_by_name,
                         {| p_ids := ids; p_zone := zone |})
                    end
                end
            end
        end
    end
  else (inr record_by_name, st).

(** [for record_type, lexicon_records in data_by_id.items()] *)
Fixpoint types_loop (zone_name : string) (lenient : bool)
    (supported : list string) (record_by_name : string)
    (data_by_id : list (string * list record_dict))
    (st : populate_state Zone)
  : (populate_exn E + unit) * populate_state Zone :=
  match data_by_id with
  | [] => (inr tt, st)
  | (record_type, lexicon_records) :: rest =>
      match add_group zone_name lenient supported record_by_name record_type
              lexicon_records st with
      | (inl e, st') => (inl e, st')
      | (inr record_by_name, st') =>
          types_loop zone_name lenient supported record_by_name rest st'
      end
  end.

(** [for record_by_name, data_by_id in loaded_types.items()] *)
Fixpoint names_loop (zone_name : string) (lenient : bool)
    (supported : list string)
    (loaded_types : list (string * list (string * list record_dict)))
    (st : populate_state Zone)
  : (populate_exn E + unit) * populate_state Zone :=
  match loaded_types with
  | [] => (inr tt, st)
  | (record_by_name, data_by_id) :: rest =>
      match types_loop zone_name lenient supported record_by_name data_by_id
              st with
      | (inl e, st') => (inl e, st')
      | (inr _, st') => names_loop zone_name lenient supported rest st'
      end
  end.

(** [populate] from the list that [list_records] returned, [supported]
    being [self.SUPPORTS]: the two loops and the returned [exists].  The
    client, its [authenticate] and the log lines are left out. *)
Definition populate_listed (zone_name : string) (lenient : bool)
    (supported : list string) (listed : list record_dict)
    (st : populate_state Zone)
  : (populate_exn E + bool) * populate_state Zone :=
  match listing_loop zone_name listed [] with
  | inl e => (inl (Raised e), st)
  | inr loaded_types =>
      match names_loop zone_name lenient supported loaded_types st with
      | (inl e, st') => (inl e, st')
      | (inr _, st') =>
          (inr (match listed with [] => false | _ => true end), st')
      end
  end.

End populate.

(** The listed records of a name and a type *)
Definition group_of (record_by_name record_type : string)
    (lexicon_records : list record_dict) : list record_dict :=
  List.filter
    (fun r => bool_decide (lr_name r = record_by_name)
              && bool_decide (lr_type r = record_type))
    lexicon_records.

(** [d.get(k, default)] on a dict kept as the list of its items *)
Fixpoint item_of {V} (default : V) (k : string) (d : list (string * V)) : V :=
  match d with
  | [] => default
  | (k', v) :: rest => if decide (k' = k) then v else item_of default k rest
  end.

(** [loaded_types[record_by_name][record_type]] when both keys are there,
    the empty list otherwise *)
Definition loaded_under (record_by_name record_type : string)
    (loaded_types : list (string * list (string * list record_dict)))
  : list record_dict :=
  item_of [] record_type (item_of [] record_by_name loaded_types).

(** The dict of dicts has no key twice and holds no empty list *)
Definition well_loaded
    (loaded_types : list (string * list (string * list record_dict))) : Prop :=
  NoDup (map fst loaded_types)
  /\ Forall (fun entry =>
               NoDup (map fst (snd entry))
               /\ Forall (fun group => snd group <> []) (snd entry))
       loaded_types.

(** The memory after [populate] holds what it held before: under every key
    the identifiers of before come first, and a content that had an
    identifier still has one. *)
Definition memory_grows (ids ids' : RememberedIds.t) : Prop :=
  forall key,
    ids_of ids key `prefix_of` ids_of ids' key
    /\ forall content,
         is_Some (id_of ids key content) -> is_Some (id_of ids' key content).

(** Records, zones and their functions for the closed statements: a
    record is its name and data, a zone the list of its records. *)
Definition sample_rec_repr (record : string * data) : string := fst record.

Definition sample_Record_new (zone : list (string * data)) (record_name : string)
    (d : data) : string + (string * data) :=
  inr (record_name, d).

Definition sample_add_record (record : string * data) (lenient : bool)
    (zone : list (string * data)) : string + list (string * data) :=
  inr (zone ++ [record]).

(** A zone that refuses a record whose name it already holds, as
    [zone.add_record] does with a duplicate *)
Definition strict_add_record (record : string * data) (lenient : bool)
    (zone : list (string * data)) : string + list (string * data) :=
  if bool_decide (fst record ∈ map fst zone)
  then inl "DuplicateRecordException"
  else inr (zone ++ [record]).

Definition listed_record (record_type content _id : string) : record_dict :=
  {| lr_content := content; lr_type := record_type;
     lr_name := "www.example.com"; lr_ttl := 300; lr_id := Some _id |}.

(** * Properties *)

(** ** The tokenizer *)

Lemma append_nil_l (s : string) : EmptyString +:+ s = s.
Proof. reflexivity. Qed.

Lemma append_cons (c : ascii) (s t : string) :
  String c s +:+ t = String c (s +:+ t).
Proof. reflexivity. Qed.

Lemma append_nil_r (s : string) : s +:+ EmptyString = s.
Proof.
  induction s as [|c s IH]; [reflexivity|].
  now rewrite append_cons, IH.
Qed.

Lemma append_assoc (a b c : string) : (a +:+ b) +:+ c = a +:+ (b +:+ c).
Proof.
  induction a as [|x a IH]; [reflexivity|].
  now rewrite !append_cons, IH.
Qed.

Lemma snoc_append (t : string) (c : ascii) (s : string) :
  snoc t c +:+ s = t +:+ String c s.
Proof. unfold snoc. now rewrite append_assoc. Qed.

Lemma emit_error_is k t e : emit t k = inl e -> k = inl e.
Proof. destruct k; simpl; congruence. Qed.

(** The tokenizer raises nothing but [ValueError]. *)
Lemma read_tokens_raises s :
  forall state escapedstate quoted token e,
    read_tokens state escapedstate quoted token s = inl e -> e = ValueError.
Proof.
  induction s as [|c s IH]; intros state escapedstate quoted token e; simpl.
  - destruct state; congruence.
  - destruct state.
    + destruct (in_whitespace c).
      * destruct (negb (is_empty token) || quoted); [|apply IH].
        intros H. apply emit_error_is in H. eapply IH, H.
      * destruct (in_escape c); [apply IH|].
        destruct (in_quotes c); apply IH.
    + destruct (in_whitespace c).
      * destruct (negb (is_empty token) || quoted); [|apply IH].
        intros H. apply emit_error_is in H. eapply IH, H.
      * destruct (in_quotes c); [apply IH|].
        destruct (in_escape c); apply IH.
    + destruct (c =? q)%char; [apply IH|].
      destruct (in_escape c && in_escapedquotes q); apply IH.
    + apply IH.
Qed.

Lemma shlex_split_raises s e : shlex_split s = inl e -> e = ValueError.
Proof. apply read_tokens_raises. Qed.

(** In a word, plain characters pile up on the token. *)
Lemma read_tokens_word_run w :
  forall escapedstate quoted token rest,
    all_chars plain_char w = true ->
    read_tokens StWord escapedstate quoted token (w +:+ rest)
    = read_tokens StWord escapedstate quoted (token +:+ w) rest.
Proof.
  induction w as [|c w IH]; intros escapedstate quoted token rest Hw.
  - now rewrite append_nil_r.
  - rewrite append_cons. simpl. simpl in Hw. apply andb_prop in Hw as [Hc Hw].
    unfold plain_char in Hc.
    apply andb_prop in Hc as [Hc He]. apply andb_prop in Hc as [Hs Hq].
    apply negb_true_iff in Hs, Hq, He. rewrite Hs, Hq, He.
    rewrite IH by assumption. now rewrite snoc_append.
Qed.

(** A plain word in front of the input, read from the start state, becomes
    the token under construction. *)
Lemma read_tokens_word_start w escapedstate quoted token rest :
  plain_word w = true ->
  read_tokens StWhite escapedstate quoted token (w +:+ rest)
  = read_tokens StWord escapedstate quoted w rest.
Proof.
  unfold plain_word. destruct w as [|c w]; [discriminate|].
  intros Hw. rewrite append_cons. simpl. simpl in Hw.
  apply andb_prop in Hw as [Hc Hw].
  unfold plain_char in Hc.
  apply andb_prop in Hc as [Hc He]. apply andb_prop in Hc as [Hs Hq].
  apply negb_true_iff in Hs, Hq, He. rewrite Hs, Hq, He.
  now rewrite read_tokens_word_run.
Qed.

(** A plain word followed by a blank is handed out as one token. *)
Lemma read_tokens_word_blank w rest :
  plain_word w = true ->
  read_tokens StWhite StWhite false EmptyString (w +:+ String " " rest)
  = emit w (read_tokens StWhite StWhite false EmptyString rest).
Proof.
  intros Hw. rewrite read_tokens_word_start by assumption. simpl.
  unfold plain_word in Hw. apply andb_prop in Hw as [Hne _].
  now rewrite Hne.
Qed.

(** A plain word that ends the input is the last token. *)
Lemma read_tokens_word_end w :
  plain_word w = true ->
  read_tokens StWhite StWhite false EmptyString w = inr [w].
Proof.
  intros Hw. rewrite <- (append_nil_r w) at 1.
  rewrite read_tokens_word_start by assumption. simpl.
  unfold plain_word in Hw. apply andb_prop in Hw as [Hne _].
  apply negb_true_iff in Hne. now rewrite Hne.
Qed.

(** Between double quotes everything but the double quote and the
    backslash is taken as it is. *)
Lemma read_tokens_quoted_run v :
  forall escapedstate quoted token rest,
    all_chars quotable_char v = true ->
    read_tokens (StQuote dquote) escapedstate quoted token
                (v +:+ String dquote rest)
    = read_tokens StWord escapedstate true (token +:+ v) rest.
Proof.
  induction v as [|c v IH]; intros escapedstate quoted token rest Hv.
  - rewrite append_nil_r, append_nil_l. reflexivity.
  - rewrite append_cons. simpl. simpl in Hv. apply andb_prop in Hv as [Hc Hv].
    unfold quotable_char in Hc. apply andb_prop in Hc as [Hq He].
    apply negb_true_iff in Hq, He.
    rewrite Hq. unfold in_escape. rewrite He. simpl.
    rewrite IH by assumption. now rewrite snoc_append.
Qed.

(** The decimal rendering of an integer is a plain word. *)
Lemma string_of_uint_plain d :
  all_chars plain_char (NilEmpty.string_of_uint d) = true.
Proof. induction d; simpl; auto. Qed.

Lemma str_of_int_plain n : plain_word (str_of_int n) = true.
Proof.
  unfold str_of_int, NilZero.string_of_int, NilZero.string_of_uint.
  destruct (Z.to_int n) as [d|d]; destruct d;
    try reflexivity; unfold plain_word; simpl;
    now rewrite string_of_uint_plain.
Qed.

(** ** Decoding and the field count *)

Section field_count.

Variable f : record_dict -> exn + data_value.
Variable n : nat.

Hypothesis f_fits :
  forall r, tokenizes_into n (lr_content r) = true -> exists v, f r = inr v.
Hypothesis f_misfits :
  forall r, tokenizes_into n (lr_content r) = false -> f r = inl ValueError.

Lemma for_append_field_count (l : list record_dict) :
  if forallb (fun r => tokenizes_into n (lr_content r)) l
  then exists vs, for_append f l = inr vs /\ length vs = length l
  else for_append f l = inl ValueError.
Proof.
  induction l as [|r l IH]; simpl.
  - exists []. split; reflexivity.
  - destruct (tokenizes_into n (lr_content r)) eqn:Hr; simpl.
    + destruct (f_fits r Hr) as [v Hv]. rewrite Hv. simpl.
      destruct (forallb _ l).
      * destruct IH as (vs & Hvs & Hlen). rewrite Hvs. simpl.
        exists (v :: vs). split; [reflexivity | simpl; now rewrite Hlen].
      * now rewrite IH.
    + now rewrite (f_misfits r Hr).
Qed.

End field_count.

Lemma caa_of_content_fits r :
  tokenizes_into 3 (lr_content r) = true -> exists v, caa_of_content r = inr v.
Proof.
  unfold tokenizes_into, caa_of_content.
  destruct (shlex_split (lr_content r)) as [e|tokens]; [discriminate|].
  destruct tokens as [|a [|b [|c [|d tokens]]]]; try discriminate.
  intros _. simpl. eauto.
Qed.

Lemma caa_of_content_misfits r :
  tokenizes_into 3 (lr_content r) = false -> caa_of_content r = inl ValueError.
Proof.
  unfold tokenizes_into, caa_of_content.
  destruct (shlex_split (lr_content r)) as [e|tokens] eqn:Hs.
  - intros _. simpl. now rewrite (shlex_split_raises _ _ Hs).
  - destruct tokens as [|a [|b [|c [|d tokens]]]]; try discriminate;
      reflexivity.
Qed.

Lemma mx_of_content_fits r :
  tokenizes_into 2 (lr_content r) = true -> exists v, mx_of_content r = inr v.
Proof.
  unfold tokenizes_into, mx_of_content.
  destruct (shlex_split (lr_content r)) as [e|tokens]; [discriminate|].
  destruct tokens as [|a [|b [|c tokens]]]; try discriminate.
  intros _. simpl. eauto.
Qed.

Lemma mx_of_content_misfits r :
  tokenizes_into 2 (lr_content r) = false -> mx_of_content r = inl ValueError.
Proof.
  unfold tokenizes_into, mx_of_content.
  destruct (shlex_split (lr_content r)) as [e|tokens] eqn:Hs.
  - intros _. simpl. now rewrite (shlex_split_raises _ _ Hs).
  - destruct tokens as [|a [|b [|c tokens]]]; try discriminate; reflexivity.
Qed.

Lemma srv_of_content_fits r :
  tokenizes_into 4 (lr_content r) = true -> exists v, srv_of_content r = inr v.
Proof.
  unfold tokenizes_into, srv_of_content.
  destruct (shlex_split (lr_content r)) as [e|tokens]; [discriminate|].
  destruct tokens as [|a [|b [|c [|d [|x tokens]]]]]; try discriminate.
  intros _. simpl. eauto.
Qed.

Lemma srv_of_content_misfits r :
  tokenizes_into 4 (lr_content r) = false -> srv_of_content r = inl ValueError.
Proof.
  unfold tokenizes_into, srv_of_content.
  destruct (shlex_split (lr_content r)) as [e|tokens] eqn:Hs.
  - intros _. simpl. now rewrite (shlex_split_raises _ _ Hs).
  - destruct tokens as [|a [|b [|c [|d [|x tokens]]]]]; try discriminate;
      reflexivity.
Qed.

(** C1.  Decoding a non-empty group of CAA, MX or SRV records raises
    [ValueError] (the error the spec calls MalformedValueError: a failed
    unpacking of the token list, or a failed tokenization) as soon as the
    content of one record does not split into exactly 3, 2 or 4 tokens;
    when every content splits into the expected count it raises nothing
    and returns the dict with one value per record. *)
Theorem decode_fails_iff_field_count_differs
    (_type : string) (record : record_dict) (rest : list record_dict) :
  decodes_by_field_count _data_for_CAA 3 _type record rest
  /\ decodes_by_field_count _data_for_MX 2 _type record rest
  /\ decodes_by_field_count _data_for_SRV 4 _type record rest.
Proof.
  unfold decodes_by_field_count, _data_for_CAA, _data_for_MX, _data_for_SRV.
  pose proof (for_append_field_count caa_of_content 3
                caa_of_content_fits caa_of_content_misfits (record :: rest))
    as Hcaa.
  pose proof (for_append_field_count mx_of_content 2
                mx_of_content_fits mx_of_content_misfits (record :: rest))
    as Hmx.
  pose proof (for_append_field_count srv_of_content 4
                srv_of_content_fits srv_of_content_misfits (record :: rest))
    as Hsrv.
  repeat split.
  - clear -Hcaa. revert Hcaa.
    destruct (forallb (fun r => tokenizes_into 3 (lr_content r)) (record :: rest)).
    + intros (vs & -> & Hlen). simpl. eauto.
    + now intros ->.
  - clear -Hmx. revert Hmx.
    destruct (forallb (fun r => tokenizes_into 2 (lr_content r)) (record :: rest)).
    + intros (vs & -> & Hlen). simpl. eauto.
    + now intros ->.
  - clear -Hsrv. revert Hsrv.
    destruct (forallb (fun r => tokenizes_into 4 (lr_content r)) (record :: rest)).
    + intros (vs & -> & Hlen). simpl. eauto.
    + now intros ->.
Qed.

(** The CAA example of the spec, and a content of two tokens. *)
Example caa_decode_example :
  _data_for_CAA "CAA"
    [ {| lr_content := "2 issue " +:+ String dquote ("letsencrypt.org"
                         +:+ String dquote EmptyString);
         lr_type := "CAA"; lr_name := "example.com"; lr_ttl := 300;
         lr_id := Some "7" |} ]
  = inr (DataValues 300 "CAA" [CaaDict "2" "issue" "letsencrypt.org"])
  /\ _data_for_CAA "CAA"
       [ {| lr_content := "2 issue"; lr_type := "CAA";
            lr_name := "example.com"; lr_ttl := 300; lr_id := Some "7" |} ]
     = inl ValueError.
Proof. split; reflexivity. Qed.

(** ** Harmonisation *)

Lemma last_char_snoc (prefix : string) (c : ascii) :
  last_char (prefix +:+ String c EmptyString) = inr c.
Proof.
  induction prefix as [|x prefix IH]; [reflexivity|].
  rewrite append_cons. simpl. rewrite IH.
  destruct prefix; reflexivity.
Qed.

(** C6.  For a CNAME, MX or NS record listed by the provider: a content
    that ends in a dot is left as it is; otherwise, with the last token of
    the content as the domain part, a dot is appended to the content when
    the domain part contains a dot, and a dot followed by the zone name
    (itself dot-terminated) when it contains none. *)
Theorem harmonize_name_bearing (zone_name : string) (r : record_dict) :
  lr_type r ∈ ["CNAME"; "MX"; "NS"] ->
  (forall prefix,
      lr_content r = prefix +:+ "." -> harmonize zone_name r = inr r)
  /\ (forall prefix final tokens domain_part,
         lr_content r = prefix +:+ String final EmptyString ->
         final <> "."%char ->
         shlex_split (lr_content r) = inr tokens ->
         last tokens = Some domain_part ->
         harmonize zone_name r
         = inr (with_content r
                  (if char_in "." domain_part
                   then lr_content r +:+ "."
                   else lr_content r +:+ "." +:+ zone_name))).
Proof.
  intros Htype. unfold harmonize.
  rewrite (bool_decide_eq_true_2 _ Htype). split.
  - intros prefix Hc. rewrite Hc, last_char_snoc. reflexivity.
  - intros prefix final tokens domain_part Hc Hfinal Hsplit Hlast.
    rewrite Hsplit. rewrite Hc at 1. rewrite last_char_snoc. simpl.
    apply Ascii.eqb_neq in Hfinal. rewrite Hfinal. simpl.
    unfold last_item. rewrite Hlast. simpl.
    destruct (char_in "." domain_part); reflexivity.
Qed.

(** The three examples of the spec, obtained from the theorem: a bare label,
    a name with an inner dot, a name that ends in a dot. *)
Lemma harmonize_name_bearing_examples :
  let cname c :=
    {| lr_content := c; lr_type := "CNAME"; lr_name := "www";
       lr_ttl := 300; lr_id := Some "12" |} in
  harmonize "example.com." (cname "foo") = inr (cname "foo.example.com.")
  /\ harmonize "example.com." (cname "foo.bar.com")
     = inr (cname "foo.bar.com.")
  /\ harmonize "example.com." (cname "foo.bar.com.")
     = inr (cname "foo.bar.com.").
Proof.
  intros cname.
  assert (Htype : forall c, lr_type (cname c) ∈ ["CNAME"; "MX"; "NS"])
    by (intros c; apply list_elem_of_here).
  split; [|split].
  - exact (proj2 (harmonize_name_bearing "example.com." (cname "foo")
                    (Htype "foo"))
             "fo" "o"%char ["foo"] "foo"
             eq_refl ltac:(discriminate) eq_refl eq_refl).
  - exact (proj2 (harmonize_name_bearing "example.com." (cname "foo.bar.com")
                    (Htype "foo.bar.com"))
             "foo.bar.co" "m"%char ["foo.bar.com"] "foo.bar.com"
             eq_refl ltac:(discriminate) eq_refl eq_refl).
  - exact (proj1 (harmonize_name_bearing "example.com." (cname "foo.bar.com.")
                    (Htype "foo.bar.com."))
             "foo.bar.com" eq_refl).
Defined.

(** ** Identifier memory *)

Module ids_facts.
Import RememberedIds.

Lemma getitem_fst {V} (d0 : V) (d : gmap string V) (k : string) :
  fst (getitem d0 d k) = default d0 (d !! k).
Proof. unfold getitem. destruct (d !! k); reflexivity. Qed.

(** Binding a missing key to the default changes no answer. *)
Lemma getitem_snd {V} (d0 : V) (d : gmap string V) (k k' : string) :
  default d0 (snd (getitem d0 d k) !! k') = default d0 (d !! k').
Proof.
  unfold getitem. destruct (d !! k) eqn:Hk; simpl; [reflexivity|].
  destruct (decide (k = k')) as [<-|Hne].
  - now rewrite lookup_insert_eq, Hk.
  - now rewrite lookup_insert_ne.
Qed.

Lemma getitem_insert {V} (d0 v : V) (d : gmap string V) (k k' : string) :
  default d0 (<[k := v]> (snd (getitem d0 d k)) !! k')
  = if decide (k = k') then v else default d0 (d !! k').
Proof.
  destruct (decide (k = k')) as [<-|Hne].
  - now rewrite lookup_insert_eq.
  - rewrite lookup_insert_ne by assumption. apply getitem_snd.
Qed.

Section facts.
Context {R : Type} (repr : R -> string).

Lemma get_fst s record content :
  fst (get repr s record content) = id_of s (repr record) content.
Proof.
  unfold get, id_of.
  pose proof (getitem_fst ∅ (_id_by_record_and_value s) (repr record)) as H.
  destruct (getitem ∅ _ _) as [by_value d]. simpl in *. now rewrite H.
Qed.

Lemma get_all_ids_fst s record :
  fst (get_all_ids repr s record) = ids_of s (repr record).
Proof.
  unfold get_all_ids, ids_of.
  pose proof (getitem_fst [] (_all_ids_for_record s) (repr record)) as H.
  destruct (getitem [] _ _) as [ids d]. simpl in *. now rewrite H.
Qed.

Lemma has_unique_ids_fst s record :
  fst (has_unique_ids repr s record)
  = Nat.eqb (length (ids_of s (repr record)))
            (length (remove_dups (ids_of s (repr record)))).
Proof.
  unfold has_unique_ids, ids_of.
  pose proof (getitem_fst [] (_all_ids_for_record s) (repr record)) as H1.
  pose proof (getitem_snd [] (_all_ids_for_record s) (repr record)
                (repr record)) as H2.
  destruct (getitem [] (_all_ids_for_record s) _) as [ids1 d]. simpl in *.
  pose proof (getitem_fst [] d (repr record)) as H3.
  destruct (getitem [] d _) as [ids2 d']. simpl in *.
  now rewrite H1, H3, H2.
Qed.

(** The reading methods leave every answer as it was. *)
Lemma get_snd_ids_of s record content key :
  ids_of (snd (get repr s record content)) key = ids_of s key.
Proof.
  unfold get. destruct (getitem ∅ _ _). reflexivity.
Qed.

Lemma get_snd_id_of s record content key content' :
  id_of (snd (get repr s record content)) key content'
  = id_of s key content'.
Proof.
  unfold get, id_of.
  pose proof (getitem_snd ∅ (_id_by_record_and_value s) (repr record) key)
    as H.
  destruct (getitem ∅ _ _) as [by_value d]. simpl in *. now rewrite H.
Qed.

Lemma has_unique_ids_snd_ids_of s record key :
  ids_of (snd (has_unique_ids repr s record)) key = ids_of s key.
Proof.
  unfold has_unique_ids, ids_of.
  pose proof (getitem_snd [] (_all_ids_for_record s) (repr record) key)
    as H1.
  destruct (getitem [] (_all_ids_for_record s) _) as [ids1 d]. simpl in *.
  pose proof (getitem_snd [] d (repr record) key) as H2.
  destruct (getitem [] d _) as [ids2 d']. simpl in *.
  now rewrite H2, H1.
Qed.

Lemma has_unique_ids_snd_id_of s record key content :
  id_of (snd (has_unique_ids repr s record)) key content
  = id_of s key content.
Proof.
  unfold has_unique_ids.
  destruct (getitem [] (_all_ids_for_record s) _) as [ids1 d].
  destruct (getitem [] d _) as [ids2 d']. reflexivity.
Qed.

Lemma get_all_ids_snd_ids_of s record key :
  ids_of (snd (get_all_ids repr s record)) key = ids_of s key.
Proof.
  unfold get_all_ids, ids_of.
  pose proof (getitem_snd [] (_all_ids_for_record s) (repr record) key)
    as H.
  destruct (getitem [] _ _) as [ids d]. simpl in *. now rewrite H.
Qed.

Lemma get_all_ids_snd_id_of s record key content :
  id_of (snd (get_all_ids repr s record)) key content
  = id_of s key content.
Proof.
  unfold get_all_ids. destruct (getitem [] _ _). reflexivity.
Qed.

(** [remember] appends to the list of the key and rebinds the content. *)
Lemma remember_ids_of s record content _id key :
  ids_of (remember repr s record content _id) key
  = if decide (repr record = key)
    then (ids_of s key ++ [_id])%list else ids_of s key.
Proof.
  unfold remember, ids_of.
  destruct (getitem ∅ _ _) as [by_value d1].
  pose proof (getitem_fst [] (_all_ids_for_record s) (repr record)) as H1.
  pose proof (getitem_insert [] (fst (getitem [] (_all_ids_for_record s)
                                              (repr record)) ++ [_id])%list
                (_all_ids_for_record s) (repr record) key) as H2.
  destruct (getitem [] _ _) as [all_ids d2]. simpl in *.
  rewrite H2. destruct (decide (repr record = key)) as [<-|]; [|reflexivity].
  now rewrite H1.
Qed.

Lemma remember_id_of s record content _id key content' :
  id_of (remember repr s record content _id) key content'
  = if decide (repr record = key /\ content = content')
    then Some _id else id_of s key content'.
Proof.
  unfold remember, id_of.
  pose proof (getitem_fst ∅ (_id_by_record_and_value s) (repr record))
    as H1.
  pose proof (fun v => getitem_insert ∅ v (_id_by_record_and_value s)
                         (repr record) key) as H2.
  destruct (getitem ∅ _ _) as [by_value d1]. simpl in *.
  destruct (getitem [] _ _) as [all_ids d2]. simpl.
  rewrite H2, H1.
  destruct (decide (repr record = key)) as [<-|Hk].
  - destruct (decide (content = content')) as [<-|Hc].
    + rewrite lookup_insert_eq.
      now rewrite decide_True by (split; reflexivity).
    + rewrite lookup_insert_ne by assumption.
      now rewrite decide_False by (intros [_ ?]; contradiction).
  - now rewrite decide_False by (intros [? _]; contradiction).
Qed.

End facts.

Lemma remove_dups_length_le (l : list string) :
  (length (remove_dups l) <= length l)%nat.
Proof.
  induction l as [|x l IH]; simpl; [lia|].
  destruct (decide_rel elem_of x l); simpl; lia.
Qed.

Lemma remove_dups_length_NoDup (l : list string) :
  length (remove_dups l) = length l -> NoDup l.
Proof.
  induction l as [|x l IH]; simpl; [constructor|].
  pose proof (remove_dups_length_le l).
  destruct (decide_rel elem_of x l); simpl; intros Hlen; [lia|].
  constructor; [assumption | apply IH; lia].
Qed.

(** A list that ends with the same identifier twice has a duplicate. *)
Lemma twice_not_unique (l : list string) (x : string) :
  Nat.eqb (length ((l ++ [x]) ++ [x])%list)
          (length (remove_dups ((l ++ [x]) ++ [x])%list)) = false.
Proof.
  apply Nat.eqb_neq. intros Hlen. symmetry in Hlen.
  apply remove_dups_length_NoDup in Hlen.
  rewrite <- app_assoc in Hlen. apply NoDup_app in Hlen as (_ & _ & Hxx).
  simpl in Hxx. apply NoDup_cons in Hxx as [Hx _].
  apply Hx, list_elem_of_here.
Qed.

End ids_facts.

(** ** [remember] twice *)

(** C2, as stated, fails: from the empty memory, remembering one triple
    twice is told apart from remembering it once by [get_all_ids] and by
    [has_unique_ids]. *)
Lemma remember_twice_is_observed :
  let repr := fun key : string => key in
  let once := RememberedIds.remember repr RememberedIds.init
                "www.example.com." "1.2.3.4" "42" in
  let twice := RememberedIds.remember repr once
                 "www.example.com." "1.2.3.4" "42" in
  fst (RememberedIds.get_all_ids repr once "www.example.com.") = ["42"]
  /\ fst (RememberedIds.get_all_ids repr twice "www.example.com.")
     = ["42"; "42"]
  /\ fst (RememberedIds.has_unique_ids repr once "www.example.com.") = true
  /\ fst (RememberedIds.has_unique_ids repr twice "www.example.com.") = false
  /\ ~ same_observations repr twice once.
Proof.
  intros repr once twice.
  assert (H1 : fst (RememberedIds.get_all_ids repr once "www.example.com.")
               = ["42"]) by (vm_compute; reflexivity).
  assert (H2 : fst (RememberedIds.get_all_ids repr twice "www.example.com.")
               = ["42"; "42"]) by (vm_compute; reflexivity).
  split; [exact H1|]. split; [exact H2|].
  split; [vm_compute; reflexivity|]. split; [vm_compute; reflexivity|].
  intros H. destruct (H "www.example.com." "1.2.3.4") as (_ & H3 & _).
  rewrite H1, H2 in H3. discriminate.
Qed.

(** C2, amended.  A second [remember] of the same triple changes no answer
    of [get]; it appends the identifier once more to the list of the key,
    so that [get_all_ids] of that key grows by one entry and
    [has_unique_ids] of that key is false; the other keys answer as
    before. *)
Theorem remember_twice {R : Type} (repr : R -> string)
    (s : RememberedIds.t) (record : R) (content _id : string) :
  let once := RememberedIds.remember repr s record content _id in
  let twice := RememberedIds.remember repr once record content _id in
  (forall record' content',
      fst (RememberedIds.get repr twice record' content')
      = fst (RememberedIds.get repr once record' content'))
  /\ (forall record',
         fst (RememberedIds.get_all_ids repr twice record')
         = if decide (repr record = repr record')
           then (fst (RememberedIds.get_all_ids repr once record') ++ [_id])%list
           else fst (RememberedIds.get_all_ids repr once record'))
  /\ (forall record',
         fst (RememberedIds.has_unique_ids repr twice record')
         = if decide (repr record = repr record')
           then false
           else fst (RememberedIds.has_unique_ids repr once record')).
Proof.
  intros once twice. subst once twice. repeat split.
  - intros record' content'.
    rewrite !ids_facts.get_fst, !ids_facts.remember_id_of.
    destruct (decide (repr record = repr record' /\ content = content'));
      reflexivity.
  - intros record'.
    rewrite !ids_facts.get_all_ids_fst, !ids_facts.remember_ids_of.
    destruct (decide (repr record = repr record')); reflexivity.
  - intros record'.
    rewrite !ids_facts.has_unique_ids_fst, !ids_facts.remember_ids_of.
    destruct (decide (repr record = repr record')); [|reflexivity].
    apply ids_facts.twice_not_unique.
Qed.

(** ** Keys never remembered *)

Lemma run_calls_untouched {R : Type} (repr : R -> string)
    (calls : list (memory_call R)) (key : string) :
  Forall (fun c => ~ remembers_under repr key c) calls ->
  ids_of (run_calls repr calls) key = []
  /\ forall content, id_of (run_calls repr calls) key content = None.
Proof.
  unfold run_calls. induction calls as [|c calls IH] using rev_ind.
  - intros _. split; [reflexivity|]. intros content.
    unfold id_of. simpl. now rewrite lookup_empty.
  - intros Hall. apply Forall_app in Hall as [Hcalls Hc].
    rewrite Forall_singleton in Hc.
    destruct (IH Hcalls) as [IHids IHid]. rewrite foldl_app. simpl.
    destruct c as [record content _id|record content|record|record]; simpl.
    + simpl in Hc. split; [|intros content'].
      * rewrite ids_facts.remember_ids_of.
        now rewrite decide_False by assumption.
      * rewrite ids_facts.remember_id_of.
        rewrite decide_False by (intros [? _]; contradiction). apply IHid.
    + split; [|intros content'].
      * now rewrite ids_facts.get_snd_ids_of.
      * now rewrite ids_facts.get_snd_id_of.
    + split; [|intros content'].
      * now rewrite ids_facts.has_unique_ids_snd_ids_of.
      * now rewrite ids_facts.has_unique_ids_snd_id_of.
    + split; [|intros content'].
      * now rewrite ids_facts.get_all_ids_snd_ids_of.
      * now rewrite ids_facts.get_all_ids_snd_id_of.
Qed.

(** C10.  After any sequence of calls on a fresh memory none of which
    remembers an identifier under the key of [record], [has_unique_ids]
    answers true for [record]: the list of its identifiers is empty.  The
    condition of the update branch, [identifier and has_unique_ids(...)],
    is then the truth value of the identifier alone (which [get] in fact
    reports as absent for such a key). *)
Theorem has_unique_ids_of_unknown_key {R : Type} (repr : R -> string)
    (calls : list (memory_call R)) (record : R) :
  Forall (fun c => ~ remembers_under repr (repr record) c) calls ->
  let s := run_calls repr calls in
  fst (RememberedIds.has_unique_ids repr s record) = true
  /\ fst (RememberedIds.get_all_ids repr s record) = []
  /\ (forall identifier,
         truthy identifier && fst (RememberedIds.has_unique_ids repr s record)
         = truthy identifier)
  /\ (forall content, fst (RememberedIds.get repr s record content) = None).
Proof.
  intros Hcalls s. subst s.
  destruct (run_calls_untouched repr calls (repr record) Hcalls) as [Hids Hid].
  assert (Hu : fst (RememberedIds.has_unique_ids repr (run_calls repr calls)
                      record) = true).
  { rewrite ids_facts.has_unique_ids_fst, Hids. reflexivity. }
  repeat split.
  - exact Hu.
  - now rewrite ids_facts.get_all_ids_fst.
  - intros identifier. rewrite Hu. apply andb_true_r.
  - intros content. rewrite ids_facts.get_fst. apply Hid.
Qed.

(** A memory that was populated for one record and consulted for
    another. *)
Lemma has_unique_ids_of_unknown_key_witness :
  let repr := fun key : string => key in
  let s := run_calls repr
             [Remember "a.example.com." "1.2.3.4" "7";
              Remember "a.example.com." "1.2.3.5" "7";
              Get "b.example.com." "1.2.3.4"] in
  fst (RememberedIds.has_unique_ids repr s "b.example.com.") = true
  /\ fst (RememberedIds.get_all_ids repr s "b.example.com.") = []
  /\ (forall identifier,
         truthy identifier
         && fst (RememberedIds.has_unique_ids repr s "b.example.com.")
         = truthy identifier)
  /\ (forall content,
         fst (RememberedIds.get repr s "b.example.com." content) = None).
Proof.
  intros repr.
  apply (has_unique_ids_of_unknown_key repr
           [Remember "a.example.com." "1.2.3.4" "7";
            Remember "a.example.com." "1.2.3.5" "7";
            Get "b.example.com." "1.2.3.4"] "b.example.com.").
  repeat constructor; simpl; try discriminate; auto.
Defined.

(** ** Failing provider calls *)

Lemma run_shape_prepend {A} pre calls (r : exn + A) :
  Forall succeeded pre -> run_shape calls r -> run_shape (pre ++ calls) r.
Proof.
  intros Hpre Hrun. destruct Hrun as [calls r H|calls c e H Hc|calls c e H].
  - apply run_clean. now apply Forall_app.
  - rewrite app_assoc. apply run_refused; [now apply Forall_app | assumption].
  - rewrite app_assoc. apply run_raised. now apply Forall_app.
Qed.

Lemma run_shape_inl {A B} calls e :
  run_shape calls (inl e : exn + A) -> run_shape calls (inl e : exn + B).
Proof.
  intros Hrun. inversion Hrun; subst.
  - now apply run_clean.
  - now apply run_refused.
  - now apply run_raised.
Qed.

Lemma run_shape_inr {A} calls (a : A) :
  run_shape calls (inr a) -> Forall succeeded calls.
Proof. intros Hrun. now inversion Hrun. Qed.

Lemma last_entry_unique {X} (pre pre' post : list X) (x y : X) :
  pre' ++ [x] = pre ++ y :: post ->
  (post = [] /\ pre = pre' /\ x = y) \/ y ∈ pre'.
Proof.
  destruct post as [|z post _] using rev_ind; intros Heq.
  - apply app_inj_tail in Heq as [-> ->]. now left.
  - right. rewrite app_comm_cons, app_assoc in Heq.
    apply app_inj_tail in Heq as [-> _].
    apply elem_of_app. right. apply list_elem_of_here.
Qed.

(** In a run of one of the three shapes, a call that returned a false flag
    is the last one, and its error is the result. *)
Lemma run_shape_false_flag {A} calls (r : exn + A) pre c post :
  run_shape calls r ->
  calls = pre ++ (c, inr false) :: post ->
  post = [] /\ Forall succeeded pre /\ exists e, r = inl e /\ raised_for c e.
Proof.
  intros Hrun Heq.
  destruct Hrun as [calls r H|calls c' e H Hc|calls c' e H]; subst.
  - apply Forall_app in H as [_ H]. apply Forall_cons in H as [H _].
    discriminate H.
  - apply last_entry_unique in Heq as [(-> & -> & Hx)|Hin].
    + inversion Hx; subst. eauto.
    + rewrite Forall_forall in H. specialize (H _ Hin). discriminate H.
  - apply last_entry_unique in Heq as [(-> & -> & Hx)|Hin].
    + discriminate Hx.
    + rewrite Forall_forall in H. specialize (H _ Hin). discriminate H.
Qed.

Section fail_stop.

Variable record_repr : octodns.record -> string.
Variable Provider : Type.
Variable provider_do :
  provider_call -> Z -> Provider -> (exn + bool) * Provider.

Lemma fail_stop_ret {A} (a : A) : fail_stop (ret a : M Provider A).
Proof.
  intros w. exists []. simpl. rewrite app_nil_r.
  split; [reflexivity | apply run_clean, Forall_nil_2].
Qed.

Lemma fail_stop_throw {A} (e : exn) : fail_stop (throw e : M Provider A).
Proof.
  intros w. exists []. simpl. rewrite app_nil_r.
  split; [reflexivity | apply run_clean, Forall_nil_2].
Qed.

Lemma fail_stop_lift {A} (r : exn + A) : fail_stop (lift r : M Provider A).
Proof.
  intros w. exists []. simpl. rewrite app_nil_r.
  split; [reflexivity | apply run_clean, Forall_nil_2].
Qed.

Lemma fail_stop_set_ttl (t : Z) : fail_stop (set_ttl t : M Provider unit).
Proof.
  intros w. exists []. simpl. rewrite app_nil_r.
  split; [reflexivity | apply run_clean, Forall_nil_2].
Qed.

Lemma fail_stop_with_ids {A} (f : RememberedIds.t -> A * RememberedIds.t) :
  fail_stop (with_ids f : M Provider A).
Proof.
  intros w. exists []. unfold with_ids.
  destruct (f (remembered_ids w)) as [a ids']. simpl. rewrite app_nil_r.
  split; [reflexivity | apply run_clean, Forall_nil_2].
Qed.

Lemma fail_stop_next {A} (it : list A) : fail_stop (next it : M Provider _).
Proof. destruct it; [apply fail_stop_throw | apply fail_stop_ret]. Qed.

Lemma fail_stop_and_then {A B} (m : M Provider A) (k : A -> M Provider B) :
  fail_stop m -> (forall a, fail_stop (k a)) -> fail_stop (and_then m k).
Proof.
  intros Hm Hk w. unfold and_then.
  destruct (Hm w) as (calls1 & Hj1 & Hrun1).
  destruct (m w) as [[e|a] w1]; simpl in *.
  - exists calls1. split; [assumption | now apply (@run_shape_inl A B)].
  - destruct (Hk a w1) as (calls2 & Hj2 & Hrun2).
    exists (calls1 ++ calls2). split.
    + now rewrite Hj2, Hj1, app_assoc.
    + apply run_shape_prepend; [now apply run_shape_inr in Hrun1 | assumption].
Qed.

(** A provider call whose false flag is answered by raising [e] *)
Lemma fail_stop_checked {A} (c : provider_call) (e : exn) (k : M Provider A) :
  raised_for c e -> fail_stop k ->
  fail_stop (and_then (call provider_do c)
               (fun ok => if negb ok then throw e else k)).
Proof.
  intros Hc Hk w. unfold and_then, call.
  destruct (provider_do c (config_ttl w) (provider w)) as [[e'|[|]] p'];
    simpl.
  - exists [(c, inl e')]. split; [reflexivity|].
    apply (run_raised []). apply Forall_nil_2.
  - destruct (Hk {| remembered_ids := remembered_ids w;
                    config_ttl := config_ttl w; provider := p';
                    journal := journal w ++ [(c, inr true)] |})
      as (calls & Hj & Hrun). simpl in Hj.
    exists ((c, inr true) :: calls). split.
    + rewrite Hj, <- app_assoc. reflexivity.
    + apply (run_shape_prepend [(c, inr true)]); [|assumption].
      now apply Forall_singleton.
  - exists [(c, inr false)]. split; [reflexivity|].
    apply (run_refused []); [apply Forall_nil_2 | assumption].
Qed.

Lemma raised_for_create record :
  raised_for (create_record (func_args record)) (RecordCreateError record None).
Proof. simpl. eauto. Qed.

Lemma raised_for_update identifier record :
  raised_for (update_record identifier (func_args record))
             (RecordUpdateError record identifier).
Proof. simpl. eauto. Qed.

Lemma raised_for_delete identifier record :
  raised_for (delete_record identifier (func_args record))
             (RecordDeleteError record None).
Proof. simpl. eauto. Qed.

Lemma fail_stop_paired_loop n existing :
  forall additions_iter deletions_iter,
    fail_stop (paired_loop record_repr Provider provider_do n existing
                 additions_iter deletions_iter).
Proof.
  induction n as [|n IH]; intros additions_iter deletions_iter; simpl.
  - apply fail_stop_ret.
  - apply fail_stop_and_then; [apply fail_stop_next|]. intros [new_record a'].
    apply fail_stop_and_then; [apply fail_stop_next|]. intros [old_record d'].
    apply fail_stop_and_then; [apply fail_stop_with_ids|]. intros identifier.
    apply fail_stop_and_then.
    { destruct (truthy identifier);
        [apply fail_stop_with_ids | apply fail_stop_ret]. }
    intros unique. apply fail_stop_and_then; [|intros _; apply IH].
    destruct (truthy identifier && unique).
    + apply fail_stop_checked;
        [apply raised_for_update | apply fail_stop_ret].
    + apply fail_stop_checked; [apply raised_for_create|].
      apply fail_stop_checked;
        [apply raised_for_delete | apply fail_stop_ret].
Qed.

Lemma fail_stop_create_loop additions_iter :
  fail_stop (create_loop Provider provider_do additions_iter).
Proof.
  induction additions_iter as [|new_record rest IH]; simpl.
  - apply fail_stop_ret.
  - apply fail_stop_checked; [apply raised_for_create | apply IH].
Qed.

Lemma fail_stop_delete_loop existing deletions_iter :
  fail_stop (delete_loop record_repr Provider provider_do existing
               deletions_iter).
Proof.
  induction deletions_iter as [|old_record rest IH]; simpl.
  - apply fail_stop_ret.
  - apply fail_stop_and_then; [apply fail_stop_with_ids|]. intros identifier.
    apply fail_stop_checked; [apply raised_for_delete | apply IH].
Qed.

Lemma fail_stop_apply_change change :
  fail_stop (apply_change record_repr Provider provider_do change).
Proof.
  unfold apply_change.
  apply fail_stop_and_then; [apply fail_stop_lift|]. intros rrset.
  apply fail_stop_and_then; [apply fail_stop_set_ttl|]. intros _.
  apply fail_stop_and_then; [apply fail_stop_lift|]. intros old_vars.
  apply fail_stop_and_then; [apply fail_stop_lift|]. intros new_vars.
  apply fail_stop_and_then; [apply fail_stop_paired_loop|]. intros [a' d'].
  apply fail_stop_and_then; [apply fail_stop_create_loop|]. intros _.
  apply fail_stop_delete_loop.
Qed.

Lemma fail_stop_apply_changes changes :
  fail_stop (apply_changes record_repr Provider provider_do changes).
Proof.
  induction changes as [|change rest IH]; simpl.
  - apply fail_stop_ret.
  - apply fail_stop_and_then; [apply fail_stop_apply_change|].
    intros _. apply IH.
Qed.

Lemma issued_of_journal {A} (m : M Provider A) w calls :
  journal (snd (m w)) = journal w ++ calls -> issued m w = calls.
Proof. unfold issued. intros ->. apply drop_app_length. Qed.

(** C7.  Whatever the provider does: if, while the changes of a plan are
    applied, a [create_record], [update_record] or [delete_record] call
    returns a false flag, then that call is the last provider call made (no
    further operation, of this record or of a later one, and no undoing
    call), the calls before it all returned a true flag, and the run ends
    with the error of the call's class, built from the flat record passed
    and, for an update, from the identifier passed. *)
Theorem false_flag_raises_and_stops
    (changes : list octodns.Change) (w : world Provider)
    (pre post : list (provider_call * (exn + bool))) (c : provider_call) :
  issued (apply_changes record_repr Provider provider_do changes) w
  = pre ++ (c, inr false) :: post ->
  post = []
  /\ Forall succeeded pre
  /\ exists e,
       fst (apply_changes record_repr Provider provider_do changes w) = inl e
       /\ raised_for c e.
Proof.
  intros Hissued.
  destruct (fail_stop_apply_changes changes w) as (calls & Hj & Hrun).
  rewrite (issued_of_journal _ _ _ Hj) in Hissued.
  exact (run_shape_false_flag _ _ _ _ _ Hrun Hissued).
Qed.

End fail_stop.

(** A second change is never reached when the delete of the first is
    turned down. *)
Lemma false_flag_raises_and_stops_witness :
  let changes :=
    [octodns.Update (a_record ["192.0.2.1"]) (a_record ["192.0.2.2"]);
     octodns.Create (a_record ["192.0.2.3"])] in
  let c := delete_record Omitted (func_args (a_flat "192.0.2.1")) in
  @nil (provider_call * (exn + bool)) = []
  /\ Forall succeeded
       [(create_record (func_args (a_flat "192.0.2.2")), inr true)]
  /\ exists e,
       fst (apply_changes sample_repr unit keeping_provider changes
              (sample_world []))
       = inl e
       /\ raised_for c e.
Proof.
  intros changes c.
  apply (false_flag_raises_and_stops sample_repr unit keeping_provider
           changes (sample_world [])
           [(create_record (func_args (a_flat "192.0.2.2")), inr true)]
           [] c).
  vm_compute. reflexivity.
Defined.

(** ** One addition paired with one deletion *)

Lemma sorted_empty : sorted ∅ = [].
Proof. unfold sorted. now rewrite elements_empty. Qed.

Lemma sorted_singleton (x : LexiconRecord) : sorted {[x]} = [x].
Proof. unfold sorted. now rewrite elements_singleton. Qed.

Lemma singleton_difference (x y : LexiconRecord) :
  x <> y -> ({[x]} : gset LexiconRecord) ∖ {[y]} = {[x]}.
Proof.
  intros Hne. apply set_eq. intros z.
  rewrite elem_of_difference, !elem_of_singleton.
  split; [tauto | intros ->; split; congruence].
Qed.

Section one_pair.

Variable record_repr : octodns.record -> string.
Variable Provider : Type.
Variable provider_do :
  provider_call -> Z -> Provider -> (exn + bool) * Provider.

(** [has_unique_ids] answers the same after a [get]. *)
Lemma has_unique_ids_after_get s existing content :
  fst (RememberedIds.has_unique_ids (repr record_repr)
         (snd (RememberedIds.get (repr record_repr) s existing content))
         existing)
  = fst (RememberedIds.has_unique_ids (repr record_repr) s existing).
Proof.
  now rewrite !ids_facts.has_unique_ids_fst, ids_facts.get_snd_ids_of.
Qed.

Lemma apply_change_reconcile change rrset old_vars new_vars w :
  _rrset_func (octodns._type (octodns.record_of change)) = inr rrset ->
  vars_of rrset (octodns.existing_of change) = inr old_vars ->
  vars_of rrset (octodns.new_of change) = inr new_vars ->
  apply_change record_repr Provider provider_do change w
  = reconcile record_repr Provider provider_do (octodns.existing_of change)
      (new_vars ∖ old_vars) (old_vars ∖ new_vars)
      {| remembered_ids := remembered_ids w;
         config_ttl := octodns.ttl (octodns.record_of change);
         provider := provider w;
         journal := journal w |}.
Proof.
  intros Hf Hold Hnew. unfold apply_change, reconcile, and_then at 1 2 3 4.
  unfold lift, set_ttl. rewrite Hf, Hold, Hnew. simpl.
  unfold and_then at 1 3.
  destruct (paired_loop _ _ _ _ _ _ _ _) as [[e|[a' d']] w']; reflexivity.
Qed.


(** How the steps of a computation run *)
Lemma step_assoc {A B C} (m : M Provider A) (f : A -> M Provider B)
    (g : B -> M Provider C) w :
  and_then (and_then m f) g w = and_then m (fun a => and_then (f a) g) w.
Proof. unfold and_then. destruct (m w) as [[e|a] w']; reflexivity. Qed.

Lemma step_with_ids {A B} (f : RememberedIds.t -> A * RememberedIds.t)
    (k : A -> M Provider B) w :
  and_then (with_ids f) k w
  = k (fst (f (remembered_ids w)))
      {| remembered_ids := snd (f (remembered_ids w));
         config_ttl := config_ttl w;
         provider := provider w;
         journal := journal w |}.
Proof.
  unfold and_then, with_ids. destruct (f (remembered_ids w)); reflexivity.
Qed.

Lemma step_call {B} (c : provider_call) (k : bool -> M Provider B) w :
  and_then (call provider_do c) k w
  = match answer provider_do c w with
    | inl e => (inl e, answered provider_do c w)
    | inr ok => k ok (answered provider_do c w)
    end.
Proof.
  unfold and_then, call, answered, answer.
  destruct (provider_do c (config_ttl w) (provider w)) as [[e|ok] p'];
    reflexivity.
Qed.

Lemma step_ret {A B} (a : A) (k : A -> M Provider B) w :
  and_then (ret a) k w = k a w.
Proof. reflexivity. Qed.

Lemma step_throw {A B} (e : exn) (k : A -> M Provider B) w :
  and_then (throw e) k w = (inl e, w).
Proof. reflexivity. Qed.

Lemma paired_loop_one existing new_v old_v :
  paired_loop record_repr Provider provider_do 1 existing [new_v] [old_v]
  = and_then
      (with_ids (fun ids =>
         RememberedIds.get (repr record_repr) ids existing (content old_v)))
      (fun identifier =>
         and_then
           (if truthy identifier
            then with_ids (fun ids =>
                   RememberedIds.has_unique_ids (repr record_repr) ids existing)
            else ret false)
           (fun unique =>
              and_then
                (if truthy identifier && unique then
                   and_then
                     (call provider_do
                        (update_record identifier (func_args new_v)))
                     (fun ok =>
                        if negb ok
                        then throw (RecordUpdateError new_v identifier)
                        else ret tt)
                 else
                   and_then (call provider_do (create_record (func_args new_v)))
                     (fun ok =>
                        if negb ok then throw (RecordCreateError new_v None)
                        else
                          and_then
                            (call provider_do
                               (delete_record Omitted (func_args old_v)))
                            (fun ok' =>
                               if negb ok'
                               then throw (RecordDeleteError old_v None)
                               else ret tt)))
                (fun _ => ret ([], [])))).
Proof. reflexivity. Qed.

Lemma update_branch_journal existing identifier new_v w :
  let update := update_record identifier (func_args new_v) in
  journal (snd (and_then
    (and_then (call provider_do update)
       (fun ok => if negb ok then throw (RecordUpdateError new_v identifier)
                  else ret tt))
    (fun _ => unpaired_rest record_repr Provider provider_do existing) w))
  = journal w ++ [(update, answer provider_do update w)].
Proof.
  intros update. rewrite step_assoc, step_call. unfold answered.
  destruct (answer provider_do update w) as [e|[|]]; reflexivity.
Qed.

Lemma fallback_branch_journal existing new_v old_v w :
  let create := create_record (func_args new_v) in
  let delete := delete_record Omitted (func_args old_v) in
  journal (snd (and_then
    (and_then (call provider_do create)
       (fun ok =>
          if negb ok then throw (RecordCreateError new_v None)
          else and_then (call provider_do delete)
                 (fun ok' =>
                    if negb ok' then throw (RecordDeleteError old_v None)
                    else ret tt)))
    (fun _ => unpaired_rest record_repr Provider provider_do existing) w))
  = journal w ++ (create, answer provider_do create w)
      :: match answer provider_do create w with
         | inr true => [(delete, answer provider_do delete (answered provider_do create w))]
         | _ => []
         end.
Proof.
  intros create delete. rewrite step_assoc, step_call.
  destruct (answer provider_do create w) as [e|[|]] eqn:Hcreate;
    try (unfold answered; rewrite Hcreate; reflexivity).
  simpl negb. cbv iota.
  assert (Hj : journal (answered provider_do create w)
               = journal w ++ [(create, inr true)])
    by (unfold answered; now rewrite Hcreate).
  revert Hj. generalize (answered provider_do create w). intros w1 Hj.
  rewrite step_assoc, step_call.
  destruct (answer provider_do delete w1) as [e|[|]] eqn:Hdelete;
    unfold answered; simpl; rewrite Hdelete, Hj, <- app_assoc;
    reflexivity.
Qed.

(** The calls made for one addition paired with one deletion. *)
Lemma reconcile_one_pair existing new_v old_v w :
  let identifier :=
    fst (RememberedIds.get (repr record_repr) (remembered_ids w) existing
           (content old_v)) in
  let unique :=
    fst (RememberedIds.has_unique_ids (repr record_repr) (remembered_ids w)
           existing) in
  let update := update_record identifier (func_args new_v) in
  let create := create_record (func_args new_v) in
  let delete := delete_record Omitted (func_args old_v) in
  issued (reconcile record_repr Provider provider_do existing {[new_v]} {[old_v]}) w
  = if truthy identifier && unique
    then [(update, answer provider_do update w)]
    else (create, answer provider_do create w)
         :: match answer provider_do create w with
            | inr true => [(delete, answer provider_do delete (answered provider_do create w))]
            | _ => []
            end.
Proof.
  intros identifier unique update create delete.
  apply issued_of_journal.
  unfold reconcile. rewrite !size_singleton, !sorted_singleton.
  change (Nat.min 1 1) with 1%nat. rewrite paired_loop_one.
  rewrite !step_assoc, step_with_ids. fold identifier.
  pose proof (has_unique_ids_after_get (remembered_ids w) existing
                (content old_v)) as Hu. fold unique in Hu.
  destruct (truthy identifier) eqn:Hi.
  - rewrite step_assoc, step_with_ids. cbn [remembered_ids]. rewrite Hu.
    simpl andb.
    rewrite step_assoc. destruct unique.
    + etransitivity; [apply (update_branch_journal existing) | reflexivity].
    + etransitivity; [apply (fallback_branch_journal existing) | reflexivity].
  - rewrite step_assoc, step_ret. simpl andb. rewrite step_assoc.
    etransitivity; [apply (fallback_branch_journal existing) | reflexivity].
Qed.


Lemma issued_apply_change change rrset old_vars new_vars w :
  _rrset_func (octodns._type (octodns.record_of change)) = inr rrset ->
  vars_of rrset (octodns.existing_of change) = inr old_vars ->
  vars_of rrset (octodns.new_of change) = inr new_vars ->
  issued (apply_change record_repr Provider provider_do change) w
  = issued (reconcile record_repr Provider provider_do (octodns.existing_of change)
              (new_vars ∖ old_vars) (old_vars ∖ new_vars))
      {| remembered_ids := remembered_ids w;
         config_ttl := octodns.ttl (octodns.record_of change);
         provider := provider w;
         journal := journal w |}.
Proof.
  intros Hf Hold Hnew. unfold issued.
  now rewrite (apply_change_reconcile _ _ _ _ _ Hf Hold Hnew).
Qed.

(** C8.  A change whose existing and new record encode to the same set of
    flat records makes no provider call: the loop body returns normally
    and leaves the identifier memory, the provider and the journal as they
    were; only the ttl of the change is written to the config source. *)
Theorem equal_flat_sets_make_no_call
    (change : octodns.Change)
    (rrset : octodns.record -> exn + gset LexiconRecord)
    (vars : gset LexiconRecord) (w : world Provider) :
  _rrset_func (octodns._type (octodns.record_of change)) = inr rrset ->
  vars_of rrset (octodns.existing_of change) = inr vars ->
  vars_of rrset (octodns.new_of change) = inr vars ->
  apply_change record_repr Provider provider_do change w
  = (inr tt,
     {| remembered_ids := remembered_ids w;
        config_ttl := octodns.ttl (octodns.record_of change);
        provider := provider w;
        journal := journal w |})
  /\ issued (apply_change record_repr Provider provider_do change) w = [].
Proof.
  intros Hf Hold Hnew.
  assert (Hrun : apply_change record_repr Provider provider_do change w
                 = (inr tt,
                    {| remembered_ids := remembered_ids w;
                       config_ttl := octodns.ttl (octodns.record_of change);
                       provider := provider w;
                       journal := journal w |})).
  { rewrite (apply_change_reconcile _ _ _ _ _ Hf Hold Hnew).
    unfold reconcile. rewrite difference_diag_L, size_empty, sorted_empty.
    reflexivity. }
  split; [exact Hrun|].
  unfold issued. rewrite Hrun. simpl. apply drop_all.
Qed.

(** C4, amended.  A change from one existing flat value to one different
    new flat value, when [get] returns a non-empty identifier for the
    content of the existing value and [has_unique_ids] holds for the
    existing record, makes exactly one provider call: [update_record] with
    that identifier and the new flat record. *)
Theorem known_unique_identifier_updates
    (existing new : octodns.record)
    (rrset : octodns.record -> exn + gset LexiconRecord)
    (old_v new_v : LexiconRecord) (identifier : string) (w : world Provider) :
  _rrset_func (octodns._type new) = inr rrset ->
  rrset existing = inr {[old_v]} ->
  rrset new = inr {[new_v]} ->
  old_v <> new_v ->
  fst (RememberedIds.get (repr record_repr) (remembered_ids w)
         (Some existing) (content old_v)) = Some identifier ->
  identifier <> EmptyString ->
  fst (RememberedIds.has_unique_ids (repr record_repr) (remembered_ids w)
         (Some existing)) = true ->
  exists outcome,
    issued (apply_change record_repr Provider provider_do
              (octodns.Update existing new)) w
    = [(update_record (Some identifier) (func_args new_v), outcome)].
Proof.
  intros Hf Hold Hnew Hne Hget Hid Hunique.
  rewrite (issued_apply_change (octodns.Update existing new) rrset
             {[old_v]} {[new_v]} w Hf Hold Hnew).
  rewrite !singleton_difference by congruence.
  rewrite reconcile_one_pair. cbn [remembered_ids octodns.existing_of].
  rewrite Hget, Hunique.
  destruct identifier as [|c identifier]; [contradiction|].
  simpl. eauto.
Qed.

(** C5.  A change from one existing flat value to one different new flat
    value, when [get] returns no identifier (or an empty one) for the
    content of the existing value or [has_unique_ids] fails for the
    existing record, calls [create_record] for the new value first and,
    once that call has returned a true flag, [delete_record] for the
    existing value, and nothing else: never [update_record].  (A create
    that is turned down or raises ends the run, see C7.) *)
Theorem fallback_creates_then_deletes
    (existing new : octodns.record)
    (rrset : octodns.record -> exn + gset LexiconRecord)
    (old_v new_v : LexiconRecord) (w : world Provider) :
  _rrset_func (octodns._type new) = inr rrset ->
  rrset existing = inr {[old_v]} ->
  rrset new = inr {[new_v]} ->
  old_v <> new_v ->
  truthy (fst (RememberedIds.get (repr record_repr) (remembered_ids w)
                 (Some existing) (content old_v))) = false
  \/ fst (RememberedIds.has_unique_ids (repr record_repr) (remembered_ids w)
            (Some existing)) = false ->
  exists created rest,
    issued (apply_change record_repr Provider provider_do
              (octodns.Update existing new)) w
    = (create_record (func_args new_v), created) :: rest
    /\ match created with
       | inr true =>
           exists deleted,
             rest = [(delete_record Omitted (func_args old_v), deleted)]
       | _ => rest = []
       end.
Proof.
  intros Hf Hold Hnew Hne Hgate.
  rewrite (issued_apply_change (octodns.Update existing new) rrset
             {[old_v]} {[new_v]} w Hf Hold Hnew).
  rewrite !singleton_difference by congruence.
  rewrite reconcile_one_pair. cbn [remembered_ids octodns.existing_of].
  assert (Hcond :
    truthy (fst (RememberedIds.get (repr record_repr) (remembered_ids w)
                   (Some existing) (content old_v)))
    && fst (RememberedIds.has_unique_ids (repr record_repr)
              (remembered_ids w) (Some existing)) = false).
  { destruct Hgate as [-> | ->]; [reflexivity | apply andb_false_r]. }
  rewrite Hcond.
  eexists _, _. split; [reflexivity|].
  destruct (answer _ _ _) as [e|[|]]; eauto.
Qed.

End one_pair.

(** ** Identifiers of the delete calls *)

Section delete_identifiers.

Variable record_repr : octodns.record -> string.
Variable Provider : Type.
Variable provider_do :
  provider_call -> Z -> Provider -> (exn + bool) * Provider.

Lemma calls_only_quiet P {A} (m : M Provider A) :
  (forall w, journal (snd (m w)) = journal w) -> calls_only P m.
Proof.
  intros Hm w. exists []. rewrite Hm, app_nil_r. split; [reflexivity|].
  apply Forall_nil_2.
Qed.

Lemma calls_only_with_ids P {A} (f : RememberedIds.t -> A * RememberedIds.t) :
  calls_only P (with_ids f : M Provider A).
Proof.
  apply calls_only_quiet. intros w. unfold with_ids.
  now destruct (f (remembered_ids w)).
Qed.

Lemma calls_only_next P {A} (it : list A) :
  calls_only P (next it : M Provider _).
Proof. apply calls_only_quiet. intros w. now destruct it. Qed.

Lemma calls_only_call P c : P c -> calls_only P (call provider_do c).
Proof.
  intros Hc w. unfold call.
  destruct (provider_do c (config_ttl w) (provider w)) as [r p'].
  exists [(c, r)]. split; [reflexivity|]. now apply Forall_singleton.
Qed.

Lemma calls_only_and_then P {A B} (m : M Provider A) (k : A -> M Provider B) :
  calls_only P m -> (forall a, calls_only P (k a)) ->
  calls_only P (and_then m k).
Proof.
  intros Hm Hk w. unfold and_then.
  destruct (Hm w) as (calls1 & Hj1 & H1).
  destruct (m w) as [[e|a] w1]; simpl in *.
  - now exists calls1.
  - destruct (Hk a w1) as (calls2 & Hj2 & H2).
    exists (calls1 ++ calls2). split.
    + now rewrite Hj2, Hj1, app_assoc.
    + now apply Forall_app.
Qed.

Lemma calls_only_checked P {A} c e (k : M Provider A) :
  P c -> calls_only P k ->
  calls_only P (and_then (call provider_do c)
                  (fun ok => if negb ok then throw e else k)).
Proof.
  intros Hc Hk. apply calls_only_and_then; [now apply calls_only_call|].
  intros [|]; simpl; [assumption|].
  now apply calls_only_quiet.
Qed.

Lemma paired_loop_deletes_without_identifier n existing :
  forall additions_iter deletions_iter,
    calls_only deletes_without_identifier
      (paired_loop record_repr Provider provider_do n existing
         additions_iter deletions_iter).
Proof.
  induction n as [|n IH]; intros additions_iter deletions_iter; simpl.
  - now apply calls_only_quiet.
  - apply calls_only_and_then; [apply calls_only_next|]. intros [new_record a'].
    apply calls_only_and_then; [apply calls_only_next|]. intros [old_record d'].
    apply calls_only_and_then; [apply calls_only_with_ids|]. intros identifier.
    apply calls_only_and_then.
    { destruct (truthy identifier);
        [apply calls_only_with_ids | now apply calls_only_quiet]. }
    intros unique. apply calls_only_and_then; [|intros _; apply IH].
    destruct (truthy identifier && unique).
    + apply calls_only_checked; [exact I | now apply calls_only_quiet].
    + apply calls_only_checked; [exact I|].
      apply calls_only_checked; [reflexivity | now apply calls_only_quiet].
Qed.

Lemma delete_loop_passes_identifier ids existing deletions_iter :
  forall w,
    (forall key content,
        id_of (remembered_ids w) key content = id_of ids key content) ->
    exists calls,
      journal (snd (delete_loop record_repr Provider provider_do existing
                      deletions_iter w))
      = journal w ++ calls
      /\ Forall (fun entry =>
                   exists old_record,
                     old_record ∈ deletions_iter
                     /\ fst entry = bare_delete record_repr ids existing old_record)
                calls.
Proof.
  induction deletions_iter as [|old_record rest IH]; intros w Hids.
  - exists []. simpl. rewrite app_nil_r. split; [reflexivity|].
    apply Forall_nil_2.
  - cbn [delete_loop]. unfold and_then at 1, with_ids at 1.
    pose proof (ids_facts.get_fst (repr record_repr) (remembered_ids w)
                  existing (content old_record)) as Hfst.
    pose proof (fun key content' =>
                  ids_facts.get_snd_id_of (repr record_repr)
                    (remembered_ids w) existing (content old_record)
                    key content') as Hsnd.
    destruct (RememberedIds.get _ (remembered_ids w) _ _) as [i ids1].
    simpl in Hfst, Hsnd.
    assert (Hcall : delete_record (Passed i) (func_args old_record)
                    = bare_delete record_repr ids existing old_record).
    { unfold bare_delete. rewrite ids_facts.get_fst, <- Hids, <- Hfst.
      reflexivity. }
    rewrite Hcall. unfold and_then, call.
    cbn [remembered_ids config_ttl provider journal].
    destruct (provider_do _ _ _) as [[e|[|]] p']; cbn [negb].
    + exists [(bare_delete record_repr ids existing old_record, inl e)].
      split; [reflexivity|]. apply Forall_singleton.
      exists old_record. split; [apply list_elem_of_here | reflexivity].
    + destruct (IH {| remembered_ids := ids1;
                      config_ttl := config_ttl w; provider := p';
                      journal := journal w
                        ++ [(bare_delete record_repr ids existing old_record, inr true)] |})
        as (calls & Hj & Hcalls).
      { intros key content'. cbn [remembered_ids].
        now rewrite Hsnd, Hids. }
      exists ((bare_delete record_repr ids existing old_record, inr true) :: calls).
      split.
      * cbn [remembered_ids config_ttl provider journal] in Hj |- *.
        rewrite Hj. now rewrite <- app_assoc.
      * apply Forall_cons. split.
        -- exists old_record. split; [apply list_elem_of_here | reflexivity].
        -- eapply Forall_impl; [exact Hcalls|].
           intros entry (o & Ho & Hentry). exists o.
           split; [now apply list_elem_of_further | assumption].
    + exists [(bare_delete record_repr ids existing old_record, inr false)].
      split; [reflexivity|]. apply Forall_singleton.
      exists old_record. split; [apply list_elem_of_here | reflexivity].
Qed.

(** Whatever the memory holds and whatever the provider does: the loop
    over the paired additions and deletions never passes an [identifier]
    to [delete_record], and every call of the loop over the unpaired
    deletions is a [delete_record] that passes what [get] returns for the
    content of one of the flat records left to delete. *)
Lemma delete_calls_shape
    (n : nat) (existing : option octodns.record)
    (additions_iter deletions_iter : list LexiconRecord)
    (w : world Provider) :
  Forall (fun entry => deletes_without_identifier (fst entry))
    (issued (paired_loop record_repr Provider provider_do n existing
               additions_iter deletions_iter) w)
  /\ Forall (fun entry =>
               exists old_record,
                 old_record ∈ deletions_iter
                 /\ fst entry
                    = delete_record
                        (Passed (fst (RememberedIds.get (repr record_repr)
                                        (remembered_ids w) existing
                                        (content old_record))))
                        (func_args old_record))
       (issued (delete_loop record_repr Provider provider_do existing
                  deletions_iter) w).
Proof.
  split.
  - destruct (paired_loop_deletes_without_identifier n existing
                additions_iter deletions_iter w) as (calls & Hj & Hcalls).
    now rewrite (issued_of_journal _ _ _ _ Hj).
  - destruct (delete_loop_passes_identifier (remembered_ids w) existing
                deletions_iter w (fun _ _ => eq_refl))
      as (calls & Hj & Hcalls).
    now rewrite (issued_of_journal _ _ _ _ Hj).
Qed.

End delete_identifiers.

(** ** Closed instances *)

Lemma a_record_flat (address : string) :
  _rrset_for_A (a_record [address]) = inr {[a_flat address]}.
Proof.
  unfold _rrset_for_A, _rrset_for_multiple, rrset_of, a_record, a_flat.
  simpl. now rewrite (right_id_L ∅ (∪)).
Qed.

(** An unchanged record with two addresses. *)
Lemma equal_flat_sets_make_no_call_witness :
  let record := a_record ["192.0.2.1"; "192.0.2.2"] in
  let w := sample_world [(record, "192.0.2.1", "17")] in
  apply_change sample_repr unit obliging_provider
    (octodns.Update record record) w
  = (inr tt,
     {| remembered_ids := remembered_ids w; config_ttl := 300;
        provider := provider w; journal := journal w |})
  /\ issued (apply_change sample_repr unit obliging_provider
               (octodns.Update record record)) w = [].
Proof.
  intros record w.
  apply (equal_flat_sets_make_no_call sample_repr unit obliging_provider
           (octodns.Update record record) _rrset_for_A
           (rrset_of record (fun c => c) ["192.0.2.1"; "192.0.2.2"]) w);
    reflexivity.
Defined.

(** An address replaced while its identifier is known and unique. *)
Lemma known_unique_identifier_updates_witness :
  let existing := a_record ["192.0.2.1"] in
  let new := a_record ["192.0.2.2"] in
  let w := sample_world [(existing, "192.0.2.1", "17")] in
  exists outcome,
    issued (apply_change sample_repr unit obliging_provider
              (octodns.Update existing new)) w
    = [(update_record (Some "17") (func_args (a_flat "192.0.2.2")), outcome)].
Proof.
  intros existing new w.
  apply (known_unique_identifier_updates sample_repr unit obliging_provider
           existing new _rrset_for_A (a_flat "192.0.2.1") (a_flat "192.0.2.2")
           "17" w).
  - reflexivity.
  - apply a_record_flat.
  - apply a_record_flat.
  - discriminate.
  - vm_compute. reflexivity.
  - discriminate.
  - vm_compute. reflexivity.
Defined.

(** C4, as stated, fails: the memory holds an identifier for the content
    of the existing value, the empty string, and [has_unique_ids] holds,
    yet the change is carried out by a create and a delete: the test
    [if identifier and ...] takes an empty identifier for none. *)
Lemma empty_identifier_is_not_updated :
  let existing := a_record ["192.0.2.1"] in
  let new := a_record ["192.0.2.2"] in
  let w := sample_world [(existing, "192.0.2.1", EmptyString)] in
  let run := apply_change sample_repr unit obliging_provider
               (octodns.Update existing new) in
  _rrset_func (octodns._type new) = inr _rrset_for_A
  /\ _rrset_for_A existing = inr {[a_flat "192.0.2.1"]}
  /\ _rrset_for_A new = inr {[a_flat "192.0.2.2"]}
  /\ a_flat "192.0.2.1" <> a_flat "192.0.2.2"
  /\ fst (RememberedIds.get (repr sample_repr) (remembered_ids w)
            (Some existing) (content (a_flat "192.0.2.1")))
     = Some EmptyString
  /\ fst (RememberedIds.has_unique_ids (repr sample_repr) (remembered_ids w)
            (Some existing)) = true
  /\ issued run w
     = [(create_record (func_args (a_flat "192.0.2.2")), inr true);
        (delete_record Omitted (func_args (a_flat "192.0.2.1")), inr true)]
  /\ ~ exists outcome,
         issued run w
         = [(update_record (Some EmptyString) (func_args (a_flat "192.0.2.2")),
             outcome)].
Proof.
  intros existing new w run.
  assert (Hissued : issued run w
     = [(create_record (func_args (a_flat "192.0.2.2")), inr true);
        (delete_record Omitted (func_args (a_flat "192.0.2.1")), inr true)])
    by (vm_compute; reflexivity).
  split; [reflexivity|]. split; [apply a_record_flat|].
  split; [apply a_record_flat|]. split; [discriminate|].
  split; [vm_compute; reflexivity|]. split; [vm_compute; reflexivity|].
  split; [exact Hissued|].
  intros [outcome H]. rewrite Hissued in H. discriminate H.
Qed.

(** An address replaced while the memory holds the same identifier twice
    for its record. *)
Lemma fallback_creates_then_deletes_witness :
  let existing := a_record ["192.0.2.1"] in
  let new := a_record ["192.0.2.2"] in
  let w := sample_world [(existing, "192.0.2.1", "17");
                         (existing, "192.0.2.3", "17")] in
  exists created rest,
    issued (apply_change sample_repr unit obliging_provider
              (octodns.Update existing new)) w
    = (create_record (func_args (a_flat "192.0.2.2")), created) :: rest
    /\ match created with
       | inr true =>
           exists deleted,
             rest = [(delete_record Omitted (func_args (a_flat "192.0.2.1")),
                      deleted)]
       | _ => rest = []
       end.
Proof.
  intros existing new w.
  apply (fallback_creates_then_deletes sample_repr unit obliging_provider
           existing new _rrset_for_A (a_flat "192.0.2.1") (a_flat "192.0.2.2")
           w).
  - reflexivity.
  - apply a_record_flat.
  - apply a_record_flat.
  - discriminate.
  - right. vm_compute. reflexivity.
Defined.

(** The two delete paths side by side, with a provider that accepts every
    call: the paired delete leaves out the identifier the memory holds for
    the content, the unpaired delete passes it. *)
Example delete_paths_example :
  let existing := a_record ["192.0.2.1"; "192.0.2.3"] in
  let w := sample_world [(existing, "192.0.2.1", "17");
                         (existing, "192.0.2.3", "17")] in
  issued (apply_change sample_repr unit obliging_provider
            (octodns.Update existing (a_record ["192.0.2.2"; "192.0.2.3"]))) w
  = [(create_record (func_args (a_flat "192.0.2.2")), inr true);
     (delete_record Omitted (func_args (a_flat "192.0.2.1")), inr true)]
  /\ issued (apply_change sample_repr unit obliging_provider
               (octodns.Update existing (a_record ["192.0.2.3"]))) w
     = [(delete_record (Passed (Some "17")) (func_args (a_flat "192.0.2.1")),
         inr true)].
Proof. split; vm_compute; reflexivity. Qed.

(** ** The round trip through the flat content *)

Lemma blank_append (s : string) : " " +:+ s = String " " s.
Proof. reflexivity. Qed.

Lemma re_sub_semicolon_none (s : string) :
  char_in ";" s = false -> re_sub_semicolon s = s.
Proof.
  induction s as [|c s IH]; [reflexivity|].
  cbn [char_in re_sub_semicolon]. intros H.
  apply orb_false_elim in H as [Hc Hs]. rewrite Ascii.eqb_sym in Hc.
  rewrite Hc. now rewrite IH.
Qed.

Lemma sorted_one (x : LexiconRecord) : sorted (list_to_set [x]) = [x].
Proof.
  simpl. rewrite (right_id_L ∅ (∪)). apply sorted_singleton.
Qed.

Lemma shlex_split_caa (c : octodns.CaaValue) :
  plain_word (octodns.tag c) = true ->
  all_chars quotable_char (octodns.value c) = true ->
  shlex_split (caa_content c)
  = inr [str_of_int (octodns.flags c); octodns.tag c; octodns.value c].
Proof.
  intros Htag Hvalue. unfold shlex_split, caa_content.
  rewrite !blank_append.
  rewrite read_tokens_word_blank by apply str_of_int_plain.
  rewrite read_tokens_word_blank by assumption.
  cbn [read_tokens]. change (in_whitespace dquote) with false.
  change (in_escape dquote) with false. change (in_quotes dquote) with true.
  cbv iota.
  rewrite read_tokens_quoted_run by assumption.
  reflexivity.
Qed.

Lemma shlex_split_mx (c : octodns.MxValue) :
  plain_word (octodns.exchange c) = true ->
  shlex_split (mx_content c)
  = inr [str_of_int (octodns.preference c); octodns.exchange c].
Proof.
  intros Hexchange. unfold shlex_split, mx_content.
  rewrite !blank_append.
  rewrite read_tokens_word_blank by apply str_of_int_plain.
  now rewrite read_tokens_word_end.
Qed.

Lemma shlex_split_srv (c : octodns.SrvValue) :
  plain_word (octodns.target c) = true ->
  shlex_split (srv_content c)
  = inr [str_of_int (octodns.priority c); str_of_int (octodns.weight c);
         str_of_int (octodns.port c); octodns.target c].
Proof.
  intros Htarget. unfold shlex_split, srv_content.
  rewrite !blank_append.
  rewrite !read_tokens_word_blank by apply str_of_int_plain.
  now rewrite read_tokens_word_end.
Qed.

Lemma decode_encoded_one _type fqdn ttl payload rrset decoder flat :
  _rrset_func _type = inr rrset ->
  rrset {| octodns._type := _type; octodns.fqdn := fqdn;
           octodns.ttl := ttl; octodns.data := payload |}
  = inr (list_to_set [flat]) ->
  _data_func _type = inr decoder ->
  decode_encoded _type fqdn ttl payload
  = decoder _type [to_list_format flat].
Proof.
  intros Hrrset Hflat Hdecoder. unfold decode_encoded.
  rewrite Hrrset. cbn [bind]. rewrite Hflat. cbn [bind].
  rewrite Hdecoder. cbn [bind]. now rewrite sorted_one.
Qed.

(** C3.  The round trip fails on the code for a value that meets the
    condition of the claim: a TXT value whose only semicolon is escaped is
    encoded as it is, and decoding that content gives it back with a
    second backslash before the semicolon.  The decoder escapes every
    semicolon; the encoder of the same types does not take the escape
    away. *)
Lemma escaped_semicolon_gains_a_backslash :
  let v := "v=DKIM1\; k=rsa" in
  has_unescaped_semicolon v = false
  /\ decode_encoded "TXT" "mail._domainkey.example.com." 300
       (octodns.Values [v])
     = inr (DataValues 300 "TXT" [Str "v=DKIM1\\; k=rsa"])
  /\ decode_encoded "TXT" "mail._domainkey.example.com." 300
       (octodns.Values [v])
     <> inr (DataValues 300 "TXT" [Str v]).
Proof.
  intros v.
  assert (H : decode_encoded "TXT" "mail._domainkey.example.com." 300
                (octodns.Values [v])
              = inr (DataValues 300 "TXT" [Str "v=DKIM1\\; k=rsa"]))
    by (vm_compute; reflexivity).
  split; [reflexivity|]. split; [exact H|].
  rewrite H. discriminate.
Qed.

(** Fields that do not come back: an empty CAA tag or MX exchange leaves a
    token short. *)
Example empty_fields_do_not_come_back :
  decode_encoded "CAA" "example.com." 300
    (octodns.CaaValues
       [{| octodns.flags := 0; octodns.tag := EmptyString;
           octodns.value := "letsencrypt.org" |}])
  = inl ValueError
  /\ decode_encoded "MX" "example.com." 300
       (octodns.MxValues
          [{| octodns.preference := 10; octodns.exchange := EmptyString |}])
     = inl ValueError.
Proof. split; vm_compute; reflexivity. Qed.

(** X26.  Where the round trip holds.  Decoding the flat content that
    encoding produced for a single value gives the fields of the value
    back as text, the integer fields in decimal:
    - for A, AAAA, NS and TXT, when the value contains no semicolon at all;
    - for ALIAS and CNAME, always;
    - for CAA, when the tag is a non-empty run of characters other than
      white space, quotes and backslash, and the value contains neither a
      double quote nor a backslash;
    - for MX and SRV, when the exchange, respectively the target, is such
      a non-empty run. *)
Theorem round_trip (fqdn : string) (record_ttl : Z) :
  (forall _type v,
      _type ∈ ["A"; "AAAA"; "NS"; "TXT"] ->
      char_in ";" v = false ->
      decode_encoded _type fqdn record_ttl (octodns.Values [v])
      = inr (DataValues record_ttl _type [Str v]))
  /\ (forall _type v,
         _type ∈ ["ALIAS"; "CNAME"] ->
         decode_encoded _type fqdn record_ttl (octodns.Value v)
         = inr (DataValue record_ttl _type v))
  /\ (forall c,
         plain_word (octodns.tag c) = true ->
         all_chars quotable_char (octodns.value c) = true ->
         decode_encoded "CAA" fqdn record_ttl (octodns.CaaValues [c])
         = inr (DataValues record_ttl "CAA"
                  [CaaDict (str_of_int (octodns.flags c)) (octodns.tag c)
                           (octodns.value c)]))
  /\ (forall c,
         plain_word (octodns.exchange c) = true ->
         decode_encoded "MX" fqdn record_ttl (octodns.MxValues [c])
         = inr (DataValues record_ttl "MX"
                  [MxDict (str_of_int (octodns.preference c))
                          (octodns.exchange c)]))
  /\ (forall c,
         plain_word (octodns.target c) = true ->
         decode_encoded "SRV" fqdn record_ttl (octodns.SrvValues [c])
         = inr (DataValues record_ttl "SRV"
                  [SrvDict (str_of_int (octodns.priority c))
                           (str_of_int (octodns.weight c))
                           (str_of_int (octodns.port c))
                           (octodns.target c)])).
Proof.
  repeat split.
  - intros _type v Htype Hv.
    repeat (apply elem_of_cons in Htype as [->|Htype]);
      try (now apply elem_of_nil in Htype);
      (erewrite decode_encoded_one by reflexivity);
      cbv delta [_data_for_A _data_for_AAAA _data_for_NS _data_for_TXT
                 _data_for_multiple];
      simpl; now rewrite re_sub_semicolon_none.
  - intros _type v Htype.
    repeat (apply elem_of_cons in Htype as [->|Htype]);
      try (now apply elem_of_nil in Htype);
      (erewrite decode_encoded_one by reflexivity); reflexivity.
  - intros c Htag Hvalue.
    erewrite decode_encoded_one by reflexivity.
    unfold _data_for_CAA, caa_of_content.
    cbn [for_append to_list_format lr_content content].
    rewrite shlex_split_caa by assumption. reflexivity.
  - intros c Hexchange.
    erewrite decode_encoded_one by reflexivity.
    unfold _data_for_MX, mx_of_content.
    cbn [for_append to_list_format lr_content content].
    rewrite shlex_split_mx by assumption. reflexivity.
  - intros c Htarget.
    erewrite decode_encoded_one by reflexivity.
    unfold _data_for_SRV, srv_of_content.
    cbn [for_append to_list_format lr_content content].
    rewrite shlex_split_srv by assumption. reflexivity.
Qed.

(** One value of each kind. *)
Lemma round_trip_witness :
  decode_encoded "TXT" "example.com." 300 (octodns.Values ["v=spf1 -all"])
  = inr (DataValues 300 "TXT" [Str "v=spf1 -all"])
  /\ decode_encoded "CNAME" "www.example.com." 300
       (octodns.Value "target.example.net.")
     = inr (DataValue 300 "CNAME" "target.example.net.")
  /\ decode_encoded "CAA" "example.com." 300
       (octodns.CaaValues
          [{| octodns.flags := 0; octodns.tag := "issue";
              octodns.value := "letsencrypt.org" |}])
     = inr (DataValues 300 "CAA" [CaaDict "0" "issue" "letsencrypt.org"])
  /\ decode_encoded "MX" "example.com." 300
       (octodns.MxValues
          [{| octodns.preference := 10;
              octodns.exchange := "mail.example.com." |}])
     = inr (DataValues 300 "MX" [MxDict "10" "mail.example.com."])
  /\ decode_encoded "SRV" "_sip._tcp.example.com." 300
       (octodns.SrvValues
          [{| octodns.priority := 10; octodns.weight := 60;
              octodns.port := 5060;
              octodns.target := "sip.example.com." |}])
     = inr (DataValues 300 "SRV"
              [SrvDict "10" "60" "5060" "sip.example.com."]).
Proof.
  split; [|split; [|split; [|split]]].
  - apply (proj1 (round_trip "example.com." 300) "TXT" "v=spf1 -all").
    + repeat (first [apply list_elem_of_here | apply list_elem_of_further]).
    + reflexivity.
  - apply (proj1 (proj2 (round_trip "www.example.com." 300))
             "CNAME" "target.example.net.").
    repeat (first [apply list_elem_of_here | apply list_elem_of_further]).
  - apply (proj1 (proj2 (proj2 (round_trip "example.com." 300)))
             {| octodns.flags := 0; octodns.tag := "issue";
                octodns.value := "letsencrypt.org" |});
      reflexivity.
  - apply (proj1 (proj2 (proj2 (proj2 (round_trip "example.com." 300))))
             {| octodns.preference := 10;
                octodns.exchange := "mail.example.com." |});
      reflexivity.
  - apply (proj2 (proj2 (proj2 (proj2
             (round_trip "_sip._tcp.example.com." 300))))
             {| octodns.priority := 10; octodns.weight := 60;
                octodns.port := 5060;
                octodns.target := "sip.example.com." |});
      reflexivity.
Defined.

(** * Further properties *)

(** ** Identifier memory: what the methods add up to *)

Lemma remove_dups_NoDup_id (l : list string) : NoDup l -> remove_dups l = l.
Proof.
  induction l as [|x l IH]; [reflexivity|].
  intros Hl. apply NoDup_cons in Hl as [Hx Hl]. simpl.
  destruct (decide_rel elem_of x l); [contradiction|]. now rewrite IH.
Qed.

(** X1.  [get] after [remember] returns the remembered identifier for the
    same key and content (the last one wins), and what it returned before
    for every other key or content; two records with the same [repr]
    share their entries. *)
Theorem get_after_remember {R : Type} (repr : R -> string)
    (s : RememberedIds.t) (record record' : R) (content content' _id : string) :
  fst (RememberedIds.get repr
         (RememberedIds.remember repr s record content _id) record' content')
  = if decide (repr record = repr record' /\ content = content')
    then Some _id
    else fst (RememberedIds.get repr s record' content').
Proof.
  now rewrite !ids_facts.get_fst, ids_facts.remember_id_of.
Qed.

(** X2.  [has_unique_ids] answers whether the list [get_all_ids] returns
    for the record is free of duplicates. *)
Theorem has_unique_ids_is_NoDup {R : Type} (repr : R -> string)
    (s : RememberedIds.t) (record : R) :
  fst (RememberedIds.has_unique_ids repr s record)
  = bool_decide (NoDup (fst (RememberedIds.get_all_ids repr s record))).
Proof.
  rewrite ids_facts.has_unique_ids_fst, ids_facts.get_all_ids_fst.
  destruct (decide (NoDup (ids_of s (repr record)))) as [Hl|Hl].
  - rewrite (bool_decide_eq_true_2 _ Hl), (remove_dups_NoDup_id _ Hl).
    apply Nat.eqb_refl.
  - rewrite (bool_decide_eq_false_2 _ Hl). apply Nat.eqb_neq.
    intros Hlen. apply Hl. apply ids_facts.remove_dups_length_NoDup.
    now symmetry.
Qed.

(** X3.  The three reading methods bind a missing key to an empty default
    in the dictionaries, yet change no answer of any reading method: no
    later [get], [get_all_ids] or [has_unique_ids] can tell that they were
    called. *)
Theorem reading_is_not_observed {R : Type} (repr : R -> string)
    (s : RememberedIds.t) (record : R) (content : string) :
  same_observations repr (snd (RememberedIds.get repr s record content)) s
  /\ same_observations repr (snd (RememberedIds.get_all_ids repr s record)) s
  /\ same_observations repr
       (snd (RememberedIds.has_unique_ids repr s record)) s.
Proof.
  repeat split;
    rewrite ?ids_facts.get_fst, ?ids_facts.get_all_ids_fst,
      ?ids_facts.has_unique_ids_fst,
      ?ids_facts.get_snd_id_of, ?ids_facts.get_snd_ids_of,
      ?ids_facts.get_all_ids_snd_id_of, ?ids_facts.get_all_ids_snd_ids_of,
      ?ids_facts.has_unique_ids_snd_id_of,
      ?ids_facts.has_unique_ids_snd_ids_of;
    reflexivity.
Qed.

Lemma remembered_under_app {R : Type} (repr : R -> string) key
    (calls calls' : list (memory_call R)) :
  remembered_under repr key (calls ++ calls')
  = remembered_under repr key calls ++ remembered_under repr key calls'.
Proof.
  induction calls as [|c calls IH]; [reflexivity|].
  destruct c as [record content _id| | |]; simpl; try apply IH.
  destruct (decide (repr record = key)); simpl; now rewrite IH.
Qed.

Lemma run_calls_snoc {R : Type} (repr : R -> string)
    (calls : list (memory_call R)) (c : memory_call R) :
  run_calls repr (calls ++ [c]) = run_call repr (run_calls repr calls) c.
Proof. unfold run_calls. now rewrite foldl_app. Qed.

Lemma run_calls_ids_of {R : Type} (repr : R -> string)
    (calls : list (memory_call R)) (key : string) :
  ids_of (run_calls repr calls) key
  = map snd (remembered_under repr key calls).
Proof.
  induction calls as [|c calls IH] using rev_ind; [reflexivity|].
  rewrite run_calls_snoc, remembered_under_app, map_app, <- IH.
  destruct c as [record content _id|record content|record|record]; simpl.
  - rewrite ids_facts.remember_ids_of.
    destruct (decide (repr record = key)); simpl;
      [reflexivity | now rewrite app_nil_r].
  - now rewrite ids_facts.get_snd_ids_of, app_nil_r.
  - now rewrite ids_facts.has_unique_ids_snd_ids_of, app_nil_r.
  - now rewrite ids_facts.get_all_ids_snd_ids_of, app_nil_r.
Qed.

Lemma run_calls_id_of {R : Type} (repr : R -> string)
    (calls : list (memory_call R)) (key content : string) :
  id_of (run_calls repr calls) key content
  = last (map snd (filter (fun p => fst p = content)
                          (remembered_under repr key calls))).
Proof.
  induction calls as [|c calls IH] using rev_ind.
  - unfold id_of. simpl. now rewrite lookup_empty.
  - rewrite run_calls_snoc, remembered_under_app, filter_app, map_app.
    destruct c as [record content' _id|record content'|record|record]; simpl.
    + rewrite ids_facts.remember_id_of.
      destruct (decide (repr record = key)) as [Hk|Hk].
      * rewrite filter_cons. simpl.
        destruct (decide (content' = content)) as [Hc|Hc].
        -- rewrite decide_True by (split; assumption).
           simpl. now rewrite last_snoc.
        -- rewrite decide_False by (intros [_ ?]; contradiction).
           rewrite ?filter_nil. simpl. now rewrite app_nil_r.
      * rewrite decide_False by (intros [? _]; contradiction).
        rewrite ?filter_nil. simpl. now rewrite app_nil_r.
    + rewrite ids_facts.get_snd_id_of. rewrite ?filter_nil. simpl.
      now rewrite app_nil_r.
    + rewrite ids_facts.has_unique_ids_snd_id_of. rewrite ?filter_nil. simpl.
      now rewrite app_nil_r.
    + rewrite ids_facts.get_all_ids_snd_id_of. rewrite ?filter_nil. simpl.
      now rewrite app_nil_r.
Qed.

(** X4.  After any sequence of calls on a fresh memory, [get_all_ids]
    returns the identifiers remembered under the key of the record, one
    entry per [remember] in the order of the calls, and [get] returns the
    identifier of the last [remember] under that key with that content
    ([None] when there was none). *)
Theorem memory_is_the_history {R : Type} (repr : R -> string)
    (calls : list (memory_call R)) (record : R) (content : string) :
  let s := run_calls repr calls in
  let history := remembered_under repr (repr record) calls in
  fst (RememberedIds.get_all_ids repr s record) = map snd history
  /\ fst (RememberedIds.get repr s record content)
     = last (map snd (filter (fun p => fst p = content) history)).
Proof.
  intros s history. subst s history. split.
  - rewrite ids_facts.get_all_ids_fst. apply run_calls_ids_of.
  - rewrite ids_facts.get_fst. apply run_calls_id_of.
Qed.

(** X5.  After any sequence of calls on a fresh memory, an identifier that
    [get] returns for a record is among those [get_all_ids] returns for
    it: the two dictionaries never disagree. *)
Theorem known_identifier_is_listed {R : Type} (repr : R -> string)
    (calls : list (memory_call R)) (record : R) (content _id : string) :
  fst (RememberedIds.get repr (run_calls repr calls) record content)
  = Some _id ->
  _id ∈ fst (RememberedIds.get_all_ids repr (run_calls repr calls) record).
Proof.
  rewrite ids_facts.get_fst, ids_facts.get_all_ids_fst.
  rewrite run_calls_id_of, run_calls_ids_of. intros Hlast.
  apply last_Some in Hlast as [l Hl].
  assert (Hin : _id ∈ map snd (filter (fun p => fst p = content)
                   (remembered_under repr (repr record) calls))).
  { rewrite Hl. apply elem_of_app. right. apply list_elem_of_here. }
  apply list_elem_of_fmap in Hin as (p & -> & Hp).
  apply list_elem_of_filter in Hp as [_ Hp].
  apply list_elem_of_fmap. now exists p.
Qed.

(** Two addresses of one record listed under one identifier. *)
Lemma known_identifier_is_listed_witness :
  let repr := fun key : string => key in
  let calls := [Remember "www.example.com." "192.0.2.1" "17";
                Remember "www.example.com." "192.0.2.2" "17";
                GetAllIds "mail.example.com."] in
  "17" ∈ fst (RememberedIds.get_all_ids repr (run_calls repr calls)
                "www.example.com.").
Proof.
  intros repr calls.
  apply (known_identifier_is_listed repr calls "www.example.com."
           "192.0.2.2" "17").
  vm_compute. reflexivity.
Defined.
(** ** Decoders: empty groups, first record, group size *)

Lemma for_append_length {A B} (f : A -> exn + B) (l : list A) (ys : list B) :
  for_append f l = inr ys -> length ys = length l.
Proof.
  revert ys. induction l as [|x l IH]; intros ys; simpl.
  - now intros [= <-].
  - destruct (f x) as [e|y]; [discriminate|]. simpl.
    destruct (for_append f l) as [e|ys']; [discriminate|]. simpl.
    intros [= <-]. simpl. now rewrite (IH ys').
Qed.

Lemma for_append_raises {A B} (f : A -> exn + B) (l : list A) (e e0 : exn) :
  (forall x e', f x = inl e' -> e' = e0) ->
  for_append f l = inl e -> e = e0.
Proof.
  intros Hf. induction l as [|x l IH]; simpl; [discriminate|].
  destruct (f x) as [e'|y] eqn:Hx; simpl.
  - intros [= <-]. now apply (Hf x).
  - destruct (for_append f l) as [e'|ys]; simpl; [|discriminate].
    intros [= <-]. now apply IH.
Qed.

Lemma caa_of_content_raises r e : caa_of_content r = inl e -> e = ValueError.
Proof.
  unfold caa_of_content.
  destruct (shlex_split (lr_content r)) as [e'|tokens] eqn:Hs; simpl.
  - intros [= <-]. now apply shlex_split_raises in Hs.
  - destruct tokens as [|a [|b [|c [|d tokens]]]]; unfold raise; simpl; congruence.
Qed.

Lemma mx_of_content_raises r e : mx_of_content r = inl e -> e = ValueError.
Proof.
  unfold mx_of_content.
  destruct (shlex_split (lr_content r)) as [e'|tokens] eqn:Hs; simpl.
  - intros [= <-]. now apply shlex_split_raises in Hs.
  - destruct tokens as [|a [|b [|c tokens]]]; unfold raise; simpl; congruence.
Qed.

Lemma srv_of_content_raises r e : srv_of_content r = inl e -> e = ValueError.
Proof.
  unfold srv_of_content.
  destruct (shlex_split (lr_content r)) as [e'|tokens] eqn:Hs; simpl.
  - intros [= <-]. now apply shlex_split_raises in Hs.
  - destruct tokens as [|a [|b [|c [|d [|x tokens]]]]]; unfold raise; simpl; congruence.
Qed.

(** The outcome of a decoder that collects one value per record *)
Lemma collecting_decoder_outcome (f : record_dict -> exn + data_value)
    (_type : string) (r : record_dict) (rest : list record_dict) :
  (forall x e, f x = inl e -> e = ValueError) ->
  (exists values,
      (let! values := for_append f (r :: rest) in
       let! record := first_record (r :: rest) in
       inr (DataValues (lr_ttl record) _type values))
      = inr (DataValues (lr_ttl r) _type values)
      /\ length values = length (r :: rest))
  \/ (let! values := for_append f (r :: rest) in
      let! record := first_record (r :: rest) in
      inr (DataValues (lr_ttl record) _type values)) = inl ValueError.
Proof.
  intros Hf.
  destruct (for_append f (r :: rest)) as [e|values] eqn:Hfor.
  - right. now rewrite (for_append_raises f _ e ValueError Hf Hfor).
  - left. exists values. split; [reflexivity|].
    now apply for_append_length in Hfor.
Qed.

(** X7.  Whatever decoder the dispatch returns for a type: on an empty
    group it raises [IndexError]; on a non-empty group it takes the ttl
    from the first record alone; ALIAS and CNAME return the content of the
    first record and ignore the others; the other types return one value
    per record or, for CAA, MX and SRV only, raise [ValueError]. *)
Theorem decoder_outcomes (t : string)
    (g : string -> list record_dict -> exn + data)
    (_type : string) (lexicon_records : list record_dict) :
  _data_func t = inr g ->
  decoder_outcome t g _type lexicon_records.
Proof.
  intros Hg. unfold _data_func in Hg.
  repeat (destruct (decide (t = _)) as [->|_];
          [injection Hg as <-;
           destruct lexicon_records as [|r rest];
           [reflexivity|]; unfold decoder_outcome | ]);
    try discriminate Hg.
  - left. exists (map (fun r => Str (re_sub_semicolon (lr_content r)))
                   (r :: rest)).
    split; [reflexivity | now rewrite length_map].
  - left. exists (map (fun r => Str (re_sub_semicolon (lr_content r)))
                   (r :: rest)).
    split; [reflexivity | now rewrite length_map].
  - reflexivity.
  - destruct (collecting_decoder_outcome caa_of_content _type r rest
                caa_of_content_raises) as [H|H]; [now left|].
    right. split; [|exact H].
    repeat (first [apply list_elem_of_here | apply list_elem_of_further]).
  - reflexivity.
  - destruct (collecting_decoder_outcome mx_of_content _type r rest
                mx_of_content_raises) as [H|H]; [now left|].
    right. split; [|exact H].
    repeat (first [apply list_elem_of_here | apply list_elem_of_further]).
  - left. exists (map (fun r => Str (re_sub_semicolon (lr_content r)))
                   (r :: rest)).
    split; [reflexivity | now rewrite length_map].
  - destruct (collecting_decoder_outcome srv_of_content _type r rest
                srv_of_content_raises) as [H|H]; [now left|].
    right. split; [|exact H].
    repeat (first [apply list_elem_of_here | apply list_elem_of_further]).
  - left. exists (map (fun r => Str (re_sub_semicolon (lr_content r)))
                   (r :: rest)).
    split; [reflexivity | now rewrite length_map].
  - left. exists (map (fun r => Str (re_sub_semicolon (lr_content r)))
                   (r :: rest)).
    split; [reflexivity | now rewrite length_map].
Qed.

(** Two CNAME records listed under one name: the second is ignored, and
    the ttl is that of the first. *)
Lemma decoder_outcomes_witness :
  _data_for_CNAME "CNAME"
    [ {| lr_content := "a.example.net."; lr_type := "CNAME";
         lr_name := "www"; lr_ttl := 300; lr_id := Some "1" |};
      {| lr_content := "b.example.net."; lr_type := "CNAME";
         lr_name := "www"; lr_ttl := 60; lr_id := Some "2" |} ]
  = inr (DataValue 300 "CNAME" "a.example.net.").
Proof.
  exact (decoder_outcomes "CNAME" _data_for_CNAME "CNAME"
           [ {| lr_content := "a.example.net."; lr_type := "CNAME";
                lr_name := "www"; lr_ttl := 300; lr_id := Some "1" |};
             {| lr_content := "b.example.net."; lr_type := "CNAME";
                lr_name := "www"; lr_ttl := 60; lr_id := Some "2" |} ]
           eq_refl).
Defined.

(** ** Semicolons in the simple types *)

Lemma re_sub_semicolon_length (s : string) :
  String.length (re_sub_semicolon s)
  = (String.length s + count_char ";" s)%nat.
Proof.
  induction s as [|c s IH]; [reflexivity|].
  cbn [re_sub_semicolon count_char]. rewrite (Ascii.eqb_sym ";" c).
  destruct (c =? ";")%char; simpl; rewrite IH; lia.
Qed.

Lemma count_char_none (c : ascii) (s : string) :
  count_char c s = O <-> char_in c s = false.
Proof.
  induction s as [|d s IH]; [easy|].
  cbn [count_char char_in]. destruct (c =? d)%char; simpl; [easy|exact IH].
Qed.

Lemma re_sub_semicolon_pieces (s : string) :
  exists piece pieces,
    Forall (fun p => char_in ";" p = false) (piece :: pieces)
    /\ s = String.concat ";" (piece :: pieces)
    /\ re_sub_semicolon s = String.concat "\;" (piece :: pieces).
Proof.
  induction s as [|c s (piece & pieces & Hfree & Hs & Hv)].
  - exists EmptyString, []. split; [|split; reflexivity].
    now constructor.
  - cbn [re_sub_semicolon]. destruct (c =? ";")%char eqn:Hc.
    + apply Ascii.eqb_eq in Hc as ->.
      exists EmptyString, (piece :: pieces). split; [|split].
      * now constructor.
      * transitivity (String ";" (String.concat ";" (piece :: pieces)));
          [now rewrite <- Hs | reflexivity].
      * transitivity
          (String backslash
             (String ";" (String.concat "\;" (piece :: pieces))));
          [now rewrite <- Hv | reflexivity].
    + exists (String c piece), pieces.
      apply Forall_cons in Hfree as [Hpiece Hpieces]. split; [|split].
      * constructor; [|exact Hpieces]. cbn [char_in].
        now rewrite Ascii.eqb_sym, Hc, Hpiece.
      * rewrite Hs. destruct pieces as [|q qs]; reflexivity.
      * rewrite Hv. destruct pieces as [|q qs]; reflexivity.
Qed.

(** X8.  The decoder of A, AAAA, NS and TXT never fails on a non-empty
    group, and returns each content with one backslash put before every
    semicolon and nothing else changed: cut at its semicolons, the content
    is its pieces joined by a semicolon, and the value is the same pieces
    joined by a backslash and a semicolon.  So the value is one character
    longer per semicolon, and is the content itself exactly when the
    content holds no semicolon. *)
Theorem simple_values_escape_semicolons (_type : string)
    (r : record_dict) (rest : list record_dict) :
  exists values,
    _data_for_multiple _type (r :: rest)
    = inr (DataValues (lr_ttl r) _type (map Str values))
    /\ Forall2
         (fun record value =>
            (exists pieces,
                Forall (fun p => char_in ";" p = false) pieces
                /\ lr_content record = String.concat ";" pieces
                /\ value = String.concat "\;" pieces)
            /\ String.length value
               = (String.length (lr_content record)
                  + count_char ";" (lr_content record))%nat
            /\ (value = lr_content record
                <-> char_in ";" (lr_content record) = false))
         (r :: rest) values.
Proof.
  exists (map (fun record => re_sub_semicolon (lr_content record)) (r :: rest)).
  split.
  - unfold _data_for_multiple. simpl. now rewrite map_map.
  - apply Forall2_fmap_r, Forall_Forall2_diag, Forall_forall.
    intros record _. split; [|split; [apply re_sub_semicolon_length|split]].
    + destruct (re_sub_semicolon_pieces (lr_content record))
        as (piece & pieces & Hfree & Hs & Hv).
      now exists (piece :: pieces).
    + intros Heq. apply count_char_none.
      pose proof (re_sub_semicolon_length (lr_content record)) as Hlen.
      rewrite Heq in Hlen. lia.
    + apply re_sub_semicolon_none.
Qed.
(** ** Encoders: what a set of flat records holds *)

Lemma size_list_to_set_le (l : list LexiconRecord) :
  (size (list_to_set l : gset LexiconRecord) <= length l)%nat.
Proof.
  induction l as [|x l IH].
  - rewrite list_to_set_nil, size_empty. simpl. lia.
  - rewrite list_to_set_cons, size_union_alt, size_singleton. simpl.
    pose proof (subseteq_size (list_to_set l ∖ {[x]})
                  (list_to_set l : gset LexiconRecord)) as Hle.
    assert (list_to_set l ∖ {[x]} ⊆ (list_to_set l : gset LexiconRecord))
      as Hsub by (intros z Hz; apply elem_of_difference in Hz; tauto).
    specialize (Hle Hsub). lia.
Qed.

Lemma elem_of_rrset_of {A} (octodns_record : octodns.record)
    (content_of : A -> string) (values : list A) (flat : LexiconRecord) :
  flat ∈ rrset_of octodns_record content_of values
  <-> content flat ∈ map content_of values
      /\ ttl flat = octodns.ttl octodns_record
      /\ rtype flat = octodns._type octodns_record
      /\ name flat = octodns.fqdn octodns_record.
Proof.
  unfold rrset_of. rewrite elem_of_list_to_set, list_elem_of_fmap. split.
  - intros (c & -> & Hc). simpl. repeat split.
    apply list_elem_of_fmap. now exists c.
  - intros (Hc & Httl & Htype & Hname).
    apply list_elem_of_fmap in Hc as (c & Hc & Hin). exists c.
    split; [|assumption]. destruct flat; simpl in *. congruence.
Qed.

Lemma size_rrset_of {A} (octodns_record : octodns.record)
    (content_of : A -> string) (values : list A) :
  (size (rrset_of octodns_record content_of values) <= length values)%nat.
Proof.
  unfold rrset_of. etransitivity; [apply size_list_to_set_le|].
  now rewrite length_map.
Qed.

(** X9.  When an encoder of the dispatch returns a set for a record, the
    set holds exactly the flat records that carry the ttl, the type and
    the fqdn of the record and whose content is the encoding of one of its
    values; equal encodings collapse, so the set has at most as many
    elements as the record has values. *)
Theorem encoded_set_contents
    (t : string) (f : octodns.record -> exn + gset LexiconRecord)
    (octodns_record : octodns.record) (s : gset LexiconRecord) :
  _rrset_func t = inr f ->
  f octodns_record = inr s ->
  (forall flat,
      flat ∈ s
      <-> content flat ∈ contents_of (octodns.data octodns_record)
          /\ ttl flat = octodns.ttl octodns_record
          /\ rtype flat = octodns._type octodns_record
          /\ name flat = octodns.fqdn octodns_record)
  /\ (size s <= length (contents_of (octodns.data octodns_record)))%nat.
Proof.
  intros Hf Hs. unfold _rrset_func in Hf.
  repeat (destruct (decide (t = _)) as [->|_];
          [injection Hf as <- | ]);
    try discriminate Hf;
    cbv delta [_rrset_for_A _rrset_for_AAAA _rrset_for_ALIAS _rrset_for_NS
               _rrset_for_TXT _rrset_for_multiple _rrset_for_CAA
               _rrset_for_CNAME _rrset_for_MX _rrset_for_SRV] in Hs;
    cbv beta in Hs;
    destruct (octodns.data octodns_record) as [vs|v|vs|vs|vs];
    try discriminate Hs; injection Hs as <-; unfold contents_of;
    (split;
     [ intros flat; rewrite elem_of_rrset_of, ?map_id; reflexivity
     | etransitivity; [apply size_rrset_of|];
       rewrite ?length_map; reflexivity ]).
Qed.

(** A record with the same address twice has one flat record. *)
Lemma encoded_set_contents_witness :
  let octodns_record := a_record ["192.0.2.1"; "192.0.2.1"] in
  let s := rrset_of octodns_record (fun c => c) ["192.0.2.1"; "192.0.2.1"] in
  (forall flat,
      flat ∈ s
      <-> content flat ∈ ["192.0.2.1"; "192.0.2.1"]
          /\ ttl flat = 300
          /\ rtype flat = "A"
          /\ name flat = "www.example.com.")
  /\ (size s <= 2)%nat.
Proof.
  intros octodns_record s.
  exact (encoded_set_contents "A" _rrset_for_A octodns_record s
           eq_refl eq_refl).
Defined.

(** ** Harmonisation: what it changes, when it fails *)

Lemma last_char_append (s t : string) (c : ascii) :
  last_char t = inr c -> last_char (s +:+ t) = inr c.
Proof.
  intros Ht. induction s as [|x s IH]; [exact Ht|].
  rewrite append_cons. cbn [last_char]. rewrite IH.
  destruct (s +:+ t) eqn:Hst; [|reflexivity].
  destruct s; [|discriminate]. rewrite append_nil_l in Hst. subst t.
  discriminate.
Qed.


(** X10.  Harmonisation leaves every record of a type other than CNAME,
    MX and NS as it is; for these three it changes nothing but the
    content, and only by appending: nothing, a dot, or a dot and the zone
    name. *)
Theorem harmonize_only_appends (zone_name : string) (r r' : record_dict) :
  harmonize zone_name r = inr r' ->
  exists suffix,
    r' = with_content r (lr_content r +:+ suffix)
    /\ (suffix = EmptyString \/ suffix = "." \/ suffix = "." +:+ zone_name)
    /\ (lr_type r ∉ ["CNAME"; "MX"; "NS"] -> suffix = EmptyString).
Proof.
  unfold harmonize. intros H.
  assert (Hsame : r = with_content r (lr_content r +:+ EmptyString)).
  { rewrite append_nil_r. now destruct r. }
  destruct (bool_decide (lr_type r ∈ ["CNAME"; "MX"; "NS"])) eqn:Htype.
  - apply bool_decide_eq_true_1 in Htype.
    destruct (last_char (lr_content r)) as [e|final]; [discriminate|].
    simpl in H. destruct (negb (final =? ".")%char).
    + destruct (shlex_split (lr_content r)) as [e|tokens]; [discriminate|].
      simpl in H. destruct (last_item tokens) as [e|domain_part];
        [discriminate|]. simpl in H.
      destruct (char_in "." domain_part); injection H as <-.
      * exists ".". split; [reflexivity|]. split; [tauto|].
        intros Hn. contradiction.
      * exists ("." +:+ zone_name). split; [reflexivity|]. split; [tauto|].
        intros Hn. contradiction.
    + injection H as <-. exists EmptyString. split; [exact Hsame|].
      split; [tauto|]. reflexivity.
  - injection H as <-. exists EmptyString. split; [exact Hsame|].
    split; [tauto|]. reflexivity.
Qed.

Lemma harmonize_only_appends_witness :
  exists suffix,
    {| lr_content := "10 mail.example.com."; lr_type := "MX";
       lr_name := "example.com"; lr_ttl := 300; lr_id := Some "3" |}
    = with_content
        {| lr_content := "10 mail"; lr_type := "MX";
           lr_name := "example.com"; lr_ttl := 300; lr_id := Some "3" |}
        ("10 mail" +:+ suffix)
    /\ (suffix = EmptyString \/ suffix = "." \/ suffix = "." +:+ "example.com.")
    /\ (lr_type {| lr_content := "10 mail"; lr_type := "MX";
                   lr_name := "example.com"; lr_ttl := 300;
                   lr_id := Some "3" |} ∉ ["CNAME"; "MX"; "NS"]
        -> suffix = EmptyString).
Proof.
  apply (harmonize_only_appends "example.com."
           {| lr_content := "10 mail"; lr_type := "MX";
              lr_name := "example.com"; lr_ttl := 300; lr_id := Some "3" |}).
  reflexivity.
Defined.

(** X11.  With a zone name that ends in a dot (as the names of octodns
    zones do), the content of a harmonised CNAME, MX or NS record ends in a
    dot, and harmonising it again changes nothing. *)
Theorem harmonize_is_idempotent (zone : string) (r r' : record_dict) :
  lr_type r ∈ ["CNAME"; "MX"; "NS"] ->
  harmonize (zone +:+ ".") r = inr r' ->
  last_char (lr_content r') = inr "."%char
  /\ harmonize (zone +:+ ".") r' = inr r'.
Proof.
  intros Htype H.
  assert (Hboth : last_char (lr_content r') = inr "."%char
                  /\ lr_type r' = lr_type r).
  { unfold harmonize in H. rewrite (bool_decide_eq_true_2 _ Htype) in H.
    destruct (last_char (lr_content r)) as [e|final] eqn:Hfinal;
      [discriminate|]. simpl in H.
    destruct (final =? ".")%char eqn:Hdot; simpl in H.
    - injection H as <-. apply Ascii.eqb_eq in Hdot. now subst final.
    - destruct (shlex_split (lr_content r)) as [e|tokens]; [discriminate|].
      simpl in H. destruct (last_item tokens) as [e|domain_part];
        [discriminate|]. simpl in H.
      destruct (char_in "." domain_part); injection H as <-; simpl;
        (split; [|reflexivity]).
      + now apply last_char_append.
      + apply last_char_append, last_char_append, last_char_snoc. }
  destruct Hboth as [Hlast Htype']. split; [exact Hlast|].
  rewrite <- Htype' in Htype.
  unfold harmonize. rewrite (bool_decide_eq_true_2 _ Htype), Hlast.
  reflexivity.
Qed.

(** A bare label is completed once. *)
Lemma harmonize_is_idempotent_witness :
  let r := {| lr_content := "foo"; lr_type := "CNAME"; lr_name := "www";
              lr_ttl := 300; lr_id := Some "12" |} in
  let r' := {| lr_content := "foo.example.com."; lr_type := "CNAME";
               lr_name := "www"; lr_ttl := 300; lr_id := Some "12" |} in
  last_char (lr_content r') = inr "."%char
  /\ harmonize ("example.com" +:+ ".") r' = inr r'.
Proof.
  intros r r'.
  apply (harmonize_is_idempotent "example.com" r r').
  - apply list_elem_of_here.
  - reflexivity.
Defined.



(** ** The apply loop as a plan of calls *)

Lemma answers_like_refl ids : answers_like ids ids.
Proof. intros key content. now split. Qed.

Lemma answers_like_trans ids0 ids1 ids2 :
  answers_like ids0 ids1 -> answers_like ids1 ids2 -> answers_like ids0 ids2.
Proof.
  intros H1 H2 key content.
  destruct (H1 key content) as [Ha Hb], (H2 key content) as [Hc Hd].
  split; congruence.
Qed.

Section plans.

Variable record_repr : octodns.record -> string.
Variable Provider : Type.
Variable provider_do :
  provider_call -> Z -> Provider -> (exn + bool) * Provider.

Lemma answers_like_get ids0 ids existing content :
  answers_like ids0 ids ->
  fst (RememberedIds.get (repr record_repr) ids existing content)
  = fst (RememberedIds.get (repr record_repr) ids0 existing content)
  /\ answers_like ids0
       (snd (RememberedIds.get (repr record_repr) ids existing content)).
Proof.
  intros H. split.
  - rewrite !ids_facts.get_fst. apply H.
  - intros key content'.
    rewrite ids_facts.get_snd_id_of, ids_facts.get_snd_ids_of. apply H.
Qed.

Lemma answers_like_has_unique_ids ids0 ids existing :
  answers_like ids0 ids ->
  fst (RememberedIds.has_unique_ids (repr record_repr) ids existing)
  = fst (RememberedIds.has_unique_ids (repr record_repr) ids0 existing)
  /\ answers_like ids0
       (snd (RememberedIds.has_unique_ids (repr record_repr) ids existing)).
Proof.
  intros H. split.
  - rewrite !ids_facts.has_unique_ids_fst.
    now rewrite (proj2 (H (repr record_repr existing) EmptyString)).
  - intros key content.
    rewrite ids_facts.has_unique_ids_snd_id_of,
      ids_facts.has_unique_ids_snd_ids_of. apply H.
Qed.

Lemma runs_plan_ret {A} (a : A) ids0 :
  runs_plan (ret a : M Provider A) ids0 [] (fun x => x = a).
Proof.
  intros w Hw. exists []. simpl. rewrite app_nil_r.
  split; [reflexivity|]. split; [assumption|]. split; [reflexivity|].
  split; [reflexivity|]. split; [apply Forall_nil_2 | reflexivity].
Qed.

Lemma runs_plan_with_ids {A} (f : RememberedIds.t -> A * RememberedIds.t)
    ids0 (a0 : A) :
  (forall ids, answers_like ids0 ids ->
               fst (f ids) = a0 /\ answers_like ids0 (snd (f ids))) ->
  runs_plan (with_ids f : M Provider A) ids0 [] (fun x => x = a0).
Proof.
  intros Hf w Hw. exists []. unfold with_ids.
  destruct (Hf _ Hw) as [Hfst Hsnd].
  destruct (f (remembered_ids w)) as [a ids']. simpl in *.
  rewrite app_nil_r.
  split; [reflexivity|]. split; [assumption|]. split; [reflexivity|].
  split; [reflexivity|]. split; [apply Forall_nil_2 | assumption].
Qed.

Lemma runs_plan_weaken {A} (m : M Provider A) ids0 plan (Q Q' : A -> Prop) :
  (forall a, Q a -> Q' a) -> runs_plan m ids0 plan Q -> runs_plan m ids0 plan Q'.
Proof.
  intros HQ Hm w Hw. destruct (Hm w Hw) as (calls & Hj & Hids & Hpre & Hres).
  exists calls. split; [assumption|]. split; [assumption|].
  split; [assumption|].
  destruct (fst (m w)); [assumption|].
  destruct Hres as (? & ? & ?). auto.
Qed.

Lemma runs_plan_and_then {A B} (m : M Provider A) (k : A -> M Provider B)
    ids0 plan1 plan2 (Q : A -> Prop) (Q' : B -> Prop) :
  runs_plan m ids0 plan1 Q ->
  (forall a, Q a -> runs_plan (k a) ids0 plan2 Q') ->
  runs_plan (and_then m k) ids0 (plan1 ++ plan2) Q'.
Proof.
  intros Hm Hk w Hw. unfold and_then.
  destruct (Hm w Hw) as (calls1 & Hj1 & Hids1 & Hpre1 & Hres1).
  destruct (m w) as [[e|a] w1]; simpl in *.
  - exists calls1. split; [assumption|]. split; [assumption|].
    split; [now apply prefix_app_r | assumption].
  - destruct Hres1 as (Hplan1 & Hok1 & Ha).
    destruct (Hk a Ha w1 Hids1) as (calls2 & Hj2 & Hids2 & Hpre2 & Hres2).
    exists (calls1 ++ calls2). split; [now rewrite Hj2, Hj1, app_assoc|].
    split; [assumption|]. rewrite map_app, Hplan1.
    split; [now apply prefix_app|].
    destruct (fst (k a w1)).
    + destruct Hres2 as (pre & failed & -> & Hpre & Hfailed).
      exists (calls1 ++ pre), failed. split; [now rewrite app_assoc|].
      split; [now apply Forall_app | assumption].
    + destruct Hres2 as (Hplan2 & Hok2 & Hb).
      split; [now rewrite Hplan2|]. split; [now apply Forall_app | assumption].
Qed.

(** A provider call whose false flag is answered by raising *)
Lemma runs_plan_checked {A} (c : provider_call) (e : exn) (k : M Provider A)
    ids0 plan (Q : A -> Prop) :
  runs_plan k ids0 plan Q ->
  runs_plan (and_then (call provider_do c)
               (fun ok => if negb ok then throw e else k))
    ids0 (c :: plan) Q.
Proof.
  intros Hk w Hw. unfold and_then, call.
  destruct (provider_do c (config_ttl w) (provider w)) as [[e'|[|]] p'];
    cbn [negb].
  - exists [(c, inl e')]. simpl. split; [reflexivity|].
    split; [assumption|]. split; [apply (prefix_cons c []), prefix_nil|].
    exists [], (c, inl e'). split; [reflexivity|].
    split; [apply Forall_nil_2|]. unfold succeeded. simpl. discriminate.
  - destruct (Hk {| remembered_ids := remembered_ids w;
                    config_ttl := config_ttl w; provider := p';
                    journal := journal w ++ [(c, inr true)] |} Hw)
      as (calls & Hj & Hids & Hpre & Hres).
    exists ((c, inr true) :: calls). cbn [journal] in Hj.
    split; [now rewrite Hj, <- app_assoc|]. split; [assumption|].
    split; [now apply prefix_cons|].
    destruct (fst (k _)).
    + destruct Hres as (pre & failed & -> & Hpre' & Hfailed).
      exists ((c, inr true) :: pre), failed. split; [reflexivity|].
      split; [|assumption]. apply Forall_cons. now split.
    + destruct Hres as (Hplan & Hok & Ha). simpl. rewrite Hplan.
      split; [reflexivity|]. split; [|assumption].
      apply Forall_cons. now split.
  - exists [(c, inr false)]. simpl. split; [reflexivity|].
    split; [assumption|]. split; [apply (prefix_cons c []), prefix_nil|].
    exists [], (c, inr false). split; [reflexivity|].
    split; [apply Forall_nil_2|]. unfold succeeded. simpl. discriminate.
Qed.

Lemma paired_loop_runs_plan ids0 existing n :
  forall additions_iter deletions_iter,
    (n <= length additions_iter)%nat ->
    (n <= length deletions_iter)%nat ->
    runs_plan
      (paired_loop record_repr Provider provider_do n existing
         additions_iter deletions_iter)
      ids0
      (flat_map (pair_calls record_repr ids0 existing)
         (zip (take n additions_iter) (take n deletions_iter)))
      (fun rest => rest = (drop n additions_iter, drop n deletions_iter)).
Proof.
  induction n as [|n IH]; intros additions_iter deletions_iter Ha Hd.
  - apply runs_plan_ret.
  - destruct additions_iter as [|new_record a']; [simpl in Ha; lia|].
    destruct deletions_iter as [|old_record d']; [simpl in Hd; lia|].
    simpl in Ha, Hd.
    change (paired_loop record_repr Provider provider_do (S n) existing
              (new_record :: a') (old_record :: d'))
      with (and_then
              (with_ids (fun ids =>
                 RememberedIds.get (repr record_repr) ids existing
                   (content old_record)))
              (fun identifier =>
                 and_then
                   (if truthy identifier
                    then with_ids (fun ids =>
                           RememberedIds.has_unique_ids (repr record_repr)
                             ids existing)
                    else ret false)
                   (fun unique =>
                      and_then
                        (if truthy identifier && unique then
                           and_then
                             (call provider_do
                                (update_record identifier
                                   (func_args new_record)))
                             (fun ok =>
                                if negb ok
                                then throw (RecordUpdateError new_record
                                              identifier)
                                else ret tt)
                         else
                           and_then
                             (call provider_do
                                (create_record (func_args new_record)))
                             (fun ok =>
                                if negb ok
                                then throw (RecordCreateError new_record None)
                                else
                                  and_then
                                    (call provider_do
                                       (delete_record Omitted
                                          (func_args old_record)))
                                    (fun ok' =>
                                       if negb ok'
                                       then throw (RecordDeleteError
                                                     old_record None)
                                       else ret tt)))
                        (fun _ =>
                           paired_loop record_repr Provider provider_do n
                             existing a' d')))).
    cbn [take zip zip_with flat_map drop].
    set (identifier0 := fst (RememberedIds.get (repr record_repr) ids0 existing
                               (content old_record))).
    set (unique0 := fst (RememberedIds.has_unique_ids (repr record_repr) ids0
                           existing)).
    apply (runs_plan_and_then _ _ ids0 [] _ (fun i => i = identifier0)).
    { apply runs_plan_with_ids. intros ids Hids.
      now apply answers_like_get. }
    intros identifier ->.
    apply (runs_plan_and_then _ _ ids0 [] _
             (fun u => truthy identifier0 && u
                       = truthy identifier0 && unique0)).
    { destruct (truthy identifier0).
      - eapply runs_plan_weaken;
          [|apply (runs_plan_with_ids _ ids0 unique0); intros ids Hids;
            now apply answers_like_has_unique_ids].
        now intros u ->.
      - eapply runs_plan_weaken; [|apply runs_plan_ret]. now intros u ->. }
    intros unique Hunique. rewrite Hunique. cbn [app].
    apply (runs_plan_and_then _ _ ids0 _ _ (fun _ => True));
      [|intros _ _; apply IH; lia].
    unfold pair_calls. cbn [fst snd]. fold identifier0 unique0.
    destruct (truthy identifier0 && unique0).
    + apply runs_plan_checked.
      eapply runs_plan_weaken; [|apply runs_plan_ret]. easy.
    + apply runs_plan_checked, runs_plan_checked.
      eapply runs_plan_weaken; [|apply runs_plan_ret]. easy.
Qed.

Lemma create_loop_runs_plan ids0 additions_iter :
  runs_plan (create_loop Provider provider_do additions_iter) ids0
    (map (fun new_record => create_record (func_args new_record))
       additions_iter)
    (fun _ => True).
Proof.
  induction additions_iter as [|new_record rest IH]; simpl.
  - eapply runs_plan_weaken; [|apply runs_plan_ret]. easy.
  - apply runs_plan_checked, IH.
Qed.

Lemma delete_loop_runs_plan ids0 existing deletions_iter :
  runs_plan (delete_loop record_repr Provider provider_do existing
               deletions_iter) ids0
    (map (bare_delete record_repr ids0 existing) deletions_iter)
    (fun _ => True).
Proof.
  induction deletions_iter as [|old_record rest IH]; simpl.
  - eapply runs_plan_weaken; [|apply runs_plan_ret]. easy.
  - apply (runs_plan_and_then _ _ ids0 [] _
             (fun i => i = fst (RememberedIds.get (repr record_repr) ids0
                                  existing (content old_record)))).
    { apply runs_plan_with_ids. intros ids Hids.
      now apply answers_like_get. }
    intros identifier ->. apply runs_plan_checked, IH.
Qed.

(** C9.  Whatever the memory holds and whatever the provider does.
    The loop over the paired additions and deletions never passes an
    [identifier] to [delete_record]; it makes, pair by pair and as long as
    the calls return a true flag, an update when the identifier of the old
    content is known and unique, and otherwise a create followed by a
    delete without identifier, also when the memory holds an identifier
    for the old content.  The loop over the unpaired deletions makes, one
    per flat record left and as long as the calls return a true flag, a
    [delete_record] that passes what [get] returns for the content of the
    record.  Either loop returns normally exactly after all these calls,
    and otherwise raises right after the first call that did not return a
    true flag. *)
Theorem only_unpaired_deletes_pass_identifier
    (n : nat) (existing : option octodns.record)
    (additions_iter deletions_iter : list LexiconRecord)
    (w : world Provider) :
  let paired :=
    paired_loop record_repr Provider provider_do n existing
      additions_iter deletions_iter in
  let unpaired :=
    delete_loop record_repr Provider provider_do existing deletions_iter in
  let pair_plan :=
    flat_map (pair_calls record_repr (remembered_ids w) existing)
      (zip (take n additions_iter) (take n deletions_iter)) in
  let delete_plan :=
    map (fun old_record =>
           delete_record
             (Passed (fst (RememberedIds.get (repr record_repr)
                             (remembered_ids w) existing
                             (content old_record))))
             (func_args old_record))
      deletions_iter in
  Forall (fun entry => deletes_without_identifier (fst entry))
    (issued paired w)
  /\ Forall (fun entry =>
               exists old_record,
                 old_record ∈ deletions_iter
                 /\ fst entry
                    = delete_record
                        (Passed (fst (RememberedIds.get (repr record_repr)
                                        (remembered_ids w) existing
                                        (content old_record))))
                        (func_args old_record))
       (issued unpaired w)
  /\ ((n <= length additions_iter)%nat ->
      (n <= length deletions_iter)%nat ->
      map fst (issued paired w) `prefix_of` pair_plan
      /\ match fst (paired w) with
         | inr _ =>
             map fst (issued paired w) = pair_plan
             /\ Forall succeeded (issued paired w)
         | inl _ =>
             exists pre failed,
               issued paired w = pre ++ [failed]
               /\ Forall succeeded pre /\ ~ succeeded failed
         end)
  /\ map fst (issued unpaired w) `prefix_of` delete_plan
  /\ match fst (unpaired w) with
     | inr _ =>
         map fst (issued unpaired w) = delete_plan
         /\ Forall succeeded (issued unpaired w)
     | inl _ =>
         exists pre failed,
           issued unpaired w = pre ++ [failed]
           /\ Forall succeeded pre /\ ~ succeeded failed
     end.
Proof.
  intros paired unpaired pair_plan delete_plan.
  destruct (delete_calls_shape record_repr Provider provider_do n existing
              additions_iter deletions_iter w) as [Hnever Halways].
  split; [exact Hnever|]. split; [exact Halways|]. split.
  - intros Ha Hd.
    destruct (paired_loop_runs_plan (remembered_ids w) existing n
                additions_iter deletions_iter Ha Hd w (answers_like_refl _))
      as (calls & Hj & _ & Hprefix & Hres).
    unfold paired. rewrite (issued_of_journal Provider _ _ _ Hj).
    split; [exact Hprefix|].
    destruct (fst _); [exact Hres|]. destruct Hres as (Hplan & Hok & _).
    now split.
  - destruct (delete_loop_runs_plan (remembered_ids w) existing
                deletions_iter w (answers_like_refl _))
      as (calls & Hj & _ & Hprefix & Hres).
    unfold unpaired. rewrite (issued_of_journal Provider _ _ _ Hj).
    split; [exact Hprefix|].
    destruct (fst _); [exact Hres|]. destruct Hres as (Hplan & Hok & _).
    now split.
Qed.

Lemma sorted_length (s : gset LexiconRecord) : length (sorted s) = size s.
Proof.
  unfold sorted. now rewrite (merge_sort_Permutation le_LexiconRecord).
Qed.

Lemma reconcile_runs_plan ids0 existing additions deletions :
  runs_plan (reconcile record_repr Provider provider_do existing
               additions deletions) ids0
    (planned_calls record_repr ids0 existing (sorted additions)
       (sorted deletions))
    (fun _ => True).
Proof.
  unfold reconcile, planned_calls. rewrite <- !sorted_length.
  eapply runs_plan_and_then.
  - apply paired_loop_runs_plan; lia.
  - intros rest ->. cbn [fst snd]. eapply runs_plan_and_then.
    + apply create_loop_runs_plan.
    + intros _ _. apply delete_loop_runs_plan.
Qed.

Lemma apply_change_runs_plan change rrset old_vars new_vars ids0 :
  _rrset_func (octodns._type (octodns.record_of change)) = inr rrset ->
  vars_of rrset (octodns.existing_of change) = inr old_vars ->
  vars_of rrset (octodns.new_of change) = inr new_vars ->
  runs_plan (apply_change record_repr Provider provider_do change) ids0
    (planned_calls record_repr ids0 (octodns.existing_of change)
       (sorted (new_vars ∖ old_vars)) (sorted (old_vars ∖ new_vars)))
    (fun _ => True).
Proof.
  intros Hf Hold Hnew w Hw.
  rewrite (apply_change_reconcile record_repr Provider provider_do _ _ _ _ w
             Hf Hold Hnew).
  exact (reconcile_runs_plan ids0 (octodns.existing_of change)
           (new_vars ∖ old_vars) (old_vars ∖ new_vars)
           {| remembered_ids := remembered_ids w;
              config_ttl := octodns.ttl (octodns.record_of change);
              provider := provider w; journal := journal w |} Hw).
Qed.

(** X13.  Once the encoders have returned the two sets of a change, the
    loop body makes the calls of a fixed plan, in order: for the first
    additions and deletions of the sorted sets, pair by pair, an update
    (identifier known and unique) or a create followed by a delete without
    identifier; then a create per addition left over; then a delete that
    passes the remembered identifier per deletion left over.  It returns
    normally exactly after the whole plan with every call accepted, and
    otherwise raises right after the first call that did not return a true
    flag: no other error can arise. *)
Theorem change_follows_its_plan
    (change : octodns.Change)
    (rrset : octodns.record -> exn + gset LexiconRecord)
    (old_vars new_vars : gset LexiconRecord) (w : world Provider) :
  _rrset_func (octodns._type (octodns.record_of change)) = inr rrset ->
  vars_of rrset (octodns.existing_of change) = inr old_vars ->
  vars_of rrset (octodns.new_of change) = inr new_vars ->
  let run := apply_change record_repr Provider provider_do change in
  let plan :=
    planned_calls record_repr (remembered_ids w) (octodns.existing_of change)
      (sorted (new_vars ∖ old_vars)) (sorted (old_vars ∖ new_vars)) in
  map fst (issued run w) `prefix_of` plan
  /\ match fst (run w) with
     | inr _ => map fst (issued run w) = plan /\ Forall succeeded (issued run w)
     | inl e =>
         exists pre failed,
           issued run w = pre ++ [failed]
           /\ Forall succeeded pre /\ ~ succeeded failed
     end.
Proof.
  intros Hf Hold Hnew run plan. subst run plan.
  destruct (apply_change_runs_plan change rrset old_vars new_vars
              (remembered_ids w) Hf Hold Hnew w (answers_like_refl _))
    as (calls & Hj & _ & Hprefix & Hres).
  rewrite (issued_of_journal Provider _ _ _ Hj).
  split; [exact Hprefix|].
  destruct (fst _); [exact Hres|]. destruct Hres as (Hplan & Hok & _).
  now split.
Qed.

(** ** Counting the calls of a change *)

Lemma tally_app (p : provider_call -> bool) (l l' : list provider_call) :
  length (List.filter p (l ++ l'))
  = (length (List.filter p l) + length (List.filter p l'))%nat.
Proof. now rewrite List.filter_app, length_app. Qed.

Lemma tally_pairs (p : provider_call -> bool) ids existing
    (pairs : list (LexiconRecord * LexiconRecord)) :
  (forall pair,
      length (List.filter p (pair_calls record_repr ids existing pair))
      = 1%nat) ->
  length (List.filter p (flat_map (pair_calls record_repr ids existing) pairs))
  = length pairs.
Proof.
  intros Hp. induction pairs as [|pair pairs IH]; [reflexivity|].
  cbn [flat_map]. rewrite tally_app, Hp, IH. reflexivity.
Qed.

Lemma tally_map {X} (p : provider_call -> bool) (f : X -> provider_call)
    (b : bool) (l : list X) :
  (forall x, p (f x) = b) ->
  length (List.filter p (map f l)) = if b then length l else O.
Proof.
  intros Hf. induction l as [|x l IH]; [now destruct b|].
  simpl. rewrite Hf. destruct b; simpl; now rewrite IH.
Qed.

Lemma planned_calls_tally ids existing additions_iter deletions_iter :
  let plan :=
    planned_calls record_repr ids existing additions_iter deletions_iter in
  length (List.filter writes_value plan) = length additions_iter
  /\ length (List.filter removes_value plan) = length deletions_iter.
Proof.
  unfold planned_calls.
  set (n := Nat.min (length additions_iter) (length deletions_iter)).
  assert (Hzip : length (zip (take n additions_iter) (take n deletions_iter))
                 = n).
  { rewrite length_zip_with, !length_take. lia. }
  rewrite !tally_app.
  rewrite (tally_pairs writes_value), (tally_pairs removes_value), Hzip;
    try (intros pair; unfold pair_calls; now destruct (_ && _)).
  rewrite (tally_map writes_value _ true), (tally_map writes_value _ false),
    (tally_map removes_value _ false), (tally_map removes_value _ true);
    try reflexivity.
  rewrite !length_drop. lia.
Qed.

(** X14.  When the loop body of a change returns normally, it has written
    every added flat value exactly once, by a create or an update, and
    taken away every deleted flat value exactly once, by a delete or by the
    update that replaced it. *)
Theorem every_value_handled_once
    (change : octodns.Change)
    (rrset : octodns.record -> exn + gset LexiconRecord)
    (old_vars new_vars : gset LexiconRecord) (w : world Provider) :
  _rrset_func (octodns._type (octodns.record_of change)) = inr rrset ->
  vars_of rrset (octodns.existing_of change) = inr old_vars ->
  vars_of rrset (octodns.new_of change) = inr new_vars ->
  let run := apply_change record_repr Provider provider_do change in
  fst (run w) = inr tt ->
  length (List.filter writes_value (map fst (issued run w)))
  = size (new_vars ∖ old_vars)
  /\ length (List.filter removes_value (map fst (issued run w)))
     = size (old_vars ∖ new_vars).
Proof.
  intros Hf Hold Hnew run Hrun. subst run.
  destruct (apply_change_runs_plan change rrset old_vars new_vars
              (remembered_ids w) Hf Hold Hnew w (answers_like_refl _))
    as (calls & Hj & _ & _ & Hres).
  rewrite (issued_of_journal Provider _ _ _ Hj).
  rewrite Hrun in Hres. destruct Hres as (-> & _ & _).
  rewrite <- !sorted_length. apply planned_calls_tally.
Qed.




End plans.
(** ** The memory during apply *)

Section apply_and_memory.

Variable record_repr : octodns.record -> string.
Variable Provider : Type.
Variable provider_do :
  provider_call -> Z -> Provider -> (exn + bool) * Provider.

Lemma keeps_answers_quiet {A} (m : M Provider A) :
  (forall w, remembered_ids (snd (m w)) = remembered_ids w) ->
  keeps_answers m.
Proof. intros Hm w. rewrite Hm. apply answers_like_refl. Qed.

Lemma keeps_answers_call c : keeps_answers (call provider_do c).
Proof.
  apply keeps_answers_quiet. intros w. unfold call.
  now destruct (provider_do c (config_ttl w) (provider w)).
Qed.

Lemma keeps_answers_and_then {A B} (m : M Provider A) (k : A -> M Provider B) :
  keeps_answers m -> (forall a, keeps_answers (k a)) ->
  keeps_answers (and_then m k).
Proof.
  intros Hm Hk w. unfold and_then. specialize (Hm w).
  destruct (m w) as [[e|a] w1]; simpl in *; [assumption|].
  eapply answers_like_trans; [exact Hm | apply Hk].
Qed.

Lemma keeps_answers_get existing content :
  keeps_answers
    (with_ids (fun ids =>
       RememberedIds.get (repr record_repr) ids existing content)
     : M Provider _).
Proof.
  intros w. unfold with_ids.
  pose proof (answers_like_get record_repr (remembered_ids w)
                (remembered_ids w) existing content (answers_like_refl _))
    as [_ H].
  now destruct (RememberedIds.get _ _ _ _).
Qed.

Lemma keeps_answers_has_unique_ids existing :
  keeps_answers
    (with_ids (fun ids =>
       RememberedIds.has_unique_ids (repr record_repr) ids existing)
     : M Provider _).
Proof.
  intros w. unfold with_ids.
  pose proof (answers_like_has_unique_ids record_repr (remembered_ids w)
                (remembered_ids w) existing (answers_like_refl _))
    as [_ H].
  now destruct (RememberedIds.has_unique_ids _ _ _).
Qed.

Lemma keeps_answers_checked {A} c e (k : M Provider A) :
  keeps_answers k ->
  keeps_answers (and_then (call provider_do c)
                   (fun ok => if negb ok then throw e else k)).
Proof.
  intros Hk. apply keeps_answers_and_then; [apply keeps_answers_call|].
  intros [|]; simpl; [assumption|]. now apply keeps_answers_quiet.
Qed.

Lemma keeps_answers_paired_loop n existing :
  forall additions_iter deletions_iter,
    keeps_answers (paired_loop record_repr Provider provider_do n existing
                     additions_iter deletions_iter).
Proof.
  induction n as [|n IH]; intros additions_iter deletions_iter; simpl.
  - now apply keeps_answers_quiet.
  - apply keeps_answers_and_then.
    { apply keeps_answers_quiet. intros w. now destruct additions_iter. }
    intros [new_record a']. apply keeps_answers_and_then.
    { apply keeps_answers_quiet. intros w. now destruct deletions_iter. }
    intros [old_record d'].
    apply keeps_answers_and_then; [apply keeps_answers_get|].
    intros identifier. apply keeps_answers_and_then.
    { destruct (truthy identifier);
        [apply keeps_answers_has_unique_ids | now apply keeps_answers_quiet]. }
    intros unique. apply keeps_answers_and_then; [|intros _; apply IH].
    destruct (truthy identifier && unique).
    + apply keeps_answers_checked. now apply keeps_answers_quiet.
    + apply keeps_answers_checked, keeps_answers_checked.
      now apply keeps_answers_quiet.
Qed.

Lemma keeps_answers_create_loop additions_iter :
  keeps_answers (create_loop Provider provider_do additions_iter).
Proof.
  induction additions_iter as [|new_record rest IH]; simpl.
  - now apply keeps_answers_quiet.
  - now apply keeps_answers_checked.
Qed.

Lemma keeps_answers_delete_loop existing deletions_iter :
  keeps_answers (delete_loop record_repr Provider provider_do existing
                   deletions_iter).
Proof.
  induction deletions_iter as [|old_record rest IH]; simpl.
  - now apply keeps_answers_quiet.
  - apply keeps_answers_and_then; [apply keeps_answers_get|].
    intros identifier. now apply keeps_answers_checked.
Qed.

Lemma keeps_answers_apply_change change :
  keeps_answers (apply_change record_repr Provider provider_do change).
Proof.
  unfold apply_change.
  apply keeps_answers_and_then; [now apply keeps_answers_quiet|].
  intros rrset.
  apply keeps_answers_and_then; [now apply keeps_answers_quiet|]. intros _.
  apply keeps_answers_and_then; [now apply keeps_answers_quiet|].
  intros old_vars.
  apply keeps_answers_and_then; [now apply keeps_answers_quiet|].
  intros new_vars.
  apply keeps_answers_and_then; [apply keeps_answers_paired_loop|].
  intros [a' d'].
  apply keeps_answers_and_then; [apply keeps_answers_create_loop|]. intros _.
  apply keeps_answers_delete_loop.
Qed.

Lemma keeps_answers_apply_changes changes :
  keeps_answers (apply_changes record_repr Provider provider_do changes).
Proof.
  induction changes as [|change rest IH]; simpl.
  - now apply keeps_answers_quiet.
  - apply keeps_answers_and_then; [apply keeps_answers_apply_change|].
    intros _. apply IH.
Qed.

(** X16.  [_apply] only reads the identifier memory: whatever the plan and
    whatever the provider does, [get], [get_all_ids] and [has_unique_ids]
    answer afterwards as they did before.  In particular an identifier
    stays remembered under the content it was listed with after that
    content was updated or deleted, and nothing is remembered for a
    created value. *)
Theorem apply_leaves_memory_alone
    (changes : list octodns.Change) (w : world Provider) :
  same_observations (repr record_repr)
    (remembered_ids (snd (_apply record_repr Provider provider_do changes w)))
    (remembered_ids w).
Proof.
  assert (Hkeeps : keeps_answers
                     (_apply record_repr Provider provider_do changes)).
  { unfold _apply.
    apply keeps_answers_and_then; [now apply keeps_answers_quiet|]. intros _.
    apply keeps_answers_and_then; [apply keeps_answers_call|]. intros _.
    apply keeps_answers_apply_changes. }
  intros existing content. specialize (Hkeeps w).
  rewrite !ids_facts.get_fst, !ids_facts.get_all_ids_fst,
    !ids_facts.has_unique_ids_fst.
  destruct (Hkeeps (repr record_repr existing) content) as [Hid Hids].
  rewrite Hid, Hids. repeat split.
Qed.

(** ** [_apply] and [authenticate] *)

Lemma apply_unfolded changes w :
  let w0 := {| remembered_ids := remembered_ids w; config_ttl := 3600;
               provider := provider w; journal := journal w |} in
  _apply record_repr Provider provider_do changes w
  = match answer provider_do authenticate w0 with
    | inl e => (inl e, answered provider_do authenticate w0)
    | inr _ =>
        apply_changes record_repr Provider provider_do changes
          (answered provider_do authenticate w0)
    end.
Proof.
  intros w0. subst w0. unfold _apply, and_then, set_ttl, call, answered, answer.
  cbn [config_ttl provider remembered_ids journal].
  destruct (provider_do authenticate 3600 (provider w)) as [[e|flag] p'];
    reflexivity.
Qed.

(** X17.  [_apply] sets the ttl to 3600 and calls [authenticate] first.
    When that call raises, nothing else is called and the exception is the
    result.  When it returns, whatever the flag, the run goes on with the
    changes of the plan: the calls that follow and the result are those of
    the loop over the changes from the world [authenticate] left.  So a
    false flag of [authenticate] is ignored, whereas a false flag of any
    later call is that of the last call made and raises the error of its
    class. *)
Theorem apply_authenticates_first
    (changes : list octodns.Change) (w : world Provider) :
  let run := _apply record_repr Provider provider_do changes in
  let w0 := {| remembered_ids := remembered_ids w; config_ttl := 3600;
               provider := provider w; journal := journal w |} in
  let outcome := answer provider_do authenticate w0 in
  let w1 := answered provider_do authenticate w0 in
  (exists rest,
      issued run w = (authenticate, outcome) :: rest
      /\ match outcome with
         | inl e => rest = [] /\ fst (run w) = inl e
         | inr _ =>
             rest
             = issued (apply_changes record_repr Provider provider_do changes)
                 w1
             /\ fst (run w)
                = fst (apply_changes record_repr Provider provider_do changes
                         w1)
         end)
  /\ forall pre c post,
       issued run w = pre ++ (c, inr false) :: post ->
       (c = authenticate /\ pre = [])
       \/ (post = [] /\ exists e, fst (run w) = inl e /\ raised_for c e).
Proof.
  intros run w0 outcome w1. subst run outcome w1.
  pose proof (apply_unfolded changes w) as Hrun. cbv zeta in Hrun.
  fold w0 in Hrun.
  assert (Hj0 : journal (answered provider_do authenticate w0)
                = journal w ++ [(authenticate,
                                 answer provider_do authenticate w0)])
    by reflexivity.
  destruct (answer provider_do authenticate w0) as [e|flag] eqn:Hanswer.
  - assert (Hissued : issued (_apply record_repr Provider provider_do changes)
                        w = [(authenticate, inl e)]).
    { apply issued_of_journal. rewrite Hrun. exact Hj0. }
    split.
    + exists []. split; [exact Hissued|].
      split; [reflexivity|]. now rewrite Hrun.
    + intros pre c post Heq. rewrite Hissued in Heq.
      destruct pre as [|x [|y pre]]; discriminate Heq.
  - destruct (fail_stop_apply_changes record_repr Provider provider_do
                changes (answered provider_do authenticate w0))
      as (calls & Hj & Hshape).
    assert (Hissued : issued (_apply record_repr Provider provider_do changes)
                        w = (authenticate, inr flag) :: calls).
    { apply issued_of_journal. rewrite Hrun, Hj, Hj0, <- app_assoc.
      reflexivity. }
    split.
    + exists calls. split; [exact Hissued|]. split; [|now rewrite Hrun].
      symmetry. now apply issued_of_journal.
    + intros pre c post Heq. rewrite Hissued in Heq.
      destruct pre as [|x pre].
      * left. simpl in Heq. injection Heq as Hc _ _. now split.
      * right. simpl in Heq. injection Heq as _ Heq.
        destruct (run_shape_false_flag _ _ _ _ _ Hshape Heq)
          as (Hpost & _ & e & He & Hraised).
        split; [exact Hpost|]. exists e. split; [|exact Hraised].
        now rewrite Hrun.
Qed.

End apply_and_memory.

(** A record created through a provider whose [authenticate] returns a
    false flag: the create is made all the same and the run returns
    normally. *)
Lemma apply_authenticates_first_witness :
  let run :=
    _apply sample_repr unit unauthenticated_provider
      [octodns.Create (a_record ["192.0.2.1"])] in
  let w := sample_world [] in
  issued run w
  = [(authenticate, inr false);
     (create_record (func_args (a_flat "192.0.2.1")), inr true)]
  /\ fst (run w) = inr tt.
Proof.
  intros run w.
  pose proof (apply_authenticates_first sample_repr unit
                unauthenticated_provider
                [octodns.Create (a_record ["192.0.2.1"])] w) as H.
  cbv zeta in H. destruct H as [(rest & Hissued & Hrest) _].
  change (answer unauthenticated_provider authenticate _)
    with (inr false : exn + bool) in Hissued, Hrest.
  destruct Hrest as [Hrest Hresult].
  split.
  - unfold run. rewrite Hissued, Hrest. vm_compute. reflexivity.
  - unfold run. rewrite Hresult. vm_compute. reflexivity.
Defined.
(** ** Closed instances of the plan *)

(** Three addresses replaced by one, nothing remembered: one pair, carried
    out by a create and a delete without identifier, then two deletes that
    pass the identifier [get] returns, here [None]. *)
Lemma change_follows_its_plan_witness :
  let existing := a_record ["192.0.2.1"; "192.0.2.2"; "192.0.2.3"] in
  let new := a_record ["192.0.2.9"] in
  let w := sample_world [] in
  let run :=
    apply_change sample_repr unit obliging_provider
      (octodns.Update existing new) in
  let plan :=
    [create_record (func_args (a_flat "192.0.2.9"));
     delete_record Omitted (func_args (a_flat "192.0.2.1"));
     delete_record (Passed None) (func_args (a_flat "192.0.2.2"));
     delete_record (Passed None) (func_args (a_flat "192.0.2.3"))] in
  map fst (issued run w) `prefix_of` plan
  /\ match fst (run w) with
     | inr _ => map fst (issued run w) = plan /\ Forall succeeded (issued run w)
     | inl e =>
         exists pre failed,
           issued run w = pre ++ [failed]
           /\ Forall succeeded pre /\ ~ succeeded failed
     end.
Proof.
  intros existing new w run plan.
  assert (Hplan :
    planned_calls sample_repr (remembered_ids w) (Some existing)
      (sorted (rrset_of new (fun c => c) ["192.0.2.9"]
               ∖ rrset_of existing (fun c => c)
                   ["192.0.2.1"; "192.0.2.2"; "192.0.2.3"]))
      (sorted (rrset_of existing (fun c => c)
                 ["192.0.2.1"; "192.0.2.2"; "192.0.2.3"]
               ∖ rrset_of new (fun c => c) ["192.0.2.9"]))
    = plan) by (vm_compute; reflexivity).
  rewrite <- Hplan.
  apply (change_follows_its_plan sample_repr unit obliging_provider
           (octodns.Update existing new) _rrset_for_A
           (rrset_of existing (fun c => c)
              ["192.0.2.1"; "192.0.2.2"; "192.0.2.3"])
           (rrset_of new (fun c => c) ["192.0.2.9"]) w);
    reflexivity.
Defined.

(** Two addresses replaced by three others: three writes, two removals. *)
Lemma every_value_handled_once_witness :
  let existing := a_record ["192.0.2.1"; "192.0.2.2"] in
  let new := a_record ["192.0.2.7"; "192.0.2.8"; "192.0.2.9"] in
  let w := sample_world [(existing, "192.0.2.1", "17")] in
  let run :=
    apply_change sample_repr unit obliging_provider
      (octodns.Update existing new) in
  length (List.filter writes_value (map fst (issued run w))) = 3%nat
  /\ length (List.filter removes_value (map fst (issued run w))) = 2%nat.
Proof.
  intros existing new w run.
  assert (Hsizes :
    size (rrset_of new (fun c => c) ["192.0.2.7"; "192.0.2.8"; "192.0.2.9"]
          ∖ rrset_of existing (fun c => c) ["192.0.2.1"; "192.0.2.2"])
    = 3%nat
    /\ size (rrset_of existing (fun c => c) ["192.0.2.1"; "192.0.2.2"]
             ∖ rrset_of new (fun c => c)
                 ["192.0.2.7"; "192.0.2.8"; "192.0.2.9"])
       = 2%nat) by (vm_compute; split; reflexivity).
  destruct Hsizes as [Hadded Hdeleted].
  rewrite <- Hadded at 1. rewrite <- Hdeleted at 1.
  apply (every_value_handled_once sample_repr unit obliging_provider
           (octodns.Update existing new) _rrset_for_A
           (rrset_of existing (fun c => c) ["192.0.2.1"; "192.0.2.2"])
           (rrset_of new (fun c => c)
              ["192.0.2.7"; "192.0.2.8"; "192.0.2.9"]) w).
  - reflexivity.
  - reflexivity.
  - reflexivity.
  - vm_compute. reflexivity.
Defined.


(** One flat record on either path, with an identifier remembered for its
    content (the same identifier twice under the record, so that it is
    not unique): the paired loop creates the new address and deletes the
    old one without identifier; the loop over the unpaired deletions
    passes the identifier. *)
Lemma only_unpaired_deletes_pass_identifier_witness :
  let existing := a_record ["192.0.2.1"; "192.0.2.3"] in
  let w := sample_world [(existing, "192.0.2.1", "17");
                         (existing, "192.0.2.3", "17")] in
  map fst (issued (paired_loop sample_repr unit obliging_provider 1
                     (Some existing) [a_flat "192.0.2.2"]
                     [a_flat "192.0.2.1"]) w)
  = [create_record (func_args (a_flat "192.0.2.2"));
     delete_record Omitted (func_args (a_flat "192.0.2.1"))]
  /\ map fst (issued (delete_loop sample_repr unit obliging_provider
                        (Some existing) [a_flat "192.0.2.1"]) w)
     = [delete_record (Passed (Some "17")) (func_args (a_flat "192.0.2.1"))].
Proof.
  intros existing w.
  pose proof (only_unpaired_deletes_pass_identifier sample_repr unit
                obliging_provider 1 (Some existing) [a_flat "192.0.2.2"]
                [a_flat "192.0.2.1"] w) as H.
  cbv zeta in H. destruct H as (_ & _ & Hpaired & _ & Hunpaired).
  destruct (Hpaired ltac:(simpl; lia) ltac:(simpl; lia)) as [_ Hp].
  assert (Hpr : fst (paired_loop sample_repr unit obliging_provider 1
                       (Some existing) [a_flat "192.0.2.2"]
                       [a_flat "192.0.2.1"] w) = inr ([], []))
    by (vm_compute; reflexivity).
  rewrite Hpr in Hp. destruct Hp as [Hp _].
  assert (Hur : fst (delete_loop sample_repr unit obliging_provider
                       (Some existing) [a_flat "192.0.2.1"] w) = inr tt)
    by (vm_compute; reflexivity).
  rewrite Hur in Hunpaired. destruct Hunpaired as [Hu _].
  split.
  - rewrite Hp. vm_compute. reflexivity.
  - rewrite Hu. vm_compute. reflexivity.
Defined.

(** * The record name in [populate] *)

Lemma length_of_append (s t : string) :
  String.length (s +:+ t) = (String.length s + String.length t)%nat.
Proof.
  induction s as [|c s IH]; [now rewrite append_nil_l|].
  rewrite append_cons. simpl. now rewrite IH.
Qed.

Lemma drop_chars_append (s t : string) :
  drop_chars (String.length s) (s +:+ t) = t.
Proof.
  induction s as [|c s IH]; [now rewrite append_nil_l|].
  rewrite append_cons. simpl. exact IH.
Qed.

Lemma take_chars_append (s t : string) :
  take_chars (String.length s) (s +:+ t) = s.
Proof.
  induction s as [|c s IH]; [now rewrite append_nil_l|].
  rewrite append_cons. simpl. now rewrite IH.
Qed.

Lemma take_chars_append_le (n : nat) (s t : string) :
  (n <= String.length s)%nat -> take_chars n (s +:+ t) = take_chars n s.
Proof.
  revert n. induction s as [|c s IH]; intros n Hn.
  - simpl in Hn. assert (n = O) as -> by lia. now destruct t.
  - rewrite append_cons. destruct n as [|n]; [reflexivity|].
    simpl in *. rewrite IH; [reflexivity | lia].
Qed.

Lemma endswith_append (s t : string) : endswith (s +:+ t) t = true.
Proof.
  unfold endswith. rewrite length_of_append.
  replace (String.length s + String.length t - String.length t)%nat
    with (String.length s) by lia.
  rewrite drop_chars_append, String.eqb_refl, andb_true_r.
  apply Nat.leb_le. lia.
Qed.

Lemma rstrip_no_final (c : ascii) (s : string) (d : ascii) :
  last_char s = inr d -> d <> c -> rstrip c s = s.
Proof.
  induction s as [|a s IH]; [discriminate|]. intros Hlast Hd.
  destruct s as [|b s].
  - injection Hlast as ->. simpl.
    destruct (Ascii.eqb_spec d c); [contradiction | reflexivity].
  - change (last_char (String a (String b s)))
      with (last_char (String b s)) in Hlast.
    change (rstrip c (String a (String b s)))
      with (match rstrip c (String b s) with
            | EmptyString =>
                if (a =? c)%char then EmptyString else String a EmptyString
            | kept => String a kept
            end).
    now rewrite (IH Hlast Hd).
Qed.

Lemma rstrip_one_final (c : ascii) (s : string) (d : ascii) :
  last_char s = inr d -> d <> c -> rstrip c (s +:+ String c EmptyString) = s.
Proof.
  induction s as [|a s IH]; [discriminate|]. intros Hlast Hd.
  rewrite append_cons.
  change (rstrip c (String a (s +:+ String c EmptyString)))
    with (match rstrip c (s +:+ String c EmptyString) with
          | EmptyString =>
              if (a =? c)%char then EmptyString else String a EmptyString
          | kept => String a kept
          end).
  destruct s as [|b s].
  - injection Hlast as ->. rewrite append_nil_l. simpl.
    rewrite Ascii.eqb_refl.
    destruct (Ascii.eqb_spec d c); [contradiction | reflexivity].
  - change (last_char (String a (String b s)))
      with (last_char (String b s)) in Hlast.
    now rewrite (IH Hlast Hd).
Qed.

Lemma last_char_of_append (s t : string) (d : ascii) :
  last_char t = inr d -> last_char (s +:+ t) = inr d.
Proof.
  intros Ht. induction s as [|a s IH]; [now rewrite append_nil_l|].
  rewrite append_cons.
  destruct (s +:+ t) eqn:Hst; [discriminate IH | exact IH].
Qed.

Lemma slice_to_neg_append (s t : string) :
  slice_to_neg (s +:+ t) (S (String.length t)) = slice_to_neg s 1.
Proof.
  unfold slice_to_neg. rewrite length_of_append.
  replace (String.length s + String.length t - S (String.length t))%nat
    with (String.length s - 1)%nat by lia.
  apply take_chars_append_le. lia.
Qed.

Lemma slice_to_neg_final (s : string) (c : ascii) :
  slice_to_neg (s +:+ String c EmptyString) 1 = s.
Proof.
  unfold slice_to_neg. rewrite length_of_append. simpl.
  replace (String.length s + 1 - 1)%nat with (String.length s) by lia.
  apply take_chars_append.
Qed.

Lemma endswith_longer (s t : string) :
  (String.length s < String.length t)%nat -> endswith s t = false.
Proof.
  intros Hlt. unfold endswith.
  destruct (Nat.leb_spec (String.length t) (String.length s)); [lia|].
  reflexivity.
Qed.

Lemma endswith_final (s t : string) (c d : ascii) :
  endswith s (t +:+ String c EmptyString) = true ->
  last_char s = inr d -> d = c.
Proof.
  unfold endswith. intros H Hlast.
  apply andb_true_iff in H as [_ H]. apply String.eqb_eq in H.
  set (n := (String.length s - String.length (t +:+ String c EmptyString))%nat)
    in H.
  clearbody n. revert n H. induction s as [|a s IH]; [discriminate|].
  intros n H. destruct n as [|n].
  - simpl in H. rewrite H in Hlast.
    rewrite (last_char_of_append t (String c EmptyString) c eq_refl) in Hlast.
    now injection Hlast.
  - simpl in H. destruct s as [|b s].
    + destruct n; simpl in H; destruct t; discriminate H.
    + apply (IH Hlast n H).
Qed.

(** X18.  In a zone named [z.], with [z] not empty and not ending in a dot,
    a listed name that ends with [z], with or without a final dot, is cut
    by the length of the zone name: the label and its separating dot go
    ([www.z.] and [www.z] give [www], the apex gives the empty name), and
    so does the last character of a foreign name that merely ends with the
    letters of the zone. *)
Theorem zone_suffix_is_cut (z before : string) (d : ascii) :
  last_char z = inr d -> d <> "."%char ->
  stripped_name (z +:+ ".") (before +:+ z) = slice_to_neg before 1
  /\ stripped_name (z +:+ ".") (before +:+ z +:+ ".") = slice_to_neg before 1
  /\ forall label,
       stripped_name (z +:+ ".") (label +:+ "." +:+ z) = label
       /\ stripped_name (z +:+ ".") (label +:+ "." +:+ z +:+ ".") = label.
Proof.
  intros Hlast Hd.
  assert (Hbare : forall before,
             stripped_name (z +:+ ".") (before +:+ z)
             = slice_to_neg before 1).
  { intros b. unfold stripped_name, strip_final_dot.
    destruct (endswith (b +:+ z) (z +:+ ".")) eqn:Hends.
    - exfalso. apply Hd.
      exact (endswith_final _ _ _ _ Hends (last_char_of_append b z d Hlast)).
    - unfold record_name_of. rewrite slice_to_neg_final, endswith_append.
      rewrite length_of_append. simpl String.length.
      replace (String.length z + 1)%nat with (S (String.length z)) by lia.
      apply slice_to_neg_append. }
  assert (Hdotted : forall before,
             stripped_name (z +:+ ".") (before +:+ z +:+ ".")
             = slice_to_neg before 1).
  { intros b. unfold stripped_name, strip_final_dot.
    rewrite endswith_append.
    rewrite <- append_assoc.
    rewrite (rstrip_one_final "." (b +:+ z) d
               (last_char_of_append b z d Hlast) Hd).
    unfold record_name_of. rewrite slice_to_neg_final, endswith_append.
    rewrite length_of_append. simpl String.length.
    replace (String.length z + 1)%nat with (S (String.length z)) by lia.
    apply slice_to_neg_append. }
  split; [apply Hbare|]. split; [apply Hdotted|].
  intros label. split.
  - rewrite <- append_assoc, Hbare. apply slice_to_neg_final.
  - rewrite <- (append_assoc label "." (z +:+ ".")), Hdotted.
    apply slice_to_neg_final.
Qed.

Lemma zone_suffix_is_cut_witness :
  stripped_name "example.com." "notexample.com" = "no"
  /\ stripped_name "example.com." "example.com." = ""
  /\ stripped_name "example.com." "www.example.com" = "www"
  /\ stripped_name "example.com." "www.example.com." = "www".
Proof.
  destruct (zone_suffix_is_cut "example.com" "not" "m" eq_refl
              ltac:(discriminate)) as (Hbare & _ & Hlabel).
  destruct (zone_suffix_is_cut "example.com" "" "m" eq_refl
              ltac:(discriminate)) as (_ & Hapex & _).
  destruct (Hlabel "www") as [Hplain Hdotted].
  split; [exact Hbare|]. split; [exact Hapex|].
  split; [exact Hplain | exact Hdotted].
Defined.

(** * The supported types and the listing of [populate] *)

Lemma _data_func_implemented (record_type : string) :
  record_type ∈ IMPLEMENTED -> exists f, _data_func record_type = inr f.
Proof.
  unfold IMPLEMENTED. rewrite !elem_of_cons, elem_of_nil.
  intros H. unfold _data_func.
  repeat (destruct H as [->|H]; [eexists; reflexivity|]). contradiction.
Qed.

(** X19.  A type is supported when it is implemented and, if [supports]
    was given and is not empty, when it is the upper case of one of the
    given names; names that are not implemented are dropped silently.  So
    every supported type has its decoder: the dispatch of [populate]
    cannot fail. *)
Theorem supported_types (upper : string -> string)
    (supports : option (list string)) (record_type : string) :
  (record_type ∈ SUPPORTS upper supports
   <-> record_type ∈ IMPLEMENTED
       /\ match supports with
          | None | Some [] => True
          | Some given => exists s, s ∈ given /\ upper s = record_type
          end)
  /\ (record_type ∈ SUPPORTS upper supports ->
      exists f, _data_func record_type = inr f).
Proof.
  assert (Hiff :
    record_type ∈ SUPPORTS upper supports
    <-> record_type ∈ IMPLEMENTED
        /\ match supports with
           | None | Some [] => True
           | Some given => exists s, s ∈ given /\ upper s = record_type
           end).
  { destruct supports as [[|s given]|]; cbn [SUPPORTS]; [tauto| |tauto].
    split.
    - intros H. apply list_elem_of_In, filter_In in H as [Himpl Hgiven].
      apply list_elem_of_In in Himpl.
      apply bool_decide_eq_true, list_elem_of_fmap in Hgiven
        as (x & Hx & Hin).
      split; [exact Himpl|]. exists x. now split.
    - intros [Himpl (x & Hin & Hx)]. apply list_elem_of_In, filter_In.
      split; [now apply list_elem_of_In|].
      apply bool_decide_eq_true, list_elem_of_fmap. exists x. now split. }
  split; [exact Hiff|].
  intros H. apply _data_func_implemented. now apply Hiff in H.
Qed.

Lemma item_of_update {V} (default : V) (f : V -> V) (k k' : string)
    (d : list (string * V)) :
  item_of default k' (update_item default f k d)
  = if decide (k = k') then f (item_of default k d) else item_of default k' d.
Proof.
  induction d as [|[k0 v] d IH]; simpl.
  - destruct (decide (k = k')); reflexivity.
  - destruct (decide (k0 = k)) as [->|Hne]; simpl.
    + destruct (decide (k = k')); reflexivity.
    + destruct (decide (k0 = k')) as [->|Hne'].
      * destruct (decide (k = k')); [congruence | reflexivity].
      * exact IH.
Qed.

Lemma update_item_keys {V} (default : V) (f : V -> V) (k : string)
    (d : list (string * V)) :
  map fst (update_item default f k d)
  = if decide (k ∈ map fst d) then map fst d else map fst d ++ [k].
Proof.
  induction d as [|[k0 v] d IH]; simpl.
  - destruct (decide (k ∈ [])) as [H|_]; [|reflexivity].
    now apply elem_of_nil in H.
  - destruct (decide (k0 = k)) as [->|Hne]; simpl.
    + destruct (decide (k ∈ k :: map fst d)) as [_|H]; [reflexivity|].
      exfalso. apply H. left.
    + rewrite IH.
      destruct (decide (k ∈ map fst d)) as [Hin|Hout];
        destruct (decide (k ∈ k0 :: map fst d)) as [Hin'|Hout'];
        try reflexivity.
      * exfalso. apply Hout'. now right.
      * exfalso. apply elem_of_cons in Hin' as [->|Hin']; congruence.
Qed.

Lemma update_item_NoDup {V} (default : V) (f : V -> V) (k : string)
    (d : list (string * V)) :
  NoDup (map fst d) -> NoDup (map fst (update_item default f k d)).
Proof.
  intros Hd. rewrite update_item_keys.
  destruct (decide (k ∈ map fst d)) as [Hin|Hout]; [exact Hd|].
  apply NoDup_app. split; [exact Hd|]. split; [|apply NoDup_singleton].
  intros x Hx Hk. apply list_elem_of_singleton in Hk as ->. contradiction.
Qed.

Lemma update_item_Forall {V} (P : string * V -> Prop) (default : V)
    (f : V -> V) (k : string) (d : list (string * V)) :
  Forall P d -> (forall v, P (k, v) -> P (k, f v)) -> P (k, f default) ->
  Forall P (update_item default f k d).
Proof.
  intros Hd Hf Hdefault. induction Hd as [|[k0 v] d Hx Hd IH]; simpl.
  - now constructor.
  - destruct (decide (k0 = k)) as [->|Hne]; constructor; auto.
Qed.

Lemma item_of_elem {V} (default : V) (k : string) (v : V)
    (d : list (string * V)) :
  NoDup (map fst d) -> (k, v) ∈ d -> item_of default k d = v.
Proof.
  induction d as [|[k0 v0] d IH]; intros Hd Hin.
  - now apply elem_of_nil in Hin.
  - simpl in Hd. apply NoDup_cons in Hd as [Hk0 Hd]. simpl.
    apply elem_of_cons in Hin as [[= <- <-]|Hin].
    + now destruct (decide (k = k)).
    + destruct (decide (k0 = k)) as [->|Hne]; [|now apply IH].
      exfalso. apply Hk0. apply list_elem_of_fmap. now exists (k, v).
Qed.

Lemma item_of_stored {V} (default : V) (k : string) (d : list (string * V)) :
  item_of default k d <> default -> (k, item_of default k d) ∈ d.
Proof.
  induction d as [|[k0 v0] d IH]; simpl; [congruence|].
  destruct (decide (k0 = k)) as [->|Hne]; intros H; [left|].
  right. now apply IH.
Qed.

Lemma listing_loop_harmonizes (zone_name : string) (listed : list record_dict) :
  forall loaded_types,
    listing_loop zone_name listed loaded_types
    = match for_append (harmonize zone_name) listed with
      | inl e => inl e
      | inr harmonized =>
          inr (foldl (fun loaded r => load r loaded) loaded_types harmonized)
      end.
Proof.
  induction listed as [|r listed IH]; intros loaded_types; [reflexivity|].
  simpl. destruct (harmonize zone_name r) as [e|r']; simpl; [reflexivity|].
  rewrite IH. now destruct (for_append (harmonize zone_name) listed).
Qed.

Lemma loaded_under_load (r : record_dict) (n t : string)
    (loaded_types : list (string * list (string * list record_dict))) :
  loaded_under n t (load r loaded_types)
  = loaded_under n t loaded_types ++ group_of n t [r].
Proof.
  unfold loaded_under, load, group_of. rewrite item_of_update.
  cbn [List.filter].
  destruct (decide (lr_name r = n)) as [<-|Hn].
  - rewrite item_of_update.
    rewrite (bool_decide_eq_true_2 (lr_name r = lr_name r) eq_refl).
    cbn [andb].
    destruct (decide (lr_type r = t)) as [<-|Ht].
    + now rewrite (bool_decide_eq_true_2 (lr_type r = lr_type r) eq_refl).
    + now rewrite (bool_decide_eq_false_2 (lr_type r = t) Ht), app_nil_r.
  - rewrite (bool_decide_eq_false_2 (lr_name r = n) Hn). cbn [andb].
    now rewrite app_nil_r.
Qed.

Lemma group_of_app (n t : string) (l1 l2 : list record_dict) :
  group_of n t (l1 ++ l2) = group_of n t l1 ++ group_of n t l2.
Proof. unfold group_of. apply List.filter_app. Qed.

Lemma loaded_under_foldl (n t : string) (harmonized : list record_dict) :
  forall loaded_types,
    loaded_under n t
      (foldl (fun loaded r => load r loaded) loaded_types harmonized)
    = loaded_under n t loaded_types ++ group_of n t harmonized.
Proof.
  induction harmonized as [|r rs IH]; intros loaded_types; simpl.
  - unfold group_of. simpl. now rewrite app_nil_r.
  - rewrite IH, loaded_under_load, <- app_assoc.
    now rewrite <- group_of_app.
Qed.

Lemma well_loaded_load (r : record_dict)
    (loaded_types : list (string * list (string * list record_dict))) :
  well_loaded loaded_types -> well_loaded (load r loaded_types).
Proof.
  intros [Hkeys Hall]. split; [now apply update_item_NoDup|].
  apply update_item_Forall; [exact Hall| |].
  - intros by_type [Hk Hg]. simpl in *. split; [now apply update_item_NoDup|].
    apply update_item_Forall; [exact Hg| |]; simpl.
    + intros l _. now destruct l.
    + discriminate.
  - simpl. split; [apply NoDup_singleton|].
    constructor; [discriminate | constructor].
Qed.

Lemma well_loaded_foldl (harmonized : list record_dict) :
  forall loaded_types,
    well_loaded loaded_types ->
    well_loaded (foldl (fun loaded r => load r loaded) loaded_types harmonized).
Proof.
  induction harmonized as [|r rs IH]; intros loaded_types H; [exact H|].
  simpl. now apply IH, well_loaded_load.
Qed.

Lemma well_loaded_group
    (loaded_types : list (string * list (string * list record_dict)))
    (n t : string) data_by_id lexicon_records :
  well_loaded loaded_types ->
  (n, data_by_id) ∈ loaded_types -> (t, lexicon_records) ∈ data_by_id ->
  lexicon_records <> []
  /\ lexicon_records = loaded_under n t loaded_types.
Proof.
  intros [Hkeys Hall] Hn Ht.
  rewrite Forall_forall in Hall. destruct (Hall _ Hn) as [Hk Hg].
  simpl in *. rewrite Forall_forall in Hg. split; [exact (Hg _ Ht)|].
  unfold loaded_under. rewrite (item_of_elem [] n data_by_id _ Hkeys Hn).
  symmetry. now apply item_of_elem.
Qed.

(** X20.  The listing loop fails exactly when harmonising a listed record
    fails.  Otherwise the dict it builds holds, under each name and each
    type, exactly the harmonised records listed with that name and that
    type, in the order of the listing; no key occurs twice, no list is
    empty, and every listed record is in the list of its name and type. *)
Theorem listing_groups (zone_name : string) (listed : list record_dict) :
  match for_append (harmonize zone_name) listed with
  | inl e => listing_loop zone_name listed [] = inl e
  | inr harmonized =>
      exists loaded_types,
        listing_loop zone_name listed [] = inr loaded_types
        /\ NoDup (map fst loaded_types)
        /\ (forall n data_by_id,
              (n, data_by_id) ∈ loaded_types ->
              NoDup (map fst data_by_id)
              /\ forall t lexicon_records,
                   (t, lexicon_records) ∈ data_by_id ->
                   lexicon_records <> []
                   /\ lexicon_records = group_of n t harmonized)
        /\ forall r,
             r ∈ harmonized ->
             exists data_by_id,
               (lr_name r, data_by_id) ∈ loaded_types
               /\ (lr_type r, group_of (lr_name r) (lr_type r) harmonized)
                  ∈ data_by_id
               /\ r ∈ group_of (lr_name r) (lr_type r) harmonized
  end.
Proof.
  rewrite listing_loop_harmonizes.
  destruct (for_append (harmonize zone_name) listed) as [e|harmonized];
    [reflexivity|].
  set (loaded_types := foldl (fun loaded r => load r loaded) [] harmonized).
  assert (Hwell : well_loaded loaded_types).
  { apply well_loaded_foldl. split; constructor. }
  assert (Hunder : forall n t,
             loaded_under n t loaded_types = group_of n t harmonized).
  { intros n t. unfold loaded_types. now rewrite loaded_under_foldl. }
  exists loaded_types. split; [reflexivity|]. split; [apply Hwell|]. split.
  - intros n data_by_id Hn. split.
    + destruct Hwell as [_ Hall]. rewrite Forall_forall in Hall.
      apply (Hall _ Hn).
    + intros t lexicon_records Ht.
      destruct (well_loaded_group _ _ _ _ _ Hwell Hn Ht) as [Hne Heq].
      split; [exact Hne|]. now rewrite Heq, Hunder.
  - intros r Hr.
    assert (Hin : r ∈ group_of (lr_name r) (lr_type r) harmonized).
    { unfold group_of. apply list_elem_of_In, filter_In.
      split; [now apply list_elem_of_In|].
      now rewrite !bool_decide_eq_true_2. }
    assert (Hgroup : loaded_under (lr_name r) (lr_type r) loaded_types <> []).
    { rewrite Hunder. intros Hnil. rewrite Hnil in Hin.
      now apply elem_of_nil in Hin. }
    unfold loaded_under in Hgroup.
    exists (item_of [] (lr_name r) loaded_types). split; [|split].
    + apply item_of_stored. intros Hnil. rewrite Hnil in Hgroup.
      now apply Hgroup.
    + rewrite <- Hunder. unfold loaded_under. now apply item_of_stored.
    + exact Hin.
Qed.
(** * [populate] *)

Lemma harmonize_keeps (zone_name : string) (r r' : record_dict) :
  harmonize zone_name r = inr r' ->
  lr_type r' = lr_type r /\ lr_name r' = lr_name r /\ lr_id r' = lr_id r.
Proof.
  unfold harmonize. destruct (bool_decide _); [|now intros [= <-]].
  destruct (last_char (lr_content r)) as [e|final]; [discriminate|].
  simpl. destruct (negb _); [|now intros [= <-]].
  destruct (shlex_split (lr_content r)) as [e|tokens]; [discriminate|].
  simpl. destruct (last_item tokens) as [e|domain_part]; [discriminate|].
  simpl. now intros [= <-].
Qed.

Lemma for_append_Forall {A B} (f : A -> exn + B) (P : A -> Prop)
    (Q : B -> Prop) (l : list A) :
  (forall x y, f x = inr y -> P x -> Q y) ->
  forall l', for_append f l = inr l' -> Forall P l -> Forall Q l'.
Proof.
  intros Hf. induction l as [|x l IH]; intros l' Hl HP.
  - injection Hl as <-. constructor.
  - simpl in Hl. destruct (f x) as [e|y] eqn:Hx; [discriminate|].
    simpl in Hl. destruct (for_append f l) as [e|ys]; [discriminate|].
    injection Hl as <-. apply Forall_cons in HP as [Hx' HP].
    constructor; [now apply (Hf x) | now apply IH].
Qed.

Lemma for_append_nil_iff {A B} (f : A -> exn + B) (l : list A) (l' : list B) :
  for_append f l = inr l' -> (l = [] <-> l' = []).
Proof.
  destruct l as [|x l]; simpl.
  - intros [= <-]. tauto.
  - destruct (f x); [discriminate|]. simpl.
    destruct (for_append f l); [discriminate|]. intros [= <-].
    split; discriminate.
Qed.

Lemma memory_grows_refl ids : memory_grows ids ids.
Proof. intros key. split; [reflexivity | tauto]. Qed.

Lemma memory_grows_trans ids1 ids2 ids3 :
  memory_grows ids1 ids2 -> memory_grows ids2 ids3 -> memory_grows ids1 ids3.
Proof.
  intros H12 H23 key. destruct (H12 key) as [Hp12 Hs12].
  destruct (H23 key) as [Hp23 Hs23]. split; [now transitivity (ids_of ids2 key)|].
  intros content H. now apply Hs23, Hs12.
Qed.

Lemma memory_grows_remember {R} (repr : R -> string) ids record content _id :
  memory_grows ids (RememberedIds.remember repr ids record content _id).
Proof.
  intros key. split.
  - rewrite ids_facts.remember_ids_of.
    destruct (decide (repr record = key)); [|reflexivity].
    now apply prefix_app_r.
  - intros content' H. rewrite ids_facts.remember_id_of.
    destruct (decide (repr record = key /\ content = content')); [|exact H].
    now eexists.
Qed.

Section populate_facts.

Context {Rec Zone E : Type}.
Variable rec_repr : Rec -> string.
Variable Record_new : Zone -> string -> data -> E + Rec.
Variable add_record : Rec -> bool -> Zone -> E + Zone.

Lemma remember_loop_grows record lexicon_records :
  forall ids,
    memory_grows ids
      (snd (remember_loop (E:=E) rec_repr record lexicon_records ids)).
Proof.
  induction lexicon_records as [|r rs IH]; intros ids; simpl.
  - apply memory_grows_refl.
  - destruct (lr_id r) as [_id|]; [|apply memory_grows_refl].
    eapply memory_grows_trans;
      [apply (memory_grows_remember rec_repr ids record (lr_content r) _id)
      | apply IH].
Qed.

Lemma remember_loop_listed record lexicon_records ids_listed :
  map lr_id lexicon_records = map Some ids_listed ->
  forall ids,
    exists ids',
      remember_loop (E:=E) rec_repr record lexicon_records ids = (inr tt, ids')
      /\ forall key,
           ids_of ids' key
           = if decide (rec_repr record = key)
             then ids_of ids key ++ ids_listed else ids_of ids key.
Proof.
  revert ids_listed.
  induction lexicon_records as [|r rs IH]; intros ids_listed Hids ids.
  - destruct ids_listed; [|discriminate]. exists ids. split; [reflexivity|].
    intros key. destruct (decide _); [now rewrite app_nil_r | reflexivity].
  - destruct ids_listed as [|_id rest]; [discriminate|].
    simpl in Hids. injection Hids as Hid Hrest. simpl. rewrite Hid.
    destruct (IH rest Hrest
                (RememberedIds.remember rec_repr ids record (lr_content r) _id))
      as (ids' & Hrun & Hkeys).
    exists ids'. split; [exact Hrun|]. intros key. rewrite Hkeys.
    rewrite ids_facts.remember_ids_of.
    destruct (decide (rec_repr record = key)); [|reflexivity].
    now rewrite <- app_assoc.
Qed.

Lemma add_group_grows zone_name lenient supported record_by_name record_type
    lexicon_records st :
  memory_grows (p_ids st)
    (p_ids (snd (add_group rec_repr Record_new add_record zone_name lenient
                   supported record_by_name record_type lexicon_records st))).
Proof.
  unfold add_group.
  destruct (bool_decide _); [|apply memory_grows_refl].
  destruct (_data_func record_type) as [e|f]; [apply memory_grows_refl|].
  destruct (f record_type lexicon_records) as [e|d];
    [apply memory_grows_refl|].
  destruct (Record_new _ _ _) as [e|record]; [apply memory_grows_refl|].
  pose proof (remember_loop_grows record lexicon_records (p_ids st)) as H.
  destruct (remember_loop _ _ _ _) as [[e|[]] ids]; simpl in H; [exact H|].
  destruct (add_record _ _ _); exact H.
Qed.

Lemma types_loop_grows zone_name lenient supported data_by_id :
  forall record_by_name st,
    memory_grows (p_ids st)
      (p_ids (snd (types_loop rec_repr Record_new add_record zone_name lenient
                     supported record_by_name data_by_id st))).
Proof.
  induction data_by_id as [|[t rs] rest IH]; intros record_by_name st; simpl.
  - apply memory_grows_refl.
  - pose proof (add_group_grows zone_name lenient supported record_by_name t
                  rs st) as H.
    destruct (add_group _ _ _ _ _ _ _ _ _ _) as [[e|name'] st']; simpl in H;
      [exact H|].
    eapply memory_grows_trans; [exact H | apply IH].
Qed.

Lemma names_loop_grows zone_name lenient supported loaded_types :
  forall st,
    memory_grows (p_ids st)
      (p_ids (snd (names_loop rec_repr Record_new add_record zone_name lenient
                     supported loaded_types st))).
Proof.
  induction loaded_types as [|[n data_by_id] rest IH]; intros st; simpl.
  - apply memory_grows_refl.
  - pose proof (types_loop_grows zone_name lenient supported data_by_id n st)
      as H.
    destruct (types_loop _ _ _ _ _ _ _ _ _) as [[e|[]] st']; simpl in H;
      [exact H|].
    eapply memory_grows_trans; [exact H | apply IH].
Qed.

(** X21.  [populate] never forgets: whatever is listed, and also when it
    raises half way, the memory afterwards holds under every key the
    identifiers it held before, followed by those remembered since, and a
    content that had an identifier still has one. *)
Theorem populate_never_forgets (zone_name : string) (lenient : bool)
    (supported : list string) (listed : list record_dict)
    (st : populate_state Zone) :
  memory_grows (p_ids st)
    (p_ids (snd (populate_listed rec_repr Record_new add_record zone_name
                   lenient supported listed st))).
Proof.
  unfold populate_listed.
  destruct (listing_loop zone_name listed []) as [e|loaded_types];
    [apply memory_grows_refl|].
  pose proof (names_loop_grows zone_name lenient supported loaded_types st)
    as H.
  destruct (names_loop _ _ _ _ _ _ _ _) as [[e|[]] st']; exact H.
Qed.

Lemma types_loop_unsupported zone_name lenient supported data_by_id :
  Forall (fun group => fst group ∉ supported) data_by_id ->
  forall record_by_name st,
    types_loop rec_repr Record_new add_record zone_name lenient supported
      record_by_name data_by_id st = (inr tt, st).
Proof.
  induction 1 as [|[t rs] rest Ht Hrest IH]; intros record_by_name st;
    [reflexivity|].
  simpl in *. unfold add_group. rewrite (bool_decide_eq_false_2 _ Ht).
  apply IH.
Qed.

Lemma names_loop_unsupported zone_name lenient supported loaded_types :
  Forall (fun entry => Forall (fun group => fst group ∉ supported) (snd entry))
    loaded_types ->
  forall st,
    names_loop rec_repr Record_new add_record zone_name lenient supported
      loaded_types st = (inr tt, st).
Proof.
  induction 1 as [|[n data_by_id] rest Hn Hrest IH]; intros st;
    [reflexivity|].
  simpl in *. rewrite (types_loop_unsupported _ _ _ _ Hn). apply IH.
Qed.

(** X22.  When no listed record has a supported type, [populate] leaves
    the memory and the zone as they are; unless harmonising a record
    raises, it still returns [True] for a listing that is not empty, and
    [False] for an empty one. *)
Theorem populate_unsupported_only (zone_name : string) (lenient : bool)
    (supported : list string) (listed : list record_dict)
    (st : populate_state Zone) :
  Forall (fun r => lr_type r ∉ supported) listed ->
  populate_listed rec_repr Record_new add_record zone_name lenient supported
    listed st
  = (match for_append (harmonize zone_name) listed with
     | inl e => inl (Raised e)
     | inr _ => inr (match listed with [] => false | _ => true end)
     end, st).
Proof.
  intros Htypes. unfold populate_listed. rewrite listing_loop_harmonizes.
  destruct (for_append (harmonize zone_name) listed) as [e|harmonized] eqn:Hh;
    [reflexivity|].
  assert (Hharmonized : Forall (fun r => lr_type r ∉ supported) harmonized).
  { apply (for_append_Forall (harmonize zone_name)
             (fun r => lr_type r ∉ supported)
             (fun r => lr_type r ∉ supported) listed); [|exact Hh|exact Htypes].
    intros x y Hxy Hx. apply harmonize_keeps in Hxy as (-> & _ & _).
    exact Hx. }
  set (loaded_types := foldl (fun loaded r => load r loaded) [] harmonized).
  assert (Hwell : well_loaded loaded_types).
  { apply well_loaded_foldl. split; constructor. }
  rewrite names_loop_unsupported; [reflexivity|].
  apply Forall_forall. intros [n data_by_id] Hn.
  apply Forall_forall. intros [t rs] Ht. simpl in *.
  destruct (well_loaded_group _ _ _ _ _ Hwell Hn Ht) as [Hne Heq].
  unfold loaded_types in Heq. rewrite loaded_under_foldl in Heq.
  simpl in Heq. destruct rs as [|r rs]; [congruence|].
  assert (Hr : r ∈ group_of n t harmonized) by (rewrite <- Heq; left).
  unfold group_of in Hr. apply list_elem_of_In, filter_In in Hr as [Hr Hkey].
  apply andb_true_iff in Hkey as [_ Htype].
  apply bool_decide_eq_true in Htype as <-.
  rewrite Forall_forall in Hharmonized. apply Hharmonized.
  now apply list_elem_of_In.
Qed.

End populate_facts.

(** A listing of a TXT and an MX record for a provider that supports A
    only: nothing is remembered or added, and the zone is said to exist. *)
Lemma populate_unsupported_only_witness :
  let listed :=
    [listed_record "TXT" "hello" "7"; listed_record "MX" "10 mail" "8"] in
  let st := {| p_ids := RememberedIds.init; p_zone := [] |} in
  populate_listed sample_rec_repr sample_Record_new sample_add_record
    "example.com." false ["A"] listed st
  = (inr true, st).
Proof.
  intros listed st.
  apply (populate_unsupported_only sample_rec_repr sample_Record_new
           sample_add_record "example.com." false ["A"] listed st).
  apply (bool_decide_unpack _). vm_compute. exact I.
Defined.

(** * One name and one type from listing to zone *)

Lemma for_append_harmonize_keeps (zone_name n t : string)
    (listed harmonized : list record_dict) :
  for_append (harmonize zone_name) listed = inr harmonized ->
  Forall (fun r => lr_name r = n /\ lr_type r = t) listed ->
  map lr_id harmonized = map lr_id listed
  /\ Forall (fun r => lr_name r = n /\ lr_type r = t) harmonized.
Proof.
  revert harmonized.
  induction listed as [|r listed IH]; intros harmonized Hh Hall.
  - injection Hh as <-. now split.
  - simpl in Hh. destruct (harmonize zone_name r) as [e|r'] eqn:Hr;
      [discriminate|].
    simpl in Hh.
    destruct (for_append (harmonize zone_name) listed) as [e|rs];
      [discriminate|].
    injection Hh as <-. apply Forall_cons in Hall as [[Hn Ht] Hall].
    destruct (IH rs eq_refl Hall) as [Hids Hrest].
    apply harmonize_keeps in Hr as (Htype & Hname & Hid).
    split; [simpl; now rewrite Hid, Hids|].
    constructor; [split; congruence | exact Hrest].
Qed.

Lemma foldl_load_group (n t : string) (harmonized : list record_dict) :
  Forall (fun r => lr_name r = n /\ lr_type r = t) harmonized ->
  forall l,
    foldl (fun loaded r => load r loaded) [(n, [(t, l)])] harmonized
    = [(n, [(t, l ++ harmonized)])].
Proof.
  induction 1 as [|r rs [Hn Ht] Hrs IH]; intros l; simpl.
  - now rewrite app_nil_r.
  - unfold load at 2. rewrite Hn, Ht. simpl.
    destruct (decide (n = n)); [|congruence].
    destruct (decide (t = t)); [|congruence].
    rewrite IH, <- app_assoc. reflexivity.
Qed.

Lemma foldl_load_one_group (n t : string) (harmonized : list record_dict) :
  harmonized <> [] ->
  Forall (fun r => lr_name r = n /\ lr_type r = t) harmonized ->
  foldl (fun loaded r => load r loaded) [] harmonized
  = [(n, [(t, harmonized)])].
Proof.
  intros Hne Hall. destruct harmonized as [|r rs]; [congruence|].
  apply Forall_cons in Hall as [[Hn Ht] Hall]. simpl.
  unfold load at 2. rewrite Hn, Ht. simpl.
  now rewrite (foldl_load_group n t rs Hall [r]).
Qed.

Lemma not_unique_when_repeated (before ids_listed : list string) :
  ids_listed <> [] ->
  Nat.eqb (length ((before ++ ids_listed) ++ ids_listed))
          (length (remove_dups ((before ++ ids_listed) ++ ids_listed)))
  = false.
Proof.
  intros Hne. apply Nat.eqb_neq. intros Hlen. symmetry in Hlen.
  apply ids_facts.remove_dups_length_NoDup in Hlen.
  apply NoDup_app in Hlen as (_ & Hdisjoint & _).
  destruct ids_listed as [|x rest]; [congruence|].
  apply (Hdisjoint x); [|left].
  apply elem_of_app. right. left.
Qed.

Section one_group.

Context {Rec Zone E : Type}.
Variable rec_repr : Rec -> string.
Variable Record_new : Zone -> string -> data -> E + Rec.
Variable add_record : Rec -> bool -> Zone -> E + Zone.

Lemma one_group_run (zone_name : string) (lenient : bool)
    (supported : list string) (listed harmonized : list record_dict)
    (n t : string) (f : string -> list record_dict -> exn + data) (d : data)
    (record : Rec) (ids_listed : list string)
    (st : populate_state Zone) :
  listed <> [] ->
  Forall (fun r => lr_name r = n /\ lr_type r = t) listed ->
  t ∈ supported ->
  for_append (harmonize zone_name) listed = inr harmonized ->
  _data_func t = inr f ->
  f t harmonized = inr d ->
  Record_new (p_zone st) (stripped_name zone_name n) d = inr record ->
  map lr_id listed = map Some ids_listed ->
  exists ids',
    populate_listed rec_repr Record_new add_record zone_name lenient supported
      listed st
    = match add_record record lenient (p_zone st) with
      | inl e => (inl (External e), {| p_ids := ids'; p_zone := p_zone st |})
      | inr zone' => (inr true, {| p_ids := ids'; p_zone := zone' |})
      end
    /\ forall key,
         ids_of ids' key
         = if decide (rec_repr record = key)
           then ids_of (p_ids st) key ++ ids_listed else ids_of (p_ids st) key.
Proof.
  intros Hne Hall Ht Hh Hf Hd Hnew Hids.
  destruct (for_append_harmonize_keeps _ _ _ _ _ Hh Hall) as [Hkept Hgroup].
  assert (Hne' : harmonized <> []).
  { intros Hnil. apply Hne. now apply (for_append_nil_iff _ _ _ Hh). }
  rewrite <- Hkept in Hids.
  destruct (remember_loop_listed (E:=E) rec_repr record harmonized ids_listed
              Hids (p_ids st)) as (ids' & Hloop & Hkeys).
  exists ids'. split; [|exact Hkeys].
  unfold populate_listed.
  rewrite listing_loop_harmonizes, Hh.
  rewrite (foldl_load_one_group n t harmonized Hne' Hgroup).
  cbn [names_loop types_loop]. unfold add_group.
  rewrite (bool_decide_eq_true_2 _ Ht), Hf, Hd.
  unfold stripped_name in Hnew. cbv zeta. rewrite Hnew, Hloop.
  destruct (add_record record lenient (p_zone st)) as [e|zone'];
    [reflexivity|].
  destruct listed; [congruence | reflexivity].
Qed.

(** X23.  A listing of records of one name and one supported type, each
    with an identifier: the harmonised records are decoded together into
    one record, created under the name cut by the zone; their identifiers
    are remembered under that record in listing order, behind those it
    already had; the memory of other records is unchanged; the record is
    added to the zone and [populate] returns [True]. *)
Theorem populate_one_group (zone_name : string) (lenient : bool)
    (supported : list string) (listed harmonized : list record_dict)
    (n t : string) (f : string -> list record_dict -> exn + data) (d : data)
    (record : Rec) (zone' : Zone) (ids_listed : list string)
    (st : populate_state Zone) :
  listed <> [] ->
  Forall (fun r => lr_name r = n /\ lr_type r = t) listed ->
  t ∈ supported ->
  for_append (harmonize zone_name) listed = inr harmonized ->
  _data_func t = inr f ->
  f t harmonized = inr d ->
  Record_new (p_zone st) (stripped_name zone_name n) d = inr record ->
  map lr_id listed = map Some ids_listed ->
  add_record record lenient (p_zone st) = inr zone' ->
  exists ids',
    populate_listed rec_repr Record_new add_record zone_name lenient supported
      listed st
    = (inr true, {| p_ids := ids'; p_zone := zone' |})
    /\ fst (RememberedIds.get_all_ids rec_repr ids' record)
       = fst (RememberedIds.get_all_ids rec_repr (p_ids st) record)
         ++ ids_listed
    /\ forall other,
         rec_repr other <> rec_repr record ->
         fst (RememberedIds.get_all_ids rec_repr ids' other)
         = fst (RememberedIds.get_all_ids rec_repr (p_ids st) other).
Proof.
  intros Hne Hall Ht Hh Hf Hd Hnew Hids Hadd.
  destruct (one_group_run zone_name lenient supported listed harmonized n t f
              d record ids_listed st Hne Hall Ht Hh Hf Hd Hnew Hids)
    as (ids' & Hrun & Hkeys).
  rewrite Hadd in Hrun.
  exists ids'. split; [exact Hrun|]. split.
  - rewrite !ids_facts.get_all_ids_fst, Hkeys.
    now destruct (decide (rec_repr record = rec_repr record)).
  - intros other Hother. rewrite !ids_facts.get_all_ids_fst, Hkeys.
    destruct (decide (rec_repr record = rec_repr other)); [congruence|].
    reflexivity.
Qed.

(** X24.  Populating twice from the same listing of one name and type
    with one provider remembers every identifier twice, into whatever zone
    the second run goes.  The identifiers are remembered before
    [zone.add_record] is called: the second run returns [True] when the
    zone takes the record (a fresh zone) and raises what [add_record]
    raises when it does not (the zone of the first run, which holds the
    record already); either way [get_all_ids] then lists the identifiers
    twice and [has_unique_ids] is false for the record, so that [_apply]
    will not update its values in place. *)
Theorem populate_twice_not_unique (zone_name : string) (lenient : bool)
    (supported : list string) (listed harmonized : list record_dict)
    (n t : string) (f : string -> list record_dict -> exn + data) (d : data)
    (record record' : Rec) (zone' zone2 : Zone) (ids_listed : list string)
    (st : populate_state Zone) :
  listed <> [] ->
  Forall (fun r => lr_name r = n /\ lr_type r = t) listed ->
  t ∈ supported ->
  for_append (harmonize zone_name) listed = inr harmonized ->
  _data_func t = inr f ->
  f t harmonized = inr d ->
  map lr_id listed = map Some ids_listed ->
  Record_new (p_zone st) (stripped_name zone_name n) d = inr record ->
  add_record record lenient (p_zone st) = inr zone' ->
  Record_new zone2 (stripped_name zone_name n) d = inr record' ->
  rec_repr record' = rec_repr record ->
  let populate :=
    populate_listed rec_repr Record_new add_record zone_name lenient supported
      listed in
  let st1 := snd (populate st) in
  let again := populate {| p_ids := p_ids st1; p_zone := zone2 |} in
  fst (populate st) = inr true
  /\ p_zone st1 = zone'
  /\ fst again
     = match add_record record' lenient zone2 with
       | inl e => inl (External e)
       | inr _ => inr true
       end
  /\ fst (RememberedIds.get_all_ids rec_repr (p_ids (snd again)) record')
     = (fst (RememberedIds.get_all_ids rec_repr (p_ids st) record)
        ++ ids_listed) ++ ids_listed
  /\ fst (RememberedIds.has_unique_ids rec_repr (p_ids (snd again)) record')
     = false.
Proof.
  intros Hne Hall Ht Hh Hf Hd Hids Hnew Hadd Hnew' Hrepr populate st1 again.
  destruct (one_group_run zone_name lenient supported listed harmonized n t f
              d record ids_listed st Hne Hall Ht Hh Hf Hd Hnew Hids)
    as (ids1 & Hrun1 & Hkeys1).
  rewrite Hadd in Hrun1.
  assert (Hst1 : st1 = {| p_ids := ids1; p_zone := zone' |}).
  { unfold st1, populate. now rewrite Hrun1. }
  destruct (one_group_run zone_name lenient supported listed harmonized n t f
              d record' ids_listed {| p_ids := ids1; p_zone := zone2 |}
              Hne Hall Ht Hh Hf Hd Hnew' Hids)
    as (ids2 & Hrun2 & Hkeys2).
  cbn [p_ids p_zone] in Hrun2, Hkeys2.
  assert (Hids2 : p_ids (snd again) = ids2).
  { unfold again, populate. rewrite Hst1. cbn [p_ids]. rewrite Hrun2.
    now destruct (add_record record' lenient zone2). }
  assert (Hlisted : ids_of ids2 (rec_repr record')
                    = (ids_of (p_ids st) (rec_repr record) ++ ids_listed)
                      ++ ids_listed).
  { rewrite Hkeys2, Hkeys1.
    destruct (decide (rec_repr record' = rec_repr record')); [|congruence].
    destruct (decide (rec_repr record = rec_repr record')); [|congruence].
    now rewrite Hrepr. }
  split; [unfold populate; now rewrite Hrun1|].
  split; [now rewrite Hst1|].
  split.
  { unfold again, populate. rewrite Hst1. cbn [p_ids]. rewrite Hrun2.
    now destruct (add_record record' lenient zone2). }
  rewrite Hids2. split.
  - now rewrite !ids_facts.get_all_ids_fst, Hlisted.
  - rewrite ids_facts.has_unique_ids_fst, Hlisted.
    apply not_unique_when_repeated.
    intros Hnil. subst ids_listed. destruct listed; [congruence|discriminate].
Qed.

End one_group.

(** Two addresses listed under one name, with their identifiers. *)
Lemma populate_one_group_witness :
  let listed :=
    [listed_record "A" "192.0.2.1" "17"; listed_record "A" "192.0.2.2" "18"] in
  let record :=
    ("www", DataValues 300 "A" [Str "192.0.2.1"; Str "192.0.2.2"]) in
  let st := {| p_ids := RememberedIds.init; p_zone := [] |} in
  exists ids',
    populate_listed sample_rec_repr sample_Record_new sample_add_record
      "example.com." false IMPLEMENTED listed st
    = (inr true, {| p_ids := ids'; p_zone := [record] |})
    /\ fst (RememberedIds.get_all_ids sample_rec_repr ids' record)
       = fst (RememberedIds.get_all_ids sample_rec_repr (p_ids st) record)
         ++ ["17"; "18"]
    /\ forall other,
         sample_rec_repr other <> sample_rec_repr record ->
         fst (RememberedIds.get_all_ids sample_rec_repr ids' other)
         = fst (RememberedIds.get_all_ids sample_rec_repr (p_ids st) other).
Proof.
  intros listed record st.
  apply (populate_one_group sample_rec_repr sample_Record_new
           sample_add_record "example.com." false IMPLEMENTED listed listed
           "www.example.com" "A" _data_for_A (snd record) record [record]
           ["17"; "18"] st).
  - discriminate.
  - repeat constructor.
  - apply (bool_decide_unpack _). vm_compute. exact I.
  - reflexivity.
  - reflexivity.
  - reflexivity.
  - reflexivity.
  - reflexivity.
  - reflexivity.
Defined.

(** The same listing populated twice with one memory, the zone refusing
    duplicates: into a fresh zone the second run returns [True]; into the
    zone of the first run it raises; the identifiers are not unique after
    either. *)
Lemma populate_twice_not_unique_witness :
  let listed :=
    [listed_record "A" "192.0.2.1" "17"; listed_record "A" "192.0.2.2" "18"] in
  let record :=
    ("www", DataValues 300 "A" [Str "192.0.2.1"; Str "192.0.2.2"]) in
  let populate :=
    populate_listed sample_rec_repr sample_Record_new strict_add_record
      "example.com." false IMPLEMENTED listed in
  let st := {| p_ids := RememberedIds.init; p_zone := [] |} in
  let st1 := snd (populate st) in
  let fresh := populate {| p_ids := p_ids st1; p_zone := [] |} in
  let same := populate {| p_ids := p_ids st1; p_zone := [record] |} in
  (fst (populate st) = inr true /\ p_zone st1 = [record])
  /\ (fst fresh = inr true
      /\ fst (RememberedIds.get_all_ids sample_rec_repr (p_ids (snd fresh))
                record)
         = ["17"; "18"; "17"; "18"]
      /\ fst (RememberedIds.has_unique_ids sample_rec_repr
                (p_ids (snd fresh)) record) = false)
  /\ (fst same = inl (External "DuplicateRecordException")
      /\ fst (RememberedIds.has_unique_ids sample_rec_repr
                (p_ids (snd same)) record) = false).
Proof.
  intros listed record populate st st1 fresh same.
  pose proof (populate_twice_not_unique sample_rec_repr sample_Record_new
                strict_add_record "example.com." false IMPLEMENTED listed
                listed "www.example.com" "A" _data_for_A (snd record) record
                record [record]) as H.
  assert (Hsupported : "A" ∈ IMPLEMENTED)
    by (apply (bool_decide_unpack _); vm_compute; exact I).
  destruct (H [] ["17"; "18"] st ltac:(discriminate)
              ltac:(repeat constructor) Hsupported eq_refl eq_refl eq_refl
              eq_refl eq_refl eq_refl eq_refl eq_refl)
    as (Hfirst & Hzone & Hfresh & Hids & Hunique).
  destruct (H [record] ["17"; "18"] st ltac:(discriminate)
              ltac:(repeat constructor) Hsupported eq_refl eq_refl eq_refl
              eq_refl eq_refl eq_refl eq_refl eq_refl)
    as (_ & _ & Hsame & _ & Hunique').
  split; [split; [exact Hfirst | exact Hzone]|]. split.
  - split; [exact Hfresh|]. split; [exact Hids | exact Hunique].
  - split; [exact Hsame | exact Hunique'].
Defined.

(** * The order of [sorted] *)

Lemma ascii_compare_lt_trans (a b c : ascii) :
  (a ?= b)%char = Lt -> (b ?= c)%char = Lt -> (a ?= c)%char = Lt.
Proof.
  unfold Ascii.compare. rewrite !N.compare_lt_iff. lia.
Qed.

Lemma string_compare_refl (s : string) : (s ?= s)%string = Eq.
Proof.
  pose proof (String.compare_antisym s s) as H.
  destruct (s ?= s)%string; [reflexivity | discriminate | discriminate].
Qed.

Lemma string_compare_lt_trans (a : string) :
  forall b c,
    (a ?= b)%string = Lt -> (b ?= c)%string = Lt -> (a ?= c)%string = Lt.
Proof.
  induction a as [|x a IH]; intros [|y b] [|z c]; simpl; try congruence.
  destruct (x ?= y)%char eqn:Hxy; [|intros _|discriminate].
  - apply Ascii.compare_eq_iff in Hxy as ->.
    destruct (y ?= z)%char; [apply IH | reflexivity | discriminate].
  - destruct (y ?= z)%char eqn:Hyz; [|intros _|discriminate].
    + apply Ascii.compare_eq_iff in Hyz as <-. now rewrite Hxy.
    + now rewrite (ascii_compare_lt_trans x y z Hxy Hyz).
Qed.

Lemma compare_LexiconRecord_eq (a b : LexiconRecord) :
  compare_LexiconRecord a b = Eq -> a = b.
Proof.
  unfold compare_LexiconRecord. destruct a as [c1 t1 r1 n1], b as [c2 t2 r2 n2].
  simpl.
  destruct (c1 ?= c2)%string eqn:Hc; try discriminate.
  destruct (t1 ?= t2)%Z eqn:Ht; try discriminate.
  destruct (r1 ?= r2)%string eqn:Hr; try discriminate.
  intros Hn.
  apply String.compare_eq_iff in Hc, Hr, Hn. apply Z.compare_eq in Ht.
  congruence.
Qed.

Lemma compare_LexiconRecord_antisym (a b : LexiconRecord) :
  compare_LexiconRecord b a = CompOpp (compare_LexiconRecord a b).
Proof.
  unfold compare_LexiconRecord.
  rewrite (String.compare_antisym (content b) (content a)).
  destruct (content a ?= content b)%string; simpl; try reflexivity.
  rewrite (Z.compare_antisym (ttl a) (ttl b)).
  destruct (ttl a ?= ttl b)%Z; simpl; try reflexivity.
  rewrite (String.compare_antisym (rtype b) (rtype a)).
  destruct (rtype a ?= rtype b)%string; simpl; try reflexivity.
  rewrite (String.compare_antisym (name b) (name a)).
  now destruct (name a ?= name b)%string.
Qed.

Lemma compare_LexiconRecord_lt_trans (a b c : LexiconRecord) :
  compare_LexiconRecord a b = Lt -> compare_LexiconRecord b c = Lt ->
  compare_LexiconRecord a c = Lt.
Proof.
  unfold compare_LexiconRecord.
  destruct (content a ?= content b)%string eqn:Hab; [|intros _|discriminate].
  - apply String.compare_eq_iff in Hab. rewrite Hab.
    destruct (content b ?= content c)%string; [|reflexivity|discriminate].
    destruct (ttl a ?= ttl b)%Z eqn:Tab; [|intros _|discriminate].
    + apply Z.compare_eq in Tab. rewrite Tab.
      destruct (ttl b ?= ttl c)%Z; [|reflexivity|discriminate].
      destruct (rtype a ?= rtype b)%string eqn:Rab; [|intros _|discriminate].
      * apply String.compare_eq_iff in Rab. rewrite Rab.
        destruct (rtype b ?= rtype c)%string; [|reflexivity|discriminate].
        apply string_compare_lt_trans.
      * destruct (rtype b ?= rtype c)%string eqn:Rbc; [|intros _|discriminate].
        -- apply String.compare_eq_iff in Rbc. rewrite <- Rbc, Rab. reflexivity.
        -- now rewrite (string_compare_lt_trans _ _ _ Rab Rbc).
    + destruct (ttl b ?= ttl c)%Z eqn:Tbc; [|intros _|discriminate].
      * apply Z.compare_eq in Tbc. rewrite <- Tbc, Tab. reflexivity.
      * rewrite Z.compare_lt_iff in Tab, Tbc.
        assert (Tac : (ttl a ?= ttl c)%Z = Lt) by (apply Z.compare_lt_iff; lia).
        now rewrite Tac.
  - destruct (content b ?= content c)%string eqn:Hbc; [|intros _|discriminate].
    + apply String.compare_eq_iff in Hbc. rewrite <- Hbc, Hab. reflexivity.
    + now rewrite (string_compare_lt_trans _ _ _ Hab Hbc).
Qed.

Lemma le_LexiconRecord_total : Total le_LexiconRecord.
Proof.
  intros a b. unfold le_LexiconRecord.
  rewrite (compare_LexiconRecord_antisym a b).
  destruct (compare_LexiconRecord a b); simpl; [left|left|right]; discriminate.
Qed.

Lemma le_LexiconRecord_trans : Transitive le_LexiconRecord.
Proof.
  intros a b c. unfold le_LexiconRecord.
  destruct (compare_LexiconRecord a b) eqn:Hab; [| |congruence]; intros _.
  - apply compare_LexiconRecord_eq in Hab as ->. tauto.
  - destruct (compare_LexiconRecord b c) eqn:Hbc; [| |congruence]; intros _.
    + apply compare_LexiconRecord_eq in Hbc as <-. now rewrite Hab.
    + now rewrite (compare_LexiconRecord_lt_trans a b c Hab Hbc).
Qed.

Lemma StronglySorted_lookup {A} (R : relation A) (l : list A) (i j : nat)
    (a b : A) :
  StronglySorted R l -> (i < j)%nat -> l !! i = Some a -> l !! j = Some b ->
  R a b.
Proof.
  intros Hl Hij Ha Hb. rewrite <- (take_drop j l) in Hl.
  apply (StronglySorted_app_1_elem_of R _ _ a b Hl).
  - apply elem_of_take. now exists i.
  - apply (list_elem_of_lookup_2 _ 0). now rewrite lookup_drop, Nat.add_0_r.
Qed.

(** X25.  [sorted] lists the flat records of a set once each, in strictly
    ascending order of the tuples (content, ttl, rtype, name), strings
    compared character by character: this is the order in which [_apply]
    pairs additions with deletions. *)
Theorem sorted_ascending (s : gset LexiconRecord) :
  (forall x, x ∈ sorted s <-> x ∈ s)
  /\ NoDup (sorted s)
  /\ forall i j a b,
       (i < j)%nat -> sorted s !! i = Some a -> sorted s !! j = Some b ->
       compare_LexiconRecord a b = Lt.
Proof.
  assert (Hperm : sorted s ≡ₚ elements s)
    by apply (merge_sort_Permutation le_LexiconRecord).
  assert (Hnodup : NoDup (sorted s)).
  { rewrite Hperm. apply NoDup_elements. }
  split; [|split; [exact Hnodup|]].
  - intros x. rewrite Hperm. apply elem_of_elements.
  - intros i j a b Hij Ha Hb.
    assert (Hle : le_LexiconRecord a b).
    { apply (StronglySorted_lookup _ (sorted s) i j); try assumption.
      apply (@StronglySorted_merge_sort _ le_LexiconRecord _
               le_LexiconRecord_trans le_LexiconRecord_total). }
    unfold le_LexiconRecord in Hle.
    destruct (compare_LexiconRecord a b) eqn:Hab;
      [|reflexivity|congruence].
    apply compare_LexiconRecord_eq in Hab as ->.
    rewrite NoDup_alt in Hnodup. specialize (Hnodup i j b Ha Hb). lia.
Qed.

(** Two addresses listed in descending order come out ascending. *)
Lemma sorted_ascending_witness :
  compare_LexiconRecord (a_flat "192.0.2.1") (a_flat "192.0.2.2") = Lt.
Proof.
  destruct (sorted_ascending {[a_flat "192.0.2.2"; a_flat "192.0.2.1"]})
    as (_ & _ & Horder).
  apply (Horder 0%nat 1%nat); [lia | vm_compute; reflexivity
                              | vm_compute; reflexivity].
Defined.
